(** * Conv + BatchNormalization fusion (torch/csrc/jit/passes/onnx/eval_peephole.cpp)

    A shallow embedding of the ONNX eval-mode peephole pass: the tensor
    accessor [getValues], the walker [fuseConvBatchNorm] and the entry point
    [EvalPeepholeONNX], over an explicit model of the JIT graph IR, of the
    tensor heap and of the value-to-parameter map. *)

From stdpp Require Import gmap strings list fin_maps pretty.


(** ** The tensor library interface

    ATen is consumed through a narrow interface.  Element arithmetic is kept
    abstract (floating point is not modelled): the development is parametric
    in the scalar operations, in the dtype enumeration and in the dtype
    promotion table. *)

Class TensorBackend := {
  Scalar : Type;
  ScalarType : Type;
  isFloatingType : ScalarType → bool;
  (* dtype of the result of a binary operation, from the dtype and the rank
     of either operand *)
  result_type : ScalarType → nat → ScalarType → nat → ScalarType;
  s_add : Scalar → Scalar → Scalar;
  s_sub : Scalar → Scalar → Scalar;
  s_mul : Scalar → Scalar → Scalar;
  s_div : Scalar → Scalar → Scalar;
  s_sqrt : Scalar → Scalar;
  s_zero : Scalar
}.

Section Tensors.
Context `{TensorBackend}.

(** Modelled from the spec: at::Tensor and its operations are not under
    src/.  A dense tensor: dtype, shape and row-major contents. *)
Record TensorImpl := mkTensorImpl {
  t_dtype : ScalarType;
  t_sizes : list nat;
  t_data : list Scalar
}.

Definition numel (sizes : list nat) : nat := foldr Nat.mul 1 sizes.

Definition t_dim (x : TensorImpl) : nat := length (t_sizes x).

Definition t_wf (x : TensorImpl) : Prop :=
  length (t_data x) = numel (t_sizes x).

(** Modelled from the spec: the broadcasting of ATen's binary operations is
    not under src/.  Shapes are aligned on their trailing dimension, so both
    functions work on reversed shapes (innermost dimension first). *)
Definition broadcast_dim (x y : nat) : option nat :=
  if decide (x = y) then Some x
  else if decide (x = 1) then Some y
  else if decide (y = 1) then Some x
  else None.

Fixpoint broadcast_rev (a b : list nat) : option (list nat) :=
  match a, b with
  | [], _ => Some b
  | _, [] => Some a
  | x :: a', y :: b' =>
      d ← broadcast_dim x y;
      r ← broadcast_rev a' b';
      Some (d :: r)
  end.

Definition broadcast_shapes (a b : list nat) : option (list nat) :=
  reverse <$> broadcast_rev (reverse a) (reverse b).

(** Position, in the contents of an operand of (reversed) shape [in_rev], of
    the element that lands at linear position [k] of a result of (reversed)
    shape [out_rev]. *)
Fixpoint bcast_index_rev (out_rev in_rev : list nat) (k : nat) : nat :=
  match out_rev, in_rev with
  | d :: out', e :: in' =>
      (if decide (e = 1) then 0 else k `mod` d)
      + e * bcast_index_rev out' in' (k `div` d)
  | _, _ => 0
  end.

Definition bcast_get (out_sizes : list nat) (x : TensorImpl) (k : nat) : Scalar :=
  nth (bcast_index_rev (reverse out_sizes) (reverse (t_sizes x)) k)
      (t_data x) s_zero.

(** Modelled from the spec: Tensor::add, sub, mul and div are not under
    src/.  Elementwise binary operation with broadcasting; [None] when the shapes
    cannot be broadcast together (ATen raises). *)
Definition t_binop (f : Scalar → Scalar → Scalar) (x y : TensorImpl)
    : option TensorImpl :=
  s ← broadcast_shapes (t_sizes x) (t_sizes y);
  Some {| t_dtype := result_type (t_dtype x) (t_dim x) (t_dtype y) (t_dim y);
          t_sizes := s;
          t_data := (λ k, f (bcast_get s x k) (bcast_get s y k))
                      <$> seq 0 (numel s) |}.

(** Modelled from the spec: Tensor::add(Scalar) and Tensor::sqrt are not
    under src/.  [x.add(eps)] for a Scalar [eps], and [x.sqrt()]. *)
Definition t_add_scalar (x : TensorImpl) (eps : Scalar) : TensorImpl :=
  {| t_dtype := t_dtype x; t_sizes := t_sizes x;
     t_data := (λ a, s_add a eps) <$> t_data x |}.

Definition t_sqrt (x : TensorImpl) : TensorImpl :=
  {| t_dtype := t_dtype x; t_sizes := t_sizes x;
     t_data := s_sqrt <$> t_data x |}.

(** Modelled from the spec: Tensor::operator[] is not under src/.
    [x[i]]: the i-th slice along dimension 0. *)
Definition t_select (x : TensorImpl) (i : nat) : option TensorImpl :=
  match t_sizes x with
  | [] => None
  | n :: rest =>
      if decide (i < n) then
        Some {| t_dtype := t_dtype x; t_sizes := rest;
                t_data := take (numel rest) (drop (i * numel rest) (t_data x)) |}
      else None
  end.

(** Modelled from the spec: assignment to a Tensor view is not under src/.
    [x[i] = src]: assignment through the view [x[i]] copies [src]
    (broadcast to the slice's shape, cast to [x]'s dtype) into [x]'s
    storage. *)
Definition t_select_copy (x : TensorImpl) (i : nat) (src : TensorImpl)
    : option TensorImpl :=
  match t_sizes x with
  | [] => None
  | n :: rest =>
      if decide (i < n) then
        s ← broadcast_shapes rest (t_sizes src);
        if decide (s = rest) then
          Some {| t_dtype := t_dtype x; t_sizes := t_sizes x;
                  t_data := take (i * numel rest) (t_data x)
                            ++ (bcast_get rest src <$> seq 0 (numel rest))
                            ++ drop (S i * numel rest) (t_data x) |}
        else None
      else None
  end.

End Tensors.

(** ** The graph IR

    Modelled from the spec: the classes of the IR (Graph, Block, Node,
    Value, Use, IValue; ir.h, ivalue.h) are not under src/.  Nodes, values
    and blocks live in stores indexed by identifiers (the C++
    code holds pointers); a [Value] is identified by its [unique()] number.
    [at::Tensor] is a handle into a heap of [TensorImpl]s, so that sharing
    between the parameter map, Constant nodes and local variables is
    visible. *)

Inductive Symbol :=
  | onnx_Conv
  | onnx_BatchNormalization
  | onnx_Constant
  | prim_Param
  | prim_Return
  | other_op (name : string).

Global Instance Symbol_eq_dec : EqDecision Symbol.
Proof. solve_decision. Defined.

Record Use := mkUse { user : nat; offset : nat }.

Global Instance Use_eq_dec : EqDecision Use.
Proof. solve_decision. Defined.

Abbreviation Tensor := nat (only parsing).

Inductive IValue :=
  | IVTensor (t : Tensor)
  | IVOther (tag : string).

Inductive Error :=
  | OutOfRange       (* std::vector::at *)
  | AttributeError   (* Node::f / Node::t: attribute missing or of another kind *)
  | NotATensor       (* IValue::toTensor on a non-tensor *)
  | TensorError      (* ATen: shapes do not broadcast, index out of range *)
  | AssertFailed     (* an internal assertion of the IR *)
  | Dangling         (* an identifier that is not in its store *)
  | Unmodelled       (* destroying a node that owns blocks *)
  | OutOfFuel.

Inductive Res (A : Type) :=
  | Ok (a : A)
  | Err (e : Error).
Arguments Ok {A} a.
Arguments Err {A} e.

Section IR.
Context `{TensorBackend}.

Inductive AttributeValue :=
  | attr_f (x : Scalar)
  | attr_t (t : Tensor)
  | attr_other (kind : string).

(** The type of a [Value]: the unrefined tensor type every fresh value
    starts with, or the type [inferTypeFrom] derives from a tensor. *)
Inductive JitType :=
  | TensorTypeAny
  | TensorTypeOf (dtype : ScalarType) (sizes : list nat).

Record Value := mkValue {
  v_node : nat;
  v_uses : list Use;
  v_type : JitType;
  v_name : option string
}.

Record Node := mkNode {
  n_kind : Symbol;
  n_inputs : list nat;
  n_outputs : list nat;
  n_attrs : list (string * AttributeValue);
  n_blocks : list nat;
  n_owning_block : option nat
}.

(** A block: its Param node (whose outputs are the block's inputs), its
    Return node (the sentinel of the node list) and its nodes in order. *)
Record Block := mkBlock {
  b_input : nat;
  b_output : nat;
  b_nodes : list nat;
  b_owning_node : option nat
}.

Record Graph := mkGraph {
  g_nodes : gmap nat Node;
  g_values : gmap nat Value;
  g_blocks : gmap nat Block;
  g_block : nat;
  g_next_unique : nat;
  g_next_node : nat
}.

Record State := mkState {
  graph : Graph;
  heap : list TensorImpl;
  valsToParamsMap : gmap nat (string * IValue)
}.

Definition set_nodes (f : gmap nat Node → gmap nat Node) (g : Graph) : Graph :=
  mkGraph (f (g_nodes g)) (g_values g) (g_blocks g) (g_block g)
          (g_next_unique g) (g_next_node g).
Definition set_values (f : gmap nat Value → gmap nat Value) (g : Graph) : Graph :=
  mkGraph (g_nodes g) (f (g_values g)) (g_blocks g) (g_block g)
          (g_next_unique g) (g_next_node g).
Definition set_blocks (f : gmap nat Block → gmap nat Block) (g : Graph) : Graph :=
  mkGraph (g_nodes g) (g_values g) (f (g_blocks g)) (g_block g)
          (g_next_unique g) (g_next_node g).

Definition set_inputs (l : list nat) (n : Node) : Node :=
  mkNode (n_kind n) l (n_outputs n) (n_attrs n) (n_blocks n) (n_owning_block n).
Definition set_outputs (l : list nat) (n : Node) : Node :=
  mkNode (n_kind n) (n_inputs n) l (n_attrs n) (n_blocks n) (n_owning_block n).
Definition set_attrs (l : list (string * AttributeValue)) (n : Node) : Node :=
  mkNode (n_kind n) (n_inputs n) (n_outputs n) l (n_blocks n) (n_owning_block n).
Definition set_owning_block (b : option nat) (n : Node) : Node :=
  mkNode (n_kind n) (n_inputs n) (n_outputs n) (n_attrs n) (n_blocks n) b.
Definition set_uses (l : list Use) (v : Value) : Value :=
  mkValue (v_node v) l (v_type v) (v_name v).
Definition set_type (t : JitType) (v : Value) : Value :=
  mkValue (v_node v) (v_uses v) t (v_name v).
Definition set_b_nodes (l : list nat) (b : Block) : Block :=
  mkBlock (b_input b) (b_output b) l (b_owning_node b).

(** ** Effects: state and exceptions

    The pass mutates the graph, the tensor heap and the parameter map in
    place and may throw; a computation returns the state it reached together
    with a value or an error. *)

Definition M (A : Type) : Type := State → State * Res A.

Definition ret {A} (a : A) : M A := λ st, (st, Ok a).
Definition throw {A} (e : Error) : M A := λ st, (st, Err e).
Definition bind {A B} (m : M A) (k : A → M B) : M B :=
  λ st, match m st with
        | (st', Ok a) => k a st'
        | (st', Err e) => (st', Err e)
        end.

End IR.

Notation "'let*' x := m 'in' k" := (bind m (λ x, k))
  (at level 10, x pattern, m at level 100, k at level 200, only parsing).
Notation "m ;;; k" := (bind m (λ _, k))
  (at level 100, k at level 200, right associativity, only parsing).

Section Primitives.
Context `{TensorBackend}.

Definition getGraph : M Graph := λ st, (st, Ok (graph st)).
Definition modifyGraph (f : Graph → Graph) : M unit :=
  λ st, (mkState (f (graph st)) (heap st) (valsToParamsMap st), Ok tt).
Definition getMap : M (gmap nat (string * IValue)) :=
  λ st, (st, Ok (valsToParamsMap st)).
Definition modifyMap (f : gmap nat (string * IValue) → gmap nat (string * IValue))
    : M unit :=
  λ st, (mkState (graph st) (heap st) (f (valsToParamsMap st)), Ok tt).
Definition getHeap : M (list TensorImpl) := λ st, (st, Ok (heap st)).
Definition modifyHeap (f : list TensorImpl → list TensorImpl) : M unit :=
  λ st, (mkState (graph st) (f (heap st)) (valsToParamsMap st), Ok tt).

Definition lift {A} (e : Error) (o : option A) : M A :=
  match o with Some a => ret a | None => throw e end.

(** Run [f] on every element of a list, in order. *)
Fixpoint forM_ {A} (l : list A) (f : A → M unit) : M unit :=
  match l with
  | [] => ret tt
  | x :: l' => f x ;;; forM_ l' f
  end.

(** *** Tensor handles

    Modelled from the spec: at::Tensor is not under src/.  A handle is read
    through [impl]; [clone] and the out-of-place operations allocate their
    result at the end of the heap. *)

Definition impl (t : Tensor) : M TensorImpl :=
  let* h := getHeap in lift Dangling (h !! t).

Definition new_tensor (x : TensorImpl) : M Tensor :=
  let* h := getHeap in
  modifyHeap (λ h, h ++ [x]) ;;;
  ret (length h).

Definition clone (t : Tensor) : M Tensor :=
  let* x := impl t in new_tensor x.

Definition tensor_binop (f : Scalar → Scalar → Scalar) (a b : Tensor) : M Tensor :=
  let* x := impl a in
  let* y := impl b in
  let* z := lift TensorError (t_binop f x y) in
  new_tensor z.

Definition tensor_add_scalar (a : Tensor) (eps : Scalar) : M Tensor :=
  let* x := impl a in new_tensor (t_add_scalar x eps).

Definition tensor_sqrt (a : Tensor) : M Tensor :=
  let* x := impl a in new_tensor (t_sqrt x).

(** Line 103, [w[i] = w[i].mul(s[i])]: the only in-place write of the
    pass. *)
Definition mul_channel_ (w s : Tensor) (i : nat) : M unit :=
  let* x := impl w in
  let* sc := impl s in
  let* wi := lift TensorError (t_select x i) in
  let* si := lift TensorError (t_select sc i) in
  let* p := lift TensorError (t_binop s_mul wi si) in
  let* x' := lift TensorError (t_select_copy x i p) in
  modifyHeap (λ h, <[w := x']> h).

(** *** Graph stores *)

Definition getNode (n : nat) : M Node :=
  let* g := getGraph in lift Dangling (g_nodes g !! n).
Definition getValue (v : nat) : M Value :=
  let* g := getGraph in lift Dangling (g_values g !! v).
Definition getBlock (b : nat) : M Block :=
  let* g := getGraph in lift Dangling (g_blocks g !! b).

(** [vec.at(i)] *)
Definition at_ {A} (l : list A) (i : nat) : M A := lift OutOfRange (l !! i).

(** Modelled from the spec: Node::f and Node::t are not under src/.
    [n->f(name)] and [n->t(name)] throw unless the attribute exists with
    that kind. *)
Fixpoint find_attr (attrs : list (string * AttributeValue)) (name : string)
    : option AttributeValue :=
  match attrs with
  | [] => None
  | (k, a) :: rest => if decide (k = name) then Some a else find_attr rest name
  end.

Definition attr_get_f (n : Node) (name : string) : M Scalar :=
  match find_attr (n_attrs n) name with
  | Some (attr_f x) => ret x
  | _ => throw AttributeError
  end.

Definition attr_get_t (n : Node) (name : string) : M Tensor :=
  match find_attr (n_attrs n) name with
  | Some (attr_t t) => ret t
  | _ => throw AttributeError
  end.

(** Modelled from the spec: IValue::toTensor is not under src/.  It throws
    on a value that is not a tensor. *)
Definition toTensor (v : IValue) : M Tensor :=
  match v with
  | IVTensor t => ret t
  | IVOther _ => throw NotATensor
  end.

(** Modelled from the spec: Value::debugName is not under src/.
    [v->debugName()]: the name given to the value, or else its unique
    number in decimal. *)
Definition debugName (v : nat) : M string :=
  let* x := getValue v in
  ret (default (pretty v) (v_name x)).

(** [std::map::insert]: an existing key keeps its entry. *)
Definition map_insert (k : nat) (e : string * IValue)
    (m : gmap nat (string * IValue)) : gmap nat (string * IValue) :=
  match m !! k with
  | Some _ => m
  | None => <[k := e]> m
  end.

End Primitives.

(** ** Operations of the IR

    The pass calls these members of [Node], [Value], [Block] and [Graph];
    their definitions (ir.h, ir.cpp) are not among the sources. *)

Section IROps.
Context `{TensorBackend}.

(** List surgery for the node list of a block and for use lists. *)
Fixpoint insert_before (n ref : nat) (l : list nat) : list nat :=
  match l with
  | [] => []
  | x :: l' => if decide (x = ref) then n :: x :: l' else x :: insert_before n ref l'
  end.

Fixpoint erase_first {A} `{EqDecision A} (x : A) (l : list A) : list A :=
  match l with
  | [] => []
  | y :: l' => if decide (y = x) then l' else y :: erase_first x l'
  end.

Fixpoint list_after (x : nat) (l : list nat) : option nat :=
  match l with
  | [] => None
  | y :: l' => if decide (y = x) then head l' else list_after x l'
  end.

Fixpoint list_before (prev : option nat) (x : nat) (l : list nat) : option nat :=
  match l with
  | [] => None
  | y :: l' => if decide (y = x) then prev else list_before (Some y) x l'
  end.

(** Modelled from the spec: Node::addOutput is not under src/.  A fresh
    Value, defined by the node, with the unrefined tensor type and no use. *)
Definition addOutput (n : nat) : M nat :=
  let* nd := getNode n in
  let* g := getGraph in
  let v := g_next_unique g in
  modifyGraph (λ g,
    mkGraph (<[n := set_outputs (n_outputs nd ++ [v]) nd]> (g_nodes g))
            (<[v := mkValue n [] TensorTypeAny None]> (g_values g))
            (g_blocks g) (g_block g) (S v) (g_next_node g)) ;;;
  ret v.

(** Modelled from the spec: Graph::create is not under src/.  The graph-owned
    factory: a new node of the given kind with [num_outputs] outputs, no
    input, no attribute, not yet placed in any block. *)
Definition create (kind : Symbol) (num_outputs : nat) : M nat :=
  let* g := getGraph in
  let n := g_next_node g in
  modifyGraph (λ g,
    mkGraph (<[n := mkNode kind [] [] [] [] None]> (g_nodes g))
            (g_values g) (g_blocks g) (g_block g) (g_next_unique g) (S n)) ;;;
  forM_ (replicate num_outputs tt) (λ _, let* _ := addOutput n in ret tt) ;;;
  ret n.

(** Modelled from the spec: Block::addInput and Graph::addInput are not under
    src/.  A block's inputs are the outputs of its Param node; the graph's
    declared inputs are those of its root block. *)
Definition block_addInput (b : nat) : M nat :=
  let* blk := getBlock b in addOutput (b_input blk).

(** Modelled from the spec: Graph::addInput is not under src/.  It adds an
    input to the top-level block. *)
Definition graph_addInput : M nat :=
  let* g := getGraph in block_addInput (g_block g).

(** Modelled from the spec: Value::copyMetadata is not under src/.  Copies
    the type (shape and dtype metadata) of [src] onto [dst]. *)
Definition copyMetadata (dst src : nat) : M unit :=
  let* s := getValue src in
  let* d := getValue dst in
  modifyGraph (set_values (<[dst := set_type (v_type s) d]>)).

(** Modelled from the spec: Value::inferTypeFrom is not under src/.  The type
    of the value becomes the tensor type of the tensor's dtype and shape. *)
Definition inferTypeFrom (v : nat) (t : Tensor) : M unit :=
  let* x := impl t in
  let* d := getValue v in
  modifyGraph (set_values (<[v := set_type (TensorTypeOf (t_dtype x) (t_sizes x)) d]>)).

(** Modelled from the spec: Node::copyAttributes is not under src/.  The
    node's attributes become those of [src]. *)
Definition copyAttributes (dst src : nat) : M unit :=
  let* s := getNode src in
  let* d := getNode dst in
  modifyGraph (set_nodes (<[dst := set_attrs (n_attrs s) d]>)).

(** Modelled from the spec: Node::insertBefore is not under src/.  Places a
    node that is in no block immediately before [ref] in [ref]'s block. *)
Definition insertBefore (n ref : nat) : M unit :=
  let* r := getNode ref in
  let* nd := getNode n in
  match n_owning_block r, n_owning_block nd with
  | Some b, None =>
      let* blk := getBlock b in
      modifyGraph (λ g,
        set_blocks (<[b := set_b_nodes (insert_before n ref (b_nodes blk)) blk]>)
          (set_nodes (<[n := set_owning_block (Some b) nd]>) g))
  | _, _ => throw AssertFailed
  end.

(** Modelled from the spec: Node::addInput is not under src/.  Appends [v] to
    the node's inputs and records the use (node, position) on [v]. *)
Definition addInput (n v : nat) : M unit :=
  let* nd := getNode n in
  let* x := getValue v in
  modifyGraph (λ g,
    set_values (<[v := set_uses (v_uses x ++ [mkUse n (length (n_inputs nd))]) x]>)
      (set_nodes (<[n := set_inputs (n_inputs nd ++ [v]) nd]>) g)).

(** Modelled from the spec: Value::replaceAllUsesWith is not under src/.
    Each use of [old], first to last, is redirected: the consumer's input
    becomes [new], the use moves to the end of [new]'s use list. *)
Definition replaceFirstUseWith (old new : nat) : M unit :=
  let* o := getValue old in
  match v_uses o with
  | [] => throw OutOfRange
  | u :: _ =>
      let* un := getNode (user u) in
      modifyGraph (set_nodes
        (<[user u := set_inputs (<[offset u := new]> (n_inputs un)) un]>)) ;;;
      let* nv := getValue new in
      modifyGraph (set_values (<[new := set_uses (v_uses nv ++ [u]) nv]>)) ;;;
      let* o := getValue old in
      modifyGraph (set_values (<[old := set_uses (tail (v_uses o)) o]>))
  end.

(** Modelled from the spec: Value::replaceAllUsesWith is not under src/.
    One redirection per use of [old]. *)
Definition replaceAllUsesWith (old new : nat) : M unit :=
  let* o := getValue old in
  forM_ (v_uses o) (λ _, replaceFirstUseWith old new).

(** Modelled from the spec: Node::eraseOutput is not under src/.  An output
    can only be erased once it has no remaining use. *)
Definition eraseOutput (v : nat) : M unit :=
  let* x := getValue v in
  if decide (v_uses x = []) then modifyGraph (set_values (delete v))
  else throw AssertFailed.

(** Modelled from the spec: Node::removeAllInputs is not under src/.  The
    use (node, position) is taken off the use list of the input. *)
Definition dropInput (n : nat) (p : nat * nat) : M unit :=
  let* x := getValue p.2 in
  if decide (mkUse n p.1 ∈ v_uses x) then
    modifyGraph (set_values
      (<[p.2 := set_uses (erase_first (mkUse n p.1) (v_uses x)) x]>))
  else throw AssertFailed.

(** Modelled from the spec: Node::removeFromList is not under src/.  The
    node is unlinked from the node list of its block. *)
Definition removeFromList (n : nat) : M unit :=
  let* nd := getNode n in
  match n_owning_block nd with
  | None => ret tt
  | Some b =>
      let* blk := getBlock b in
      modifyGraph (set_blocks (<[b := set_b_nodes (erase_first n (b_nodes blk)) blk]>))
  end.

(** Modelled from the spec: Node::destroy is not under src/.  Destruction is
    only valid once no output of the node has a remaining use; it erases the
    outputs, drops the node's own uses of its inputs, unlinks the node from
    its block and frees it.  Nodes that own blocks are outside the model. *)
Definition destroy (n : nat) : M unit :=
  let* nd := getNode n in
  forM_ (reverse (n_outputs nd)) eraseOutput ;;;
  (if decide (n_blocks nd = []) then ret tt else throw Unmodelled) ;;;
  forM_ (imap pair (n_inputs nd)) (dropInput n) ;;;
  removeFromList n ;;;
  modifyGraph (set_nodes (delete n)).

(** Modelled from the spec: the iterator of a block's node list is not
    under src/.  The list is circular through the Return node, which is
    [end()]; [++it] and the step back of [destroyCurrent] follow the links. *)
Definition next_in_block (b cur : nat) : M nat :=
  let* blk := getBlock b in
  if decide (cur = b_output blk) then
    ret (default (b_output blk) (head (b_nodes blk)))
  else if decide (cur ∈ b_nodes blk) then
    ret (default (b_output blk) (list_after cur (b_nodes blk)))
  else throw Dangling.

(** Modelled from the spec: the step back of the same iterator. *)
Definition prev_in_block (b cur : nat) : M nat :=
  let* blk := getBlock b in
  if decide (cur = b_output blk) then
    ret (default (b_output blk) (last (b_nodes blk)))
  else if decide (cur ∈ b_nodes blk) then
    ret (default (b_output blk) (list_before None cur (b_nodes blk)))
  else throw Dangling.

(** Modelled from the spec: graph_node_list_iterator::destroyCurrent is not
    under src/.  Step back, then destroy the node left behind. *)
Definition destroyCurrent (b it : nat) : M nat :=
  let* cur := prev_in_block b it in
  destroy it ;;;
  ret cur.

End IROps.

(** ** The pass *)

(** What the matcher hands to the folder and the rewriter: the two nodes,
    epsilon, the resolved inputs of the convolution and the local clones. *)
Record Candidate `{TensorBackend} := mkCandidate {
  c_oldConv : nat;
  c_bnNode : nat;
  c_epsilon : Scalar;
  c_convInputVals : list Tensor;
  c_bnScale : Tensor;
  c_bnB : Tensor;
  c_bnMean : Tensor;
  c_bnVar : Tensor;
  c_convW : Tensor
}.
Arguments mkCandidate {_} _ _ _ _ _ _ _ _ _.

(** What processing one Conv node did: [continue], or the rewrite, with the
    new node, the two new inputs and the iterator left by
    [destroyCurrent]. *)
Inductive Outcome :=
  | Skipped
  | Fused (newConv newConvW newConvB it : nat).

Section Pass.
Context `{TensorBackend}.

(** [getValues] (lines 17-37): the loop over [node->inputs()]. *)
Fixpoint getValues_loop (vals : list nat) (inputTensorValues : list Tensor)
    : M (list Tensor) :=
  match vals with
  | [] => ret inputTensorValues
  | val :: rest =>
      let* v := getValue val in
      let* def := getNode (v_node v) in
      if decide (n_kind def = prim_Param) then
        let* m := getMap in
        match m !! val with
        | None => getValues_loop rest inputTensorValues
        | Some itr =>
            let* t := toTensor itr.2 in
            getValues_loop rest (inputTensorValues ++ [t])
        end
      else if decide (n_kind def = onnx_Constant) then
        let* t := attr_get_t def "value" in
        getValues_loop rest (inputTensorValues ++ [t])
      else getValues_loop rest inputTensorValues
  end.

Definition getValues (node : nat) : M (list Tensor) :=
  let* nd := getNode node in
  getValues_loop (n_inputs nd) [].

(** The condition of lines 86-93: [true] when the candidate is rejected. *)
Definition rejected (bnScale bnB bnMean bnVar convW : TensorImpl) : bool :=
  negb (isFloatingType (t_dtype bnScale)) || negb (isFloatingType (t_dtype bnB))
  || negb (isFloatingType (t_dtype bnMean)) || negb (isFloatingType (t_dtype bnVar))
  || negb (isFloatingType (t_dtype convW))
  || negb (bool_decide (t_dim bnScale = 1)) || negb (bool_decide (t_dim bnB = 1))
  || negb (bool_decide (t_dim bnMean = 1)) || negb (bool_decide (t_dim bnVar = 1))
  || negb (bool_decide (t_sizes bnScale !! 0 = t_sizes bnB !! 0))
  || negb (bool_decide (t_sizes bnB !! 0 = t_sizes bnMean !! 0))
  || negb (bool_decide (t_sizes bnMean !! 0 = t_sizes bnVar !! 0))
  || negb (bool_decide (2 < t_dim convW))
  || negb (bool_decide (t_sizes convW !! 0 = t_sizes bnScale !! 0)).

(** Lines 50-95 of [fuseConvBatchNorm]: the matcher.  [None] is [continue]. *)
Definition matchConvBatchNorm (it : nat) : M (option Candidate) :=
  let oldConv := it in
  let* conv := getNode oldConv in
  let* out0 := at_ (n_outputs conv) 0 in
  let* o := getValue out0 in
  if decide (length (v_uses o) ≠ 1) then ret None else
  let* u := at_ (v_uses o) 0 in
  let bnNode := user u in
  let* bn := getNode bnNode in
  if decide (n_kind bn ≠ onnx_BatchNormalization) then ret None else
  if decide (length (n_outputs conv) ≠ length (n_outputs bn)) then ret None else
  let* epsilon := attr_get_f bn "epsilon" in
  let* convInputVals := getValues oldConv in
  if decide (length convInputVals < 1
             ∨ (length (n_inputs conv) = 3 ∧ length convInputVals ≠ 2))
  then ret None else
  let* bnInputVals := getValues bnNode in
  if decide (length bnInputVals ≠ 4) then ret None else
  let* bnScale := (let* t := at_ bnInputVals 0 in clone t) in
  let* bnB := (let* t := at_ bnInputVals 1 in clone t) in
  let* bnMean := (let* t := at_ bnInputVals 2 in clone t) in
  let* bnVar := (let* t := at_ bnInputVals 3 in clone t) in
  let* convW := (let* t := at_ convInputVals 0 in clone t) in
  let* xScale := impl bnScale in
  let* xB := impl bnB in
  let* xMean := impl bnMean in
  let* xVar := impl bnVar in
  let* xW := impl convW in
  if rejected xScale xB xMean xVar xW then ret None else
  ret (Some (mkCandidate oldConv bnNode epsilon convInputVals
                         bnScale bnB bnMean bnVar convW)).

(** Lines 97-116: the folder.  Returns [convW] and [convB]. *)
Definition foldBatchNorm (c : Candidate) : M (Tensor * Tensor) :=
  let* bnVar := tensor_add_scalar (c_bnVar c) (c_epsilon c) in
  let* bnVar := tensor_sqrt bnVar in
  let* bnScale := tensor_binop s_div (c_bnScale c) bnVar in
  (* Calculate weight *)
  let* w := impl (c_convW c) in
  let* size0 := lift TensorError (t_sizes w !! 0) in
  forM_ (seq 0 size0) (mul_channel_ (c_convW c) bnScale) ;;;
  (* Calculate bias *)
  let* conv := getNode (c_oldConv c) in
  if decide (length (n_inputs conv) = 3) then
    let* convB := (let* t := at_ (c_convInputVals c) 1 in clone t) in
    let* convB := tensor_binop s_sub convB (c_bnMean c) in
    let* convB := tensor_binop s_mul convB bnScale in
    let* convB := tensor_binop s_add convB (c_bnB c) in
    ret (c_convW c, convB)
  else
    let* bnMean := tensor_binop s_mul (c_bnMean c) bnScale in
    let* bnB := tensor_binop s_sub (c_bnB c) bnMean in
    ret (c_convW c, bnB).

(** Lines 118-135: the new node and its inputs. *)
Definition buildNewConv (b : nat) (c : Candidate) (convW convB : Tensor)
    : M (nat * nat * nat) :=
  let* newConv := create onnx_Conv 1 in
  let* nc := getNode newConv in
  let* bn := getNode (c_bnNode c) in
  let* newOut := at_ (n_outputs nc) 0 in
  let* bnOut := at_ (n_outputs bn) 0 in
  copyMetadata newOut bnOut ;;;
  copyAttributes newConv (c_oldConv c) ;;;
  insertBefore newConv (c_bnNode c) ;;;
  let* conv := getNode (c_oldConv c) in
  let* in0 := at_ (n_inputs conv) 0 in
  addInput newConv in0 ;;;
  let* newConvW := graph_addInput in
  let* nameW := debugName newConvW in
  modifyMap (map_insert newConvW (nameW, IVTensor convW)) ;;;
  inferTypeFrom newConvW convW ;;;
  addInput newConv newConvW ;;;
  let* newConvB := block_addInput b in
  let* nameB := debugName newConvB in
  modifyMap (map_insert newConvB (nameB, IVTensor convB)) ;;;
  inferTypeFrom newConvB convB ;;;
  addInput newConv newConvB ;;;
  ret (newConv, newConvW, newConvB).

(** Lines 137-139: redirect the consumers and destroy the two old nodes. *)
Definition commitFusion (b : nat) (c : Candidate) (newConv : nat) : M nat :=
  let* nc := getNode newConv in
  let* bn := getNode (c_bnNode c) in
  let* newOut := at_ (n_outputs nc) 0 in
  let* bnOut := at_ (n_outputs bn) 0 in
  replaceAllUsesWith bnOut newOut ;;;
  destroy (c_bnNode c) ;;;
  destroyCurrent b (c_oldConv c).

(** The body of [if (it->kind() == onnx::Conv)] (lines 50-139). *)
Definition fuseConv (b it : nat) : M Outcome :=
  let* m := matchConvBatchNorm it in
  match m with
  | None => ret Skipped
  | Some c =>
      let* wb := foldBatchNorm c in
      let* new := buildNewConv b c wb.1 wb.2 in
      let* it' := commitFusion b c new.1.1 in
      ret (Fused new.1.1 new.1.2 new.2 it')
  end.

Definition outcome_it (it : nat) (o : Outcome) : nat :=
  match o with
  | Skipped => it
  | Fused _ _ _ it' => it'
  end.

(** [fuseConvBatchNorm] (lines 44-142).  The recursion follows the block
    tree and the node list, both of which the pass mutates, so it is driven
    by fuel; [fuseConvBatchNorm_from] is the loop from iterator [it] on. *)
Fixpoint fuseConvBatchNorm (fuel : nat) (b : nat) : M unit :=
  match fuel with
  | 0 => throw OutOfFuel
  | S fuel' =>
      let* blk := getBlock b in
      let* it := next_in_block b (b_output blk) in
      fuseConvBatchNorm_from fuel' b it
  end
with fuseConvBatchNorm_from (fuel : nat) (b it : nat) : M unit :=
  match fuel with
  | 0 => throw OutOfFuel
  | S fuel' =>
      let* blk := getBlock b in
      if decide (it = b_output blk) then ret tt else
      let* n := getNode it in
      forM_ (n_blocks n) (fuseConvBatchNorm fuel') ;;;
      let* n := getNode it in
      let* it := (if decide (n_kind n = onnx_Conv)
                  then (let* o := fuseConv b it in ret (outcome_it it o))
                  else ret it) in
      let* it := next_in_block b it in
      fuseConvBatchNorm_from fuel' b it
  end.

(** The outputs of the Param node of block [b]: the inputs of the block,
    and of the graph when [b] is the top-level block. *)
Definition block_inputs (g : Graph) (b : nat) : option (list nat) :=
  blk ← g_blocks g !! b; n_outputs <$> g_nodes g !! b_input blk.

(** Modelled from the spec: Value::debugName is not under src/.
    [v->debugName()] as a function of the graph: the name given to the value,
    or else its unique number in decimal. *)
Definition value_name (g : Graph) (v : nat) : option string :=
  x ← g_values g !! v; Some (default (pretty v) (v_name x)).

(** The gated step of [EvalPeepholeONNX] (lines 153-155). *)
Definition peephole (fuel : nat) (b : nat) (isAllowedToAdjustGraphInputs : bool)
    : M unit :=
  if isAllowedToAdjustGraphInputs then fuseConvBatchNorm fuel b else ret tt.

(** Modelled from the spec: buildValueToParamsMap is declared in helper.h,
    which is not under src/.  The specification describes the table as the
    association between the inputs of the graph and named tensors, handed in
    by the caller as a mapping from names to tensors and used by the pass as
    a mapping from values to pairs of a name and a tensor.  The conversion
    visits the inputs of the block in order and gives an entry to every
    input whose debug name is a key of the dictionary ([emplace]: the first
    entry of a value stays). *)
Definition buildValueToParamsMap (g : Graph) (b : nat)
    (paramsDict : gmap string IValue) : gmap nat (string * IValue) :=
  list_to_map
    (omap (λ input, name ← value_name g input;
                    t ← paramsDict !! name;
                    Some (input, (name, t)))
          (default [] (block_inputs g b))).

(** Modelled from the spec: buildParamsMapFromValueToParamsMap is declared
    in helper.h, which is not under src/.  The dictionary is emptied and the
    pair of every entry of the map is inserted ([insert]: the first entry of
    a name stays).  The map is visited in the order of [map_to_list]; the
    order matters only when two entries carry the same name. *)
Definition buildParamsMapFromValueToParamsMap
    (valsToParamsMap : gmap nat (string * IValue))
    (paramsDict : gmap string IValue) : gmap string IValue :=
  list_to_map (snd <$> map_to_list valsToParamsMap).

(** [EvalPeepholeONNX] (lines 144-158).  The graph and the tensors are the
    state the pass runs on; the dictionary is handed in and handed back.
    When the walker throws, the dictionary is not rebuilt. *)
Definition EvalPeepholeONNX (fuel : nat) (b : nat) (paramsDict : gmap string IValue)
    (isAllowedToAdjustGraphInputs : bool) (g : Graph) (h : list TensorImpl)
    : State * gmap string IValue * Res unit :=
  let st := mkState g h (buildValueToParamsMap g b paramsDict) in
  match peephole fuel b isAllowedToAdjustGraphInputs st with
  | (st', Ok _) =>
      (st', buildParamsMapFromValueToParamsMap (valsToParamsMap st') paramsDict, Ok tt)
  | (st', Err e) => (st', paramsDict, Err e)
  end.

End Pass.

(** ** The vocabulary of the statements

    Predicates on states and graphs, the matcher and the formulas of the
    specification, and the shape of the results the theorems assert. *)

Section Vocabulary.
Context `{TensorBackend}.

(** *** Frames *)

(** A predicate on states that a computation maintains, however it ends. *)
Definition stable {A} (P : State → Prop) (m : M A) : Prop :=
  ∀ st, P st → P (m st).1.

(** The conditions under which a predicate on states survives the four
    primitives through which the pass touches the state. *)
Definition survives_graph (P : State → Prop) : Prop :=
  ∀ f, stable P (modifyGraph f).
Definition survives_alloc (P : State → Prop) : Prop :=
  ∀ x, stable P (modifyHeap (λ h, h ++ [x])).
Definition survives_write (P : State → Prop) (w : Tensor) : Prop :=
  ∀ x, stable P (modifyHeap (λ h, <[w := x]> h)).
Definition survives_insert (P : State → Prop) : Prop :=
  ∀ k e, stable P (modifyMap (map_insert k e)).

(** *** The matcher *)

(** The accessor of one input as the specification words it: a value
    defined by a Param placeholder is looked up in the binding table, a value
    defined by a Constant yields the literal attached to that node, any other
    origin yields nothing. *)
Definition resolve (st : State) (val : nat) : option Tensor :=
  v ← g_values (graph st) !! val;
  def ← g_nodes (graph st) !! v_node v;
  if decide (n_kind def = prim_Param) then
    e ← valsToParamsMap st !! val;
    match e.2 with IVTensor t => Some t | IVOther _ => None end
  else if decide (n_kind def = onnx_Constant) then
    match find_attr (n_attrs def) "value" with
    | Some (attr_t t) => Some t
    | _ => None
    end
  else None.

(** An input on which [getValues] does not throw. *)
Definition input_ok (st : State) (val : nat) : Prop :=
  ∃ v def,
    g_values (graph st) !! val = Some v
    ∧ g_nodes (graph st) !! v_node v = Some def
    ∧ (n_kind def = prim_Param →
       ∀ e, valsToParamsMap st !! val = Some e → ∃ t, e.2 = IVTensor t)
    ∧ (n_kind def = onnx_Constant →
       ∃ t, find_attr (n_attrs def) "value" = Some (attr_t t)).

(** What the matcher has read when it accepts a candidate: the two nodes,
    the Conv's first output and its only use, the resolved inputs of the
    normalization, and the contents of the five clones. *)
Record MatchView := mkMatchView {
  mv_conv : Node;
  mv_out0 : nat;
  mv_o : Value;
  mv_u : Use;
  mv_bn : Node;
  mv_bnInputVals : list Tensor;
  mv_xScale : TensorImpl;
  mv_xB : TensorImpl;
  mv_xMean : TensorImpl;
  mv_xVar : TensorImpl;
  mv_xW : TensorImpl
}.

(** The content of an optional handle. *)
Definition read (h : list TensorImpl) (o : option Tensor) : option TensorImpl :=
  t ← o; h !! t.

(** The facts a successful run of lines 50-95 establishes: [c] is the
    candidate returned on node [it] from state [st], leaving [st']. *)
Definition Matched (st : State) (it : nat) (c : Candidate) (st' : State)
    (v : MatchView) : Prop :=
  c_oldConv c = it
  ∧ g_nodes (graph st) !! it = Some (mv_conv v)
  ∧ n_outputs (mv_conv v) !! 0 = Some (mv_out0 v)
  ∧ g_values (graph st) !! mv_out0 v = Some (mv_o v)
  ∧ v_uses (mv_o v) = [mv_u v]
  ∧ c_bnNode c = user (mv_u v)
  ∧ g_nodes (graph st) !! user (mv_u v) = Some (mv_bn v)
  ∧ n_kind (mv_bn v) = onnx_BatchNormalization
  ∧ length (n_outputs (mv_conv v)) = length (n_outputs (mv_bn v))
  ∧ find_attr (n_attrs (mv_bn v)) "epsilon" = Some (attr_f (c_epsilon c))
  ∧ c_convInputVals c = omap (resolve st) (n_inputs (mv_conv v))
  ∧ 1 ≤ length (c_convInputVals c)
  ∧ (length (n_inputs (mv_conv v)) = 3 → length (c_convInputVals c) = 2)
  ∧ mv_bnInputVals v = omap (resolve st) (n_inputs (mv_bn v))
  ∧ length (mv_bnInputVals v) = 4
  ∧ graph st' = graph st
  ∧ valsToParamsMap st' = valsToParamsMap st
  ∧ heap st' = heap st ++ [mv_xScale v; mv_xB v; mv_xMean v; mv_xVar v; mv_xW v]
  ∧ c_bnScale c = length (heap st)
  ∧ c_bnB c = length (heap st) + 1
  ∧ c_bnMean c = length (heap st) + 2
  ∧ c_bnVar c = length (heap st) + 3
  ∧ c_convW c = length (heap st) + 4
  ∧ read (heap st') (mv_bnInputVals v !! 0) = Some (mv_xScale v)
  ∧ read (heap st') (mv_bnInputVals v !! 1) = Some (mv_xB v)
  ∧ read (heap st') (mv_bnInputVals v !! 2) = Some (mv_xMean v)
  ∧ read (heap st') (mv_bnInputVals v !! 3) = Some (mv_xVar v)
  ∧ read (heap st') (c_convInputVals c !! 0) = Some (mv_xW v)
  ∧ rejected (mv_xScale v) (mv_xB v) (mv_xMean v) (mv_xVar v) (mv_xW v) = false.

(** *** The folder *)

(** The state after an allocation at the end of the heap, and after a write
    into the tensor [w]. *)
Definition alloc (z : TensorImpl) (st : State) : State :=
  mkState (graph st) (heap st ++ [z]) (valsToParamsMap st).

Definition store (w : nat) (z : TensorImpl) (st : State) : State :=
  mkState (graph st) (<[w := z]> (heap st)) (valsToParamsMap st).

(** The formulas of the specification: the scale factor
    bnScale / sqrt (bnVar + epsilon), and the new bias
    (oldBias - bnMean) * scaleFactor + bnB, or bnB - bnMean * scaleFactor
    without an old bias. *)
Definition spec_scaleFactor (bnScale bnVar : TensorImpl) (eps : Scalar)
    : option TensorImpl :=
  t_binop s_div bnScale (t_sqrt (t_add_scalar bnVar eps)).

Definition spec_newBias (oldBias : option TensorImpl) (bnB bnMean sf : TensorImpl)
    : option TensorImpl :=
  match oldBias with
  | Some ob =>
      d ← t_binop s_sub ob bnMean; e ← t_binop s_mul d sf; t_binop s_add e bnB
  | None => m ← t_binop s_mul bnMean sf; t_binop s_sub bnB m
  end.

(** What C2 asserts of a run of the folder on candidate [c] from state [st],
    the five clones holding [xScale], [xB], [xMean], [xVar] and [xW] and
    [oldBias] being the second resolved input when the convolution has three
    inputs. *)
Definition FoldResult (c : Candidate) (st : State)
    (xScale xB xMean xVar xW : TensorImpl) (oldBias : option TensorImpl) : Prop :=
  ∃ C sf xW',
    t_sizes xScale = [C]
    ∧ spec_scaleFactor xScale xVar (c_epsilon c) = Some sf
    ∧ (∀ i, i < C →
         nth i (t_data sf) s_zero
         = s_div (nth i (t_data xScale) s_zero)
                 (s_sqrt (s_add (nth i (t_data xVar) s_zero) (c_epsilon c))))
    ∧ heap (foldBatchNorm c st).1 !! c_convW c = Some xW'
    ∧ t_sizes xW' = t_sizes xW ∧ t_dtype xW' = t_dtype xW
    ∧ (∀ i j, i < C → j < numel (tail (t_sizes xW)) →
         nth (i * numel (tail (t_sizes xW)) + j) (t_data xW') s_zero
         = s_mul (nth (i * numel (tail (t_sizes xW)) + j) (t_data xW) s_zero)
                 (nth i (t_data sf) s_zero))
    ∧ match spec_newBias oldBias xB xMean sf with
      | Some nb =>
          ∃ convB, (foldBatchNorm c st).2 = Ok (c_convW c, convB)
                   ∧ heap (foldBatchNorm c st).1 !! convB = Some nb
      | None => (foldBatchNorm c st).2 = Err TensorError
      end
    ∧ (oldBias = None →
       ∃ nb, spec_newBias None xB xMean sf = Some nb ∧ t_sizes nb = [C]
             ∧ ∀ i, i < C →
                 nth i (t_data nb) s_zero
                 = s_sub (nth i (t_data xB) s_zero)
                         (s_mul (nth i (t_data xMean) s_zero)
                                (nth i (t_data sf) s_zero)))
    ∧ (∀ ob, oldBias = Some ob → t_sizes ob = [C] →
       ∃ nb, spec_newBias (Some ob) xB xMean sf = Some nb ∧ t_sizes nb = [C]
             ∧ ∀ i, i < C →
                 nth i (t_data nb) s_zero
                 = s_add (s_mul (s_sub (nth i (t_data ob) s_zero)
                                       (nth i (t_data xMean) s_zero))
                                (nth i (t_data sf) s_zero))
                         (nth i (t_data xB) s_zero)).

(** *** Well-formed graphs *)

(** Every identifier a node, a value or a block mentions is in its store,
    below the graph's counters; a node that is in a block is in that
    block's list. *)
Definition node_closed (g : Graph) (n : nat) (nd : Node) : Prop :=
  n < g_next_node g
  ∧ Forall (λ v, is_Some (g_values g !! v)) (n_inputs nd)
  ∧ Forall (λ v, is_Some (g_values g !! v)) (n_outputs nd)
  ∧ Forall (λ b, is_Some (g_blocks g !! b)) (n_blocks nd)
  ∧ from_option
      (λ b, from_option (λ blk, n ∈ b_nodes blk) False (g_blocks g !! b))
      True (n_owning_block nd).

Definition value_closed (g : Graph) (v : nat) (x : Value) : Prop :=
  v < g_next_unique g
  ∧ is_Some (g_nodes g !! v_node x)
  ∧ Forall (λ u, is_Some (g_nodes g !! user u)) (v_uses x).

Definition block_closed (g : Graph) (b : nat) (blk : Block) : Prop :=
  is_Some (g_nodes g !! b_input blk)
  ∧ is_Some (g_nodes g !! b_output blk)
  ∧ Forall (λ n, is_Some (g_nodes g !! n)) (b_nodes blk)
  ∧ NoDup (b_nodes blk).

Definition graph_closed (g : Graph) : Prop :=
  map_Forall (node_closed g) (g_nodes g)
  ∧ map_Forall (value_closed g) (g_values g)
  ∧ map_Forall (block_closed g) (g_blocks g)
  ∧ is_Some (g_blocks g !! g_block g).

(** Use-list integrity: the use list of every value has no duplicate and
    holds exactly the (node, input position) places where the value is an
    input. *)
Definition is_input (g : Graph) (v : nat) (u : Use) : Prop :=
  (nd ← g_nodes g !! user u; n_inputs nd !! offset u) = Some v.

Definition is_recorded (g : Graph) (v : nat) (u : Use) : Prop :=
  from_option (λ x, u ∈ v_uses x) False (g_values g !! v).

Definition uses_exact (g : Graph) : Prop :=
  map_Forall (λ v x, NoDup (v_uses x) ∧ Forall (is_input g v) (v_uses x))
             (g_values g)
  ∧ map_Forall (λ n nd,
      Forall (λ p, is_recorded g p.2 (mkUse n p.1)) (imap pair (n_inputs nd)))
      (g_nodes g).

Global Instance from_option_dec {A} (P : A → Prop) (Q : Prop) (o : option A) :
  (∀ a, Decision (P a)) → Decision Q → Decision (from_option P Q o).
Proof. intros HP HQ. destruct o; simpl; apply _. Defined.

Global Instance graph_closed_dec g : Decision (graph_closed g).
Proof.
  unfold graph_closed, node_closed, value_closed, block_closed. apply _.
Defined.

Global Instance uses_exact_dec g : Decision (uses_exact g).
Proof. unfold uses_exact, is_input, is_recorded. apply _. Defined.

(** *** The rewriter *)

(** The state after an update of the graph. *)
Definition upd_graph (f : Graph → Graph) (st : State) : State :=
  mkState (f (graph st)) (heap st) (valsToParamsMap st).

(** Use-list integrity on the two projections it depends on: the inputs of
    every node and the use list of every value. *)
Definition recorded_in (U : gmap nat (list Use)) (v : nat) (u : Use) : Prop :=
  ∃ us, U !! v = Some us ∧ u ∈ us.

Definition input_in (I : gmap nat (list nat)) (v : nat) (u : Use) : Prop :=
  ∃ ins, I !! user u = Some ins ∧ ins !! offset u = Some v.

(** Integrity, except for the first [k] input positions of node [n], whose
    uses have already been dropped (the state inside [Node::destroy]). *)
Definition exact_upto (n k : nat) (I : gmap nat (list nat))
    (U : gmap nat (list Use)) : Prop :=
  (∀ v us, U !! v = Some us → NoDup us)
  ∧ (∀ v u, recorded_in U v u ↔ (input_in I v u ∧ ¬ (user u = n ∧ offset u < k))).

Definition exact (I : gmap nat (list nat)) (U : gmap nat (list Use)) : Prop :=
  (∀ v us, U !! v = Some us → NoDup us)
  ∧ (∀ v u, recorded_in U v u ↔ input_in I v u).

(** The two projections of a graph. *)
Definition inputs_of (g : Graph) : gmap nat (list nat) := n_inputs <$> g_nodes g.
Definition uses_of (g : Graph) : gmap nat (list Use) := v_uses <$> g_values g.

(** A node of [g] is still in [g'], with the same kind, inputs, attributes
    and blocks, and possibly more outputs. *)
Definition node_kept (g g' : Graph) : Prop :=
  ∀ n nd, g_nodes g !! n = Some nd →
    ∃ nd', g_nodes g' !! n = Some nd'
      ∧ n_kind nd' = n_kind nd ∧ n_inputs nd' = n_inputs nd
      ∧ n_outputs nd `prefix_of` n_outputs nd'
      ∧ n_attrs nd' = n_attrs nd ∧ n_blocks nd' = n_blocks nd
      ∧ n_owning_block nd' = n_owning_block nd.

(** Two stores that differ at most in the inputs of nodes, or in the use
    lists of values. *)
Definition nodes_but_inputs (N N' : gmap nat Node) : Prop :=
  ∀ n, set_inputs [] <$> N' !! n = set_inputs [] <$> N !! n.

Definition values_but_uses (V V' : gmap nat Value) : Prop :=
  ∀ v, set_uses [] <$> V' !! v = set_uses [] <$> V !! v.

(** What C3 asserts of the state [st'] in which [buildNewConv] leaves the
    graph, [conv] and [bn] being the two matched nodes in the state [st] it
    started from and [bo] the normalization's output value. *)
Definition NewConvBuilt (c : Candidate) (st st' : State)
    (newConv newConvW newConvB : nat) (conv bn : Node) (bo : Value) : Prop :=
  ∃ nc newOut o in0 bnBlock blk blk' l1 l2,
    g_nodes (graph st) !! newConv = None
    ∧ g_nodes (graph st') !! newConv = Some nc
    ∧ n_kind nc = onnx_Conv
    ∧ n_outputs nc = [newOut]
    ∧ n_attrs nc = n_attrs conv
    ∧ g_values (graph st) !! newOut = None
    ∧ g_values (graph st') !! newOut = Some o
    ∧ v_node o = newConv
    ∧ v_type o = v_type bo
    ∧ n_owning_block bn = Some bnBlock
    ∧ n_owning_block nc = Some bnBlock
    ∧ g_blocks (graph st) !! bnBlock = Some blk
    ∧ b_nodes blk = l1 ++ c_bnNode c :: l2
    ∧ g_blocks (graph st') !! bnBlock = Some blk'
    ∧ b_nodes blk' = l1 ++ newConv :: c_bnNode c :: l2
    ∧ n_inputs conv !! 0 = Some in0
    ∧ n_inputs nc = [in0; newConvW; newConvB].

(** What C5 asserts of the state [st'] reached by a fusion started on node
    [it] in state [st]. *)
Definition FusionCommitted (st st' : State) (it newConv : nat) : Prop :=
  ∃ conv out0 o u bn bnOut nc newOut,
    g_nodes (graph st) !! it = Some conv
    ∧ n_outputs conv !! 0 = Some out0
    ∧ g_values (graph st) !! out0 = Some o
    ∧ v_uses o = [u]
    ∧ g_nodes (graph st) !! user u = Some bn
    ∧ n_outputs bn !! 0 = Some bnOut
    ∧ g_nodes (graph st') !! newConv = Some nc
    ∧ n_outputs nc = [newOut]
    ∧ (∀ m i, is_input (graph st) bnOut (mkUse m i) → m ≠ user u → m ≠ it →
         is_input (graph st') newOut (mkUse m i))
    ∧ g_values (graph st') !! bnOut = None
    ∧ g_nodes (graph st') !! user u = None
    ∧ g_nodes (graph st') !! it = None
    ∧ uses_exact (graph st').

(** *** States on which the accessors of the pass do not throw *)

Definition is_attr_f (o : option AttributeValue) : Prop :=
  match o with Some (attr_f _) => True | _ => False end.

Definition is_attr_t (h : list TensorImpl) (o : option AttributeValue) : Prop :=
  match o with Some (attr_t t) => t < length h | _ => False end.

(** A Conv node has an output, a BatchNormalization node carries a float
    [epsilon], a Constant node carries a tensor [value]. *)
Definition typed_node (h : list TensorImpl) (nd : Node) : Prop :=
  (n_kind nd = onnx_Conv → n_outputs nd ≠ [])
  ∧ (n_kind nd = onnx_BatchNormalization →
     is_attr_f (find_attr (n_attrs nd) "epsilon"))
  ∧ (n_kind nd = onnx_Constant → is_attr_t h (find_attr (n_attrs nd) "value")).

(** A bound parameter is a tensor. *)
Definition typed_entry (h : list TensorImpl) (e : string * IValue) : Prop :=
  match e.2 with IVTensor t => t < length h | IVOther _ => False end.

Definition state_typed (st : State) : Prop :=
  map_Forall (λ _, typed_node (heap st)) (g_nodes (graph st))
  ∧ map_Forall (λ _, typed_entry (heap st)) (valsToParamsMap st).

Global Instance is_attr_f_dec o : Decision (is_attr_f o).
Proof. destruct o as [[]|]; simpl; apply _. Defined.

Global Instance is_attr_t_dec h o : Decision (is_attr_t h o).
Proof. destruct o as [[]|]; simpl; apply _. Defined.

Global Instance typed_entry_dec h e : Decision (typed_entry h e).
Proof. unfold typed_entry. destruct (e.2); apply _. Defined.

Global Instance state_typed_dec st : Decision (state_typed st).
Proof. unfold state_typed, typed_node. apply _. Defined.

(** The numeric and shape precondition of the matcher, in the words of the
    specification: the five tensors are floating point; scale, bias, mean
    and variance are 1-dimensional of one common length C; the weight has
    rank greater than 2 and C output channels. *)
Definition numeric_precondition (w s b m v : TensorImpl) : bool :=
  forallb (λ x, isFloatingType (t_dtype x)) [w; s; b; m; v]
  && forallb (λ x, bool_decide (t_dim x = 1)) [s; b; m; v]
  && forallb (λ x, bool_decide (t_sizes x = t_sizes s)) [b; m; v]
  && bool_decide (2 < t_dim w)
  && bool_decide (t_sizes w !! 0 = t_sizes s !! 0).

(** The matcher, in the words of the specification (matcher steps 1 to 6):
    the Conv's output has exactly one consuming use, the consumer is a
    BatchNormalization with the Conv's output arity, at least one input of
    the Conv resolves (exactly two when it has three inputs), exactly four
    inputs of the normalization resolve, and the numeric precondition holds
    of the first resolved Conv input and the four resolved normalization
    inputs. *)
Definition spec_matches (st : State) (it : nat) : bool :=
  match g_nodes (graph st) !! it with
  | None => false
  | Some conv =>
    match out0 ← n_outputs conv !! 0; g_values (graph st) !! out0 with
    | None => false
    | Some o =>
      match v_uses o with
      | [u] =>
        match g_nodes (graph st) !! user u with
        | None => false
        | Some bn =>
          let cv := omap (resolve st) (n_inputs conv) in
          let bv := omap (resolve st) (n_inputs bn) in
          bool_decide (n_kind bn = onnx_BatchNormalization)
          && bool_decide (length (n_outputs conv) = length (n_outputs bn))
          && bool_decide (1 ≤ length cv)
          && bool_decide (length (n_inputs conv) = 3 → length cv = 2)
          && bool_decide (length bv = 4)
          && match read (heap st) (cv !! 0), read (heap st) (bv !! 0),
                   read (heap st) (bv !! 1), read (heap st) (bv !! 2),
                   read (heap st) (bv !! 3) with
             | Some w, Some s, Some b, Some m, Some v =>
                 numeric_precondition w s b m v
             | _, _, _, _, _ => false
             end
        end
      | _ => false
      end
    end
  end.


(** *** The whole traversal, and the registration of the new inputs *)

(** No Conv node of the graph satisfies the matcher. *)
Definition no_match (st : State) : Prop :=
  map_Forall (λ it conv, n_kind conv = onnx_Conv → spec_matches st it = false)
             (g_nodes (graph st)).

Global Instance no_match_dec st : Decision (no_match st).
Proof. unfold no_match. apply _. Defined.

(** The state [s] has the graph and the table of [st], and a heap that
    extends the heap of [st]. *)
Definition extends (st s : State) : Prop :=
  graph s = graph st ∧ valsToParamsMap s = valsToParamsMap st
  ∧ heap st `prefix_of` heap s.

(** The outcomes of a traversal that did not throw: completion, or the
    fuel of the model running out. *)
Definition completes_or_out_of_fuel (r : Res unit) : Prop :=
  r = Ok tt ∨ r = Err OutOfFuel.

(** No node of the list owns a block. *)
Definition leaf_nodes (g : Graph) (l : list nat) : Prop :=
  Forall (λ n, from_option (λ nd, n_blocks nd = []) True (g_nodes g !! n)) l.

Global Instance leaf_nodes_dec g l : Decision (leaf_nodes g l).
Proof. unfold leaf_nodes. apply _. Defined.

(** The keys of the table are values of the graph. *)
Definition table_closed (st : State) : Prop :=
  map_Forall (λ k _, k < g_next_unique (graph st)) (valsToParamsMap st).

Global Instance table_closed_dec st : Decision (table_closed st).
Proof. unfold table_closed. apply _. Defined.

(** What lines 125-135 do for the two new values [newConvW] and
    [newConvB], bound to the tensors [convW] and [convB], when the new node
    is built in block [b] from state [st], leaving [st']. *)
Definition NewInputsRegistered (b : nat) (convW convB : Tensor)
    (st st' : State) (newConvW newConvB : nat) : Prop :=
  ∃ tw tb insR insB,
    heap st !! convW = Some tw ∧ heap st !! convB = Some tb
    ∧ newConvW ≠ newConvB
    ∧ g_values (graph st) !! newConvW = None
    ∧ g_values (graph st) !! newConvB = None
    ∧ v_type <$> g_values (graph st') !! newConvW
      = Some (TensorTypeOf (t_dtype tw) (t_sizes tw))
    ∧ v_type <$> g_values (graph st') !! newConvB
      = Some (TensorTypeOf (t_dtype tb) (t_sizes tb))
    ∧ g_block (graph st') = g_block (graph st)
    ∧ block_inputs (graph st) (g_block (graph st)) = Some insR
    ∧ block_inputs (graph st) b = Some insB
    ∧ (b = g_block (graph st) →
       block_inputs (graph st') b = Some (insR ++ [newConvW; newConvB]))
    ∧ (block_inputs (graph st) b ≠ block_inputs (graph st) (g_block (graph st)) →
       block_inputs (graph st') (g_block (graph st)) = Some (insR ++ [newConvW])
       ∧ block_inputs (graph st') b = Some (insB ++ [newConvB])).

(** *** What a fusion leaves in place *)

(** Two node stores that agree on a node but for its inputs and outputs. *)
Definition same_node_but_io (N N' : gmap nat Node) (n : nat) : Prop :=
  set_inputs [] ∘ set_outputs [] <$> N' !! n
  = set_inputs [] ∘ set_outputs [] <$> N !! n.

(** What a fusion started on the Conv node [it] in state [st] and leaving
    [st'] does to the node store and to the node lists: the two matched
    nodes are gone and [newConv] is new; every other node is where it was,
    with its kind, attributes, nested blocks and owning block (only inputs
    can have been redirected and outputs appended); in the node list of the
    normalization's block [newConv] stands where the normalization stood;
    the old Conv has been erased from the list of its own block; nothing
    else changes in any block. *)
Definition FusionFrameAt (st st' : State) (it newConv : nat)
    (conv : Node) (out0 : nat) (o : Value) (u : Use) (bn : Node)
    (bnBlock : nat) (blk : Block) (la lb : list nat) : Prop :=
    g_nodes (graph st) !! it = Some conv
    ∧ n_outputs conv !! 0 = Some out0
    ∧ g_values (graph st) !! out0 = Some o
    ∧ v_uses o = [u]
    ∧ g_nodes (graph st) !! user u = Some bn
    ∧ g_nodes (graph st) !! newConv = None
    ∧ g_nodes (graph st') !! it = None
    ∧ g_nodes (graph st') !! user u = None
    ∧ (∀ n, n ≠ it → n ≠ user u → n ≠ newConv →
         same_node_but_io (g_nodes (graph st)) (g_nodes (graph st')) n)
    ∧ (∀ n nd nd', n ≠ it → n ≠ user u →
         g_nodes (graph st) !! n = Some nd → g_nodes (graph st') !! n = Some nd' →
         n_outputs nd `prefix_of` n_outputs nd')
    ∧ n_owning_block bn = Some bnBlock
    ∧ g_blocks (graph st) !! bnBlock = Some blk
    ∧ b_nodes blk = la ++ user u :: lb
    ∧ b_nodes <$> g_blocks (graph st') !! bnBlock
      = Some (if decide (n_owning_block conv = Some bnBlock)
              then erase_first it (la ++ newConv :: lb)
              else la ++ newConv :: lb)
    ∧ (∀ k blk_k, k ≠ bnBlock → g_blocks (graph st) !! k = Some blk_k →
         b_nodes <$> g_blocks (graph st') !! k
         = Some (if decide (n_owning_block conv = Some k)
                 then erase_first it (b_nodes blk_k) else b_nodes blk_k))
    ∧ (∀ k, set_b_nodes [] <$> g_blocks (graph st') !! k
            = set_b_nodes [] <$> g_blocks (graph st) !! k).

Definition FusionFrame (st st' : State) (it newConv : nat) : Prop :=
  ∃ conv out0 o u bn bnBlock blk la lb,
    FusionFrameAt st st' it newConv conv out0 o u bn bnBlock blk la lb.

(** Where [destroyCurrent] leaves the iterator: on the node before [it] in
    the list [L] that block [b] has at that moment, or on the sentinel. *)
Definition stepped_back (blk : Block) (L : list nat) (it it' : nat) : Prop :=
  (it = b_output blk ∧ it' = default (b_output blk) (last L))
  ∨ (it ≠ b_output blk ∧ it ∈ L
     ∧ it' = default (b_output blk) (list_before None it L)).

(** *** The caller's dictionary *)

(** The debug names of the inputs of block [b]. *)
Definition input_names (g : Graph) (b : nat) : list string :=
  omap (value_name g) (default [] (block_inputs g b)).

(** A name made of decimal digits only: the form of the debug name of a
    value that was given none. *)
Definition is_digit (a : Ascii.ascii) : bool :=
  bool_decide (String a EmptyString
               ∈ ["0"; "1"; "2"; "3"; "4"; "5"; "6"; "7"; "8"; "9"]%string).

Fixpoint all_digits (s : string) : bool :=
  match s with
  | EmptyString => true
  | String a s' => is_digit a && all_digits s'
  end.

(** No input of block [b] was given a name made of digits only. *)
Definition given_names_ok (g : Graph) (b : nat) : bool :=
  forallb (λ input, match g_values g !! input ≫= v_name with
                    | Some s => negb (all_digits s)
                    | None => true
                    end)
          (default [] (block_inputs g b)).

(** Every entry of [m] is an entry of [m0] or is named by the decimal of its
    key. *)
Definition named_from (m0 m : gmap nat (string * IValue)) : Prop :=
  ∀ k name t, m !! k = Some (name, t) → m0 !! k = Some (name, t) ∨ name = pretty k.

End Vocabulary.

(** ** Concrete scenarios

    A small backend (integer scalars, two dtypes) and concrete graphs on
    which the model is run. *)

Inductive ToyDtype := kFloat | kLong.

Definition toy_backend : TensorBackend := {|
  Scalar := Z;
  ScalarType := ToyDtype;
  isFloatingType := λ d, match d with kFloat => true | kLong => false end;
  result_type := λ a _ b _,
    match a, b with kLong, kLong => kLong | _, _ => kFloat end;
  s_add := Z.add; s_sub := Z.sub; s_mul := Z.mul; s_div := Z.div;
  s_sqrt := Z.sqrt; s_zero := 0%Z
|}.

Section Scenarios.
#[local] Existing Instance toy_backend.

(** One Conv (data [x], weight [w], no bias) feeding one
    BatchNormalization that feeds the graph output.  Values 0..5 are the
    graph inputs x, w, scale, bias, mean, var; 6 is the Conv's output and 7
    the normalization's. *)
Definition g_single : Graph := mkGraph
  (list_to_map [
     (0, mkNode prim_Param [] [0; 1; 2; 3; 4; 5] [] [] None);
     (1, mkNode prim_Return [7] [] [] [] None);
     (2, mkNode onnx_Conv [0; 1] [6] [("group"%string, attr_other "i")] []
                (Some 0));
     (3, mkNode onnx_BatchNormalization [6; 2; 3; 4; 5] [7]
                [("epsilon"%string, attr_f 1%Z)] [] (Some 0))])
  (list_to_map [
     (0, mkValue 0 [mkUse 2 0] TensorTypeAny (Some "x"%string));
     (1, mkValue 0 [mkUse 2 1] TensorTypeAny (Some "w"%string));
     (2, mkValue 0 [mkUse 3 1] TensorTypeAny None);
     (3, mkValue 0 [mkUse 3 2] TensorTypeAny None);
     (4, mkValue 0 [mkUse 3 3] TensorTypeAny None);
     (5, mkValue 0 [mkUse 3 4] TensorTypeAny None);
     (6, mkValue 2 [mkUse 3 0] TensorTypeAny None);
     (7, mkValue 3 [mkUse 1 0] (TensorTypeOf kFloat [1; 2; 4; 4]) None)])
  (list_to_map [(0, mkBlock 0 1 [2; 3] None)])
  0 8 4.

(** Weight of shape [2,1,1], and scale, bias, mean, var of length 2. *)
Definition h_single : list TensorImpl := [
  mkTensorImpl kFloat [2; 1; 1] [3; 5]%Z;
  mkTensorImpl kFloat [2] [4; 6]%Z;
  mkTensorImpl kFloat [2] [1; 1]%Z;
  mkTensorImpl kFloat [2] [1; 2]%Z;
  mkTensorImpl kFloat [2] [3; 8]%Z].

Definition m_single : gmap nat (string * IValue) := list_to_map [
  (1, ("w"%string, IVTensor 0)); (2, ("2"%string, IVTensor 1));
  (3, ("3"%string, IVTensor 2)); (4, ("4"%string, IVTensor 3));
  (5, ("5"%string, IVTensor 4))].

Definition st_single : State := mkState g_single h_single m_single.

(** The candidate the matcher builds on [st_single], and the state it
    leaves (the five clones at handles 5..9). *)
Definition c_single : Candidate := mkCandidate 2 3 1%Z [0] 5 6 7 8 9.

Definition st_single_matched : State :=
  mkState g_single
    (h_single ++ [mkTensorImpl kFloat [2] [4; 6]%Z;
                  mkTensorImpl kFloat [2] [1; 1]%Z;
                  mkTensorImpl kFloat [2] [1; 2]%Z;
                  mkTensorImpl kFloat [2] [3; 8]%Z;
                  mkTensorImpl kFloat [2; 1; 1] [3; 5]%Z])
    m_single.

(** The state after the folder has run on [st_single_matched], and the one
    after the new node has been built. *)
Definition st_single_folded : State := (foldBatchNorm c_single st_single_matched).1.

Definition st_single_built : State :=
  (buildNewConv 0 c_single 9 14 st_single_folded).1.

(** The state after the whole fusion of node 2. *)
Definition st_single_fused : State := (fuseConv 0 2 st_single).1.

(** *** Candidates that do not match *)

Definition conv_single : Node :=
  mkNode onnx_Conv [0; 1] [6] [("group"%string, attr_other "i")] [] (Some 0).

(** [st_single] with the weight left unbound. *)
Definition st_unresolved : State :=
  mkState g_single h_single (delete 1 m_single).

(** [st_single] with an integer weight. *)
Definition st_long : State :=
  mkState g_single (<[0 := mkTensorImpl kLong [2; 1; 1] [3; 5]%Z]> h_single)
          m_single.

(** [st_unresolved] with a normalization node that carries no [epsilon]. *)
Definition g_noeps : Graph :=
  set_nodes (<[3 := mkNode onnx_BatchNormalization [6; 2; 3; 4; 5] [7] [] []
                           (Some 0)]>) g_single.

Definition st_noeps : State := mkState g_noeps h_single (delete 1 m_single).

Definition eps1 : list (string * AttributeValue) :=
  [("epsilon"%string, attr_f 1%Z)].

(** Two Conv, BatchNormalization pairs in a row.  Values 0..6 are the graph
    inputs x, w, scale, bias, mean, var and w2. *)
Definition g_two : Graph := mkGraph
  (list_to_map [
     (0, mkNode prim_Param [] [0; 1; 2; 3; 4; 5; 6] [] [] None);
     (1, mkNode prim_Return [10] [] [] [] None);
     (2, mkNode onnx_Conv [0; 1] [7] [] [] (Some 0));
     (3, mkNode onnx_BatchNormalization [7; 2; 3; 4; 5] [8] eps1 [] (Some 0));
     (4, mkNode onnx_Conv [8; 6] [9] [] [] (Some 0));
     (5, mkNode onnx_BatchNormalization [9; 2; 3; 4; 5] [10] eps1 []
                (Some 0))])
  (list_to_map [
     (0, mkValue 0 [mkUse 2 0] TensorTypeAny None);
     (1, mkValue 0 [mkUse 2 1] TensorTypeAny None);
     (2, mkValue 0 [mkUse 3 1; mkUse 5 1] TensorTypeAny None);
     (3, mkValue 0 [mkUse 3 2; mkUse 5 2] TensorTypeAny None);
     (4, mkValue 0 [mkUse 3 3; mkUse 5 3] TensorTypeAny None);
     (5, mkValue 0 [mkUse 3 4; mkUse 5 4] TensorTypeAny None);
     (6, mkValue 0 [mkUse 4 1] TensorTypeAny None);
     (7, mkValue 2 [mkUse 3 0] TensorTypeAny None);
     (8, mkValue 3 [mkUse 4 0] TensorTypeAny None);
     (9, mkValue 4 [mkUse 5 0] TensorTypeAny None);
     (10, mkValue 5 [mkUse 1 0] TensorTypeAny None)])
  (list_to_map [(0, mkBlock 0 1 [2; 3; 4; 5] None)])
  0 11 6.

(** The first weight is bound to a value that is not a tensor. *)
Definition st_two : State :=
  mkState g_two h_single
    (list_to_map [
       (1, ("w"%string, IVOther "packed")); (2, ("2"%string, IVTensor 1));
       (3, ("3"%string, IVTensor 2)); (4, ("4"%string, IVTensor 3));
       (5, ("5"%string, IVTensor 4)); (6, ("w2"%string, IVTensor 0))]).

(** *** A fusion inside a nested block

    Node 2 of the top-level block owns block 1, whose Param node is 3 and
    whose Return node is 4; the Conv (5) and the normalization (6) are in
    block 1 and read the graph inputs 1..5. *)
Definition g_nested : Graph := mkGraph
  (list_to_map [
     (0, mkNode prim_Param [] [0; 1; 2; 3; 4; 5] [] [] None);
     (1, mkNode prim_Return [8] [] [] [] None);
     (2, mkNode (other_op "prim::Loop") [0] [8] [] [1] (Some 0));
     (3, mkNode prim_Param [] [6] [] [] None);
     (4, mkNode prim_Return [9] [] [] [] None);
     (5, mkNode onnx_Conv [6; 1] [7] [] [] (Some 1));
     (6, mkNode onnx_BatchNormalization [7; 2; 3; 4; 5] [9] eps1 [] (Some 1))])
  (list_to_map [
     (0, mkValue 0 [mkUse 2 0] TensorTypeAny None);
     (1, mkValue 0 [mkUse 5 1] TensorTypeAny None);
     (2, mkValue 0 [mkUse 6 1] TensorTypeAny None);
     (3, mkValue 0 [mkUse 6 2] TensorTypeAny None);
     (4, mkValue 0 [mkUse 6 3] TensorTypeAny None);
     (5, mkValue 0 [mkUse 6 4] TensorTypeAny None);
     (6, mkValue 3 [mkUse 5 0] TensorTypeAny None);
     (7, mkValue 5 [mkUse 6 0] TensorTypeAny None);
     (8, mkValue 2 [mkUse 1 0] TensorTypeAny None);
     (9, mkValue 6 [mkUse 4 0] TensorTypeAny None)])
  (list_to_map [(0, mkBlock 0 1 [2] None); (1, mkBlock 3 4 [5; 6] (Some 2))])
  0 10 7.

Definition st_nested : State := mkState g_nested h_single m_single.

(** *** A Conv whose data input is static

    [g_chain]: Conv 2 (data 0, weight 1) feeds the normalization 3, whose
    output 8 is read by the normalization 4 and, as the weight, by Conv 5,
    whose data input is the bound graph input 6; Conv 5 feeds the
    normalization 6. *)
Definition g_chain : Graph := mkGraph
  (list_to_map [
     (0, mkNode prim_Param [] [0; 1; 2; 3; 4; 5; 6] [] [] None);
     (1, mkNode prim_Return [9; 11] [] [] [] None);
     (2, mkNode onnx_Conv [0; 1] [7] [] [] (Some 0));
     (3, mkNode onnx_BatchNormalization [7; 2; 3; 4; 5] [8] eps1 [] (Some 0));
     (4, mkNode onnx_BatchNormalization [8; 2; 3; 4; 5] [9] eps1 [] (Some 0));
     (5, mkNode onnx_Conv [6; 8] [10] [] [] (Some 0));
     (6, mkNode onnx_BatchNormalization [10; 2; 3; 4; 5] [11] eps1 []
                (Some 0))])
  (list_to_map [
     (0, mkValue 0 [mkUse 2 0] TensorTypeAny None);
     (1, mkValue 0 [mkUse 2 1] TensorTypeAny None);
     (2, mkValue 0 [mkUse 3 1; mkUse 4 1; mkUse 6 1] TensorTypeAny None);
     (3, mkValue 0 [mkUse 3 2; mkUse 4 2; mkUse 6 2] TensorTypeAny None);
     (4, mkValue 0 [mkUse 3 3; mkUse 4 3; mkUse 6 3] TensorTypeAny None);
     (5, mkValue 0 [mkUse 3 4; mkUse 4 4; mkUse 6 4] TensorTypeAny None);
     (6, mkValue 0 [mkUse 5 0] TensorTypeAny None);
     (7, mkValue 2 [mkUse 3 0] TensorTypeAny None);
     (8, mkValue 3 [mkUse 4 0; mkUse 5 1] TensorTypeAny None);
     (9, mkValue 4 [mkUse 1 0] TensorTypeAny None);
     (10, mkValue 5 [mkUse 6 0] TensorTypeAny None);
     (11, mkValue 6 [mkUse 1 1] TensorTypeAny None)])
  (list_to_map [(0, mkBlock 0 1 [2; 3; 4; 5; 6] None)])
  0 12 7.

Definition m_chain : gmap nat (string * IValue) := list_to_map [
  (1, ("w"%string, IVTensor 0)); (2, ("2"%string, IVTensor 1));
  (3, ("3"%string, IVTensor 2)); (4, ("4"%string, IVTensor 3));
  (5, ("5"%string, IVTensor 4)); (6, ("k"%string, IVTensor 5))].

(** The heap of [st_single] and the tensor bound to the data input 6. *)
Definition h_chain : list TensorImpl :=
  h_single ++ [mkTensorImpl kFloat [2; 1; 1] [7; 9]%Z].

Definition st_chain : State := mkState g_chain h_chain m_chain.

(** The state the matcher leaves on Conv 5 of [st_chain], and its
    candidate: the only resolved input is the data input. *)
Definition c_chain : Candidate := mkCandidate 5 6 1%Z [5] 6 7 8 9 10.

Definition st_chain_matched : State := (matchConvBatchNorm 5 st_chain).1.

Definition st_chain_once : State := (peephole 20 0 true st_chain).1.

Definition st_chain_twice : State := (peephole 20 0 true st_chain_once).1.

(** *** A Conv whose output is read twice

    [g_single] with the Conv's output also returned by the graph, a
    normalization without [epsilon] and a weight bound to a value that is
    not a tensor. *)
Definition g_fanout : Graph := mkGraph
  (list_to_map [
     (0, mkNode prim_Param [] [0; 1; 2; 3; 4; 5] [] [] None);
     (1, mkNode prim_Return [7; 6] [] [] [] None);
     (2, mkNode onnx_Conv [0; 1] [6] [] [] (Some 0));
     (3, mkNode onnx_BatchNormalization [6; 2; 3; 4; 5] [7] [] [] (Some 0))])
  (list_to_map [
     (0, mkValue 0 [mkUse 2 0] TensorTypeAny None);
     (1, mkValue 0 [mkUse 2 1] TensorTypeAny None);
     (2, mkValue 0 [mkUse 3 1] TensorTypeAny None);
     (3, mkValue 0 [mkUse 3 2] TensorTypeAny None);
     (4, mkValue 0 [mkUse 3 3] TensorTypeAny None);
     (5, mkValue 0 [mkUse 3 4] TensorTypeAny None);
     (6, mkValue 2 [mkUse 3 0; mkUse 1 1] TensorTypeAny None);
     (7, mkValue 3 [mkUse 1 0] TensorTypeAny None)])
  (list_to_map [(0, mkBlock 0 1 [2; 3] None)])
  0 8 4.

Definition st_fanout : State :=
  mkState g_fanout h_single (<[1 := ("w"%string, IVOther "packed")]> m_single).

(** *** A Conv whose data input is bound

    Conv 2 reads the graph inputs 0 (data), 1 (weight) and 6 (bias); the data
    and the weight are bound to tensors, the bias is not. *)
Definition g_static : Graph := mkGraph
  (list_to_map [
     (0, mkNode prim_Param [] [0; 1; 2; 3; 4; 5; 6] [] [] None);
     (1, mkNode prim_Return [8] [] [] [] None);
     (2, mkNode onnx_Conv [0; 1; 6] [7] [] [] (Some 0));
     (3, mkNode onnx_BatchNormalization [7; 2; 3; 4; 5] [8] eps1 [] (Some 0))])
  (list_to_map [
     (0, mkValue 0 [mkUse 2 0] TensorTypeAny (Some "x"%string));
     (1, mkValue 0 [mkUse 2 1] TensorTypeAny (Some "w"%string));
     (2, mkValue 0 [mkUse 3 1] TensorTypeAny None);
     (3, mkValue 0 [mkUse 3 2] TensorTypeAny None);
     (4, mkValue 0 [mkUse 3 3] TensorTypeAny None);
     (5, mkValue 0 [mkUse 3 4] TensorTypeAny None);
     (6, mkValue 0 [mkUse 2 2] TensorTypeAny (Some "b"%string));
     (7, mkValue 2 [mkUse 3 0] TensorTypeAny None);
     (8, mkValue 3 [mkUse 1 0] TensorTypeAny None)])
  (list_to_map [(0, mkBlock 0 1 [2; 3] None)])
  0 9 4.

Definition st_static : State :=
  mkState g_static h_chain (<[0 := ("x"%string, IVTensor 5)]> m_single).



Definition st_static_fused : State := (fuseConv 0 2 st_static).1.

(** *** A dictionary of the caller

    The parameters of [g_single] under their debug names, and one tensor
    under a name that no input of the graph carries. *)
Definition dict_single : gmap string IValue := list_to_map [
  ("w"%string, IVTensor 0); ("2"%string, IVTensor 1); ("3"%string, IVTensor 2);
  ("4"%string, IVTensor 3); ("5"%string, IVTensor 4);
  ("unused"%string, IVTensor 0)].

(** [g_single] with the weight input given the name [9], the decimal of the
    unique number that the fusion of Conv 2 gives to the new weight value,
    and the dictionary that binds the weight under that name. *)
Definition g_digits : Graph :=
  set_values (<[1 := mkValue 0 [mkUse 2 1] TensorTypeAny (Some "9"%string)]>)
             g_single.

Definition dict_digits : gmap string IValue := list_to_map [
  ("9"%string, IVTensor 0); ("2"%string, IVTensor 1); ("3"%string, IVTensor 2);
  ("4"%string, IVTensor 3); ("5"%string, IVTensor 4)].

End Scenarios.

(** ** Reasoning about computations *)

Section Reasoning.
Context `{TensorBackend}.

Lemma bind_ok {A B} (m : M A) (k : A → M B) st st' b :
  bind m k st = (st', Ok b) →
  ∃ a st1, m st = (st1, Ok a) ∧ k a st1 = (st', Ok b).
Proof.
  unfold bind. destruct (m st) as [st1 [a|e]]; [eauto | discriminate].
Qed.

Lemma bind_run {A B} (m : M A) (k : A → M B) st st1 a :
  m st = (st1, Ok a) → bind m k st = k a st1.
Proof. unfold bind. by intros ->. Qed.

Lemma bind_fail {A B} (m : M A) (k : A → M B) st st1 e :
  m st = (st1, Err e) → bind m k st = (st1, Err e).
Proof. unfold bind. by intros ->. Qed.

Lemma lift_ok {A} e (o : option A) st st' a :
  lift e o st = (st', Ok a) → st' = st ∧ o = Some a.
Proof. destruct o; cbv; intros; simplify_eq; auto. Qed.

Lemma stable_ret {A} P (a : A) : stable P (ret a).
Proof. by intros st. Qed.

Lemma stable_throw {A} P e : stable P (@throw _ A e).
Proof. by intros st. Qed.

Lemma stable_lift {A} P e (o : option A) : stable P (lift e o).
Proof. destruct o; by intros st. Qed.

Lemma stable_bind {A B} P (m : M A) (k : A → M B) :
  stable P m → (∀ a, stable P (k a)) → stable P (bind m k).
Proof.
  intros Hm Hk st HP. unfold bind. specialize (Hm st HP).
  destruct (m st) as [st1 [a|e]]; simpl in *; [by apply Hk | done].
Qed.

Lemma stable_forM_ {A} P (l : list A) (f : A → M unit) :
  (∀ a, stable P (f a)) → stable P (forM_ l f).
Proof.
  intros Hf. induction l as [|x l IH]; simpl.
  - apply stable_ret.
  - apply stable_bind; auto.
Qed.

Lemma stable_getGraph P : stable P getGraph.
Proof. by intros st. Qed.
Lemma stable_getMap P : stable P getMap.
Proof. by intros st. Qed.
Lemma stable_getHeap P : stable P getHeap.
Proof. by intros st. Qed.

End Reasoning.

Create HintDb stable discriminated.
#[export] Hint Resolve stable_ret stable_throw stable_lift stable_getGraph
  stable_getMap stable_getHeap : stable.

Ltac head_of t :=
  lazymatch t with
  | ?f _ => head_of f
  | _ => t
  end.

(** Decompose a [stable] goal along the structure of the computation;
    operations that are not in the hint database are unfolded. *)
Ltac stable_step :=
  lazymatch goal with
  | |- stable _ (bind _ _) => apply stable_bind; [| intros ?]
  | |- stable _ (forM_ _ _) => apply stable_forM_; intros ?
  | |- stable _ (match ?x with _ => _ end) => destruct x
  | |- stable _ (let _ := _ in _) => cbv zeta
  | |- stable _ ?m =>
      first [ solve [eauto with stable]
            | let h := head_of m in unfold h ]
  end.

Ltac solve_stable := repeat stable_step.

(** ** Frame lemmas

    The pass touches the three components of the state through few
    primitives: any update of the graph, an allocation at the end of the
    heap, a write into one tensor of the heap (the channel loop), and
    [std::map::insert].  A predicate that survives the primitives an
    operation uses survives the operation. *)

Section Frames.
Context `{TensorBackend}.
Variable P : State → Prop.

Lemma stable_getValues_loop vals acc : stable P (getValues_loop vals acc).
Proof.
  revert acc. induction vals as [|val rest IH]; intros acc; simpl.
  - apply stable_ret.
  - solve_stable.
Qed.

Lemma stable_getValues node : stable P (getValues node).
Proof. unfold getValues. solve_stable. apply stable_getValues_loop. Qed.

Lemma stable_new_tensor x : survives_alloc P → stable P (new_tensor x).
Proof. intros HA. unfold new_tensor. solve_stable. Qed.

Lemma stable_clone t : survives_alloc P → stable P (clone t).
Proof. intros HA. unfold clone. pose proof stable_new_tensor. solve_stable. Qed.

Lemma stable_matchConvBatchNorm it :
  survives_alloc P → stable P (matchConvBatchNorm it).
Proof.
  intros HA. unfold matchConvBatchNorm.
  pose proof stable_getValues. pose proof (λ t, stable_clone t HA).
  solve_stable.
Qed.

Lemma stable_mul_channel_ w s i : survives_write P w → stable P (mul_channel_ w s i).
Proof. intros HW. unfold mul_channel_. solve_stable. Qed.

Lemma stable_foldBatchNorm c :
  survives_alloc P → survives_write P (c_convW c) → stable P (foldBatchNorm c).
Proof.
  intros HA HW. unfold foldBatchNorm.
  pose proof (λ x, stable_new_tensor x HA). pose proof (λ t, stable_clone t HA).
  pose proof (λ s i, stable_mul_channel_ _ s i HW).
  solve_stable.
Qed.

Lemma stable_buildNewConv b c convW convB :
  survives_graph P → survives_insert P → stable P (buildNewConv b c convW convB).
Proof.
  intros HG HM. unfold buildNewConv.
  pose proof HG. pose proof HM. unfold survives_graph, survives_insert in *.
  solve_stable.
Qed.

Lemma stable_commitFusion b c newConv :
  survives_graph P → stable P (commitFusion b c newConv).
Proof.
  intros HG. unfold commitFusion. unfold survives_graph in *. solve_stable.
Qed.

End Frames.

(** ** Inversion of successful runs *)

Section Inversion.
Context `{TensorBackend}.

Lemma ret_ok {A} (a b : A) st st' : ret a st = (st', Ok b) → st' = st ∧ b = a.
Proof. cbv. intros; by simplify_eq. Qed.

Lemma throw_ok {A} e (b : A) st st' : throw e st = (st', Ok b) → False.
Proof. cbv. discriminate. Qed.

Lemma getGraph_ok g st st' : getGraph st = (st', Ok g) → st' = st ∧ g = graph st.
Proof. cbv. intros; by simplify_eq. Qed.

Lemma getMap_ok m st st' :
  getMap st = (st', Ok m) → st' = st ∧ m = valsToParamsMap st.
Proof. cbv. intros; by simplify_eq. Qed.

Lemma getHeap_ok h st st' : getHeap st = (st', Ok h) → st' = st ∧ h = heap st.
Proof. cbv. intros; by simplify_eq. Qed.

Lemma modifyGraph_ok f u st st' :
  modifyGraph f st = (st', Ok u) →
  st' = mkState (f (graph st)) (heap st) (valsToParamsMap st).
Proof. cbv. intros; by simplify_eq. Qed.

Lemma modifyMap_ok f u st st' :
  modifyMap f st = (st', Ok u) →
  st' = mkState (graph st) (heap st) (f (valsToParamsMap st)).
Proof. cbv. intros; by simplify_eq. Qed.

Lemma modifyHeap_ok f u st st' :
  modifyHeap f st = (st', Ok u) →
  st' = mkState (graph st) (f (heap st)) (valsToParamsMap st).
Proof. cbv. intros; by simplify_eq. Qed.

End Inversion.

(** One step of inversion of a hypothesis [m st = (st', Ok a)]. *)
Ltac inv_run_step :=
  match goal with
  | H : bind _ _ _ = (_, Ok _) |- _ =>
      let a := fresh "a" in let s := fresh "st" in let Ha := fresh "Hrun" in
      apply bind_ok in H as (a & s & Ha & H)
  | H : ret _ _ = (_, Ok _) |- _ => apply ret_ok in H as [? ?]
  | H : throw _ _ = (_, Ok _) |- _ => by apply throw_ok in H
  | H : lift _ _ _ = (_, Ok _) |- _ => apply lift_ok in H as [? ?]
  | H : getGraph _ = (_, Ok _) |- _ => apply getGraph_ok in H as [? ?]
  | H : getMap _ = (_, Ok _) |- _ => apply getMap_ok in H as [? ?]
  | H : getHeap _ = (_, Ok _) |- _ => apply getHeap_ok in H as [? ?]
  | H : modifyGraph _ _ = (_, Ok _) |- _ => apply modifyGraph_ok in H
  | H : modifyMap _ _ = (_, Ok _) |- _ => apply modifyMap_ok in H
  | H : modifyHeap _ _ = (_, Ok _) |- _ => apply modifyHeap_ok in H
  | H : (match ?x with _ => _ end) _ = (_, Ok _) |- _ => destruct x eqn:?
  | H : (let _ := _ in _) _ = (_, Ok _) |- _ => cbv zeta in H
  end.

Ltac inv_run := repeat (inv_run_step; subst); simplify_eq/=.

(** ** The tensor accessor *)

Section Accessor.
Context `{TensorBackend}.

Lemma getValues_loop_ok vals acc st st' l :
  getValues_loop vals acc st = (st', Ok l) →
  st' = st ∧ l = acc ++ omap (resolve st) vals.
Proof.
  revert acc. induction vals as [|val rest IH]; intros acc Hr; simpl in Hr.
  - inv_run. by rewrite app_nil_r.
  - unfold getValue, getNode, getGraph, getMap, attr_get_t, toTensor,
      bind, lift, ret, throw in Hr.
    simpl. unfold resolve at 1.
    destruct (g_values (graph st) !! val) as [v|]; simpl in *; [|discriminate].
    destruct (g_nodes (graph st) !! v_node v) as [def|]; simpl in *;
      [|discriminate].
    destruct (decide (n_kind def = prim_Param)).
    { destruct (valsToParamsMap st !! val) as [[name [t|tag]]|]; simpl in *;
        [| discriminate |]; apply IH in Hr as [-> ->];
        by rewrite <- ?app_assoc. }
    destruct (decide (n_kind def = onnx_Constant)).
    { destruct (find_attr (n_attrs def) "value") as [[x|t|k]|]; simpl in *;
        try discriminate; apply IH in Hr as [-> ->];
        by rewrite <- ?app_assoc. }
    by apply IH in Hr as [-> ->].
Qed.

Lemma getValues_loop_total vals acc st :
  Forall (input_ok st) vals →
  getValues_loop vals acc st = (st, Ok (acc ++ omap (resolve st) vals)).
Proof.
  intros Hok. revert acc. induction Hok as [|val rest Hval _ IH]; intros acc; simpl.
  - by rewrite app_nil_r.
  - destruct Hval as (v & def & Hv & Hdef & HP & HC).
    unfold getValue, getNode, getGraph, getMap, attr_get_t, toTensor,
      bind, lift, ret, throw.
    unfold resolve at 1. rewrite Hv. simpl. rewrite Hdef. simpl.
    destruct (decide (n_kind def = prim_Param)) as [HkP|HkP].
    { destruct (valsToParamsMap st !! val) as [e|] eqn:He; simpl; [|apply IH].
      destruct (HP HkP e eq_refl) as [t Ht]. rewrite Ht. simpl.
      rewrite IH. by rewrite <- app_assoc. }
    destruct (decide (n_kind def = onnx_Constant)) as [HkC|HkC]; [|apply IH].
    destruct (HC HkC) as [t Ht]. rewrite Ht. simpl.
    rewrite IH. by rewrite <- app_assoc.
Qed.

Lemma getValues_ok node st st' l :
  getValues node st = (st', Ok l) →
  st' = st ∧ ∃ nd, g_nodes (graph st) !! node = Some nd
                   ∧ l = omap (resolve st) (n_inputs nd).
Proof.
  unfold getValues, getNode. intros Hr. inv_run.
  apply getValues_loop_ok in Hr as [-> ->]. eauto.
Qed.

End Accessor.

(** ** What a successful match establishes *)

Section Matcher.
Context `{TensorBackend}.

Lemma clone_ok t t' st st' :
  clone t st = (st', Ok t') →
  ∃ x, heap st !! t = Some x
       ∧ st' = mkState (graph st) (heap st ++ [x]) (valsToParamsMap st)
       ∧ t' = length (heap st).
Proof. unfold clone, impl, new_tensor. intros Hr. inv_run. eauto. Qed.

Lemma at_clone_ok l i t' st st' :
  (let* t := at_ l i in clone t) st = (st', Ok t') →
  ∃ x, read (heap st) (l !! i) = Some x
       ∧ st' = mkState (graph st) (heap st ++ [x]) (valsToParamsMap st)
       ∧ t' = length (heap st).
Proof.
  unfold at_. intros Hr. inv_run.
  apply clone_ok in Hr as (x & Hx & -> & ->).
  exists x. unfold read. by simplify_option_eq.
Qed.

Lemma read_app h l o x : read h o = Some x → read (h ++ l) o = Some x.
Proof.
  unfold read. destruct o as [t|]; simpl; [|done].
  apply lookup_app_l_Some.
Qed.

Lemma impl_ok t x st st' :
  impl t st = (st', Ok x) → st' = st ∧ heap st !! t = Some x.
Proof. unfold impl. intros Hr. by inv_run. Qed.

Lemma getNode_ok n nd st st' :
  getNode n st = (st', Ok nd) → st' = st ∧ g_nodes (graph st) !! n = Some nd.
Proof. unfold getNode. intros Hr. by inv_run. Qed.

Lemma getValue_ok v x st st' :
  getValue v st = (st', Ok x) → st' = st ∧ g_values (graph st) !! v = Some x.
Proof. unfold getValue. intros Hr. by inv_run. Qed.

Lemma getBlock_ok b x st st' :
  getBlock b st = (st', Ok x) → st' = st ∧ g_blocks (graph st) !! b = Some x.
Proof. unfold getBlock. intros Hr. by inv_run. Qed.

Lemma at_ok {A} (l : list A) i a st st' :
  at_ l i st = (st', Ok a) → st' = st ∧ l !! i = Some a.
Proof. unfold at_. intros Hr. by inv_run. Qed.

Lemma attr_get_f_ok nd name x st st' :
  attr_get_f nd name st = (st', Ok x) →
  st' = st ∧ find_attr (n_attrs nd) name = Some (attr_f x).
Proof. unfold attr_get_f. intros Hr. by inv_run. Qed.

Lemma matchConvBatchNorm_Some it c st st' :
  matchConvBatchNorm it st = (st', Ok (Some c)) → ∃ v, Matched st it c st' v.
Proof.
  unfold matchConvBatchNorm. intros Hr.
  apply bind_ok in Hr as (conv & st1 & Hconv & Hr).
  apply getNode_ok in Hconv as [-> Hconv].
  apply bind_ok in Hr as (out0 & st1 & Hout & Hr).
  apply at_ok in Hout as [-> Hout].
  apply bind_ok in Hr as (o & st1 & Ho & Hr).
  apply getValue_ok in Ho as [-> Ho].
  destruct (decide (length (v_uses o) ≠ 1)) as [|Hlen];
    [by apply ret_ok in Hr as [_ ?]|].
  apply bind_ok in Hr as (u & st1 & Hu & Hr).
  apply at_ok in Hu as [-> Hu].
  apply bind_ok in Hr as (bn & st1 & Hbn & Hr).
  apply getNode_ok in Hbn as [-> Hbn].
  destruct (decide (n_kind bn ≠ onnx_BatchNormalization)) as [|Hk];
    [by apply ret_ok in Hr as [_ ?]|].
  destruct (decide (length (n_outputs conv) ≠ length (n_outputs bn))) as [|Har];
    [by apply ret_ok in Hr as [_ ?]|].
  apply bind_ok in Hr as (eps & st1 & Heps & Hr).
  apply attr_get_f_ok in Heps as [-> Heps].
  apply bind_ok in Hr as (cv & st1 & Hcv & Hr).
  apply getValues_ok in Hcv as (-> & conv' & Hconv' & ->).
  destruct (decide _) as [|Hcnt]; [by apply ret_ok in Hr as [_ ?]|].
  apply bind_ok in Hr as (bv & st1 & Hbv & Hr).
  apply getValues_ok in Hbv as (-> & bn' & Hbn' & ->).
  destruct (decide _) as [|Hbcnt]; [by apply ret_ok in Hr as [_ ?]|].
  simplify_eq.
  apply bind_ok in Hr as (t1 & st1 & Hc1 & Hr).
  apply at_clone_ok in Hc1 as (x1 & Hx1 & -> & ->).
  apply bind_ok in Hr as (t2 & st2 & Hc2 & Hr).
  apply at_clone_ok in Hc2 as (x2 & Hx2 & -> & ->).
  apply bind_ok in Hr as (t3 & st3 & Hc3 & Hr).
  apply at_clone_ok in Hc3 as (x3 & Hx3 & -> & ->).
  apply bind_ok in Hr as (t4 & st4 & Hc4 & Hr).
  apply at_clone_ok in Hc4 as (x4 & Hx4 & -> & ->).
  apply bind_ok in Hr as (t5 & st5 & Hc5 & Hr).
  apply at_clone_ok in Hc5 as (x5 & Hx5 & -> & ->).
  simpl in *.
  apply bind_ok in Hr as (y1 & ? & Hi1 & Hr). apply impl_ok in Hi1 as [-> Hi1].
  apply bind_ok in Hr as (y2 & ? & Hi2 & Hr). apply impl_ok in Hi2 as [-> Hi2].
  apply bind_ok in Hr as (y3 & ? & Hi3 & Hr). apply impl_ok in Hi3 as [-> Hi3].
  apply bind_ok in Hr as (y4 & ? & Hi4 & Hr). apply impl_ok in Hi4 as [-> Hi4].
  apply bind_ok in Hr as (y5 & ? & Hi5 & Hr). apply impl_ok in Hi5 as [-> Hi5].
  destruct (rejected _ _ _ _ _) eqn:Hrej; [by apply ret_ok in Hr as [_ ?]|].
  apply ret_ok in Hr as [-> Hc]. simplify_eq. simpl in *.
  rewrite <- !app_assoc in *. simpl in *.
  assert (∀ (l : list TensorImpl) k, (heap st ++ l) !! (length (heap st) + k) = l !! k)
    as Hlk.
  { intros l k. rewrite lookup_app_r by lia. f_equal. lia. }
  rewrite <- (Nat.add_0_r (length (heap st))) in Hi1. rewrite Hlk in Hi1.
  rewrite !length_app in Hi2, Hi3, Hi4, Hi5. simpl in *.
  rewrite Hlk in Hi2. rewrite Hlk in Hi3. rewrite Hlk in Hi4. rewrite Hlk in Hi5.
  simpl in *. simplify_eq.
  exists (mkMatchView conv out0 o u bn (omap (resolve st) (n_inputs bn))
                      y1 y2 y3 y4 y5).
  unfold Matched. simpl.
  assert (v_uses o = [u]) as Huses.
  { assert (length (v_uses o) = 1) as Hl1 by lia.
    destruct (v_uses o) as [|u' [|]]; simpl in *; try discriminate.
    by simplify_eq. }
  rewrite !length_app. simpl.
  repeat split; try done; try lia.
  - by destruct (decide (n_kind bn = onnx_BatchNormalization)).
  - by apply read_app.
  - apply (read_app _ [y2; y3; y4; y5]) in Hx2. by rewrite <- app_assoc in Hx2.
  - apply (read_app _ [y3; y4; y5]) in Hx3. by rewrite <- app_assoc in Hx3.
  - apply (read_app _ [y4; y5]) in Hx4. by rewrite <- app_assoc in Hx4.
  - apply (read_app _ [y5]) in Hx5. by rewrite <- app_assoc in Hx5.
Qed.

End Matcher.

(** ** Frame lemmas for the whole pass *)

Section PassFrames.
Context `{TensorBackend}.
Variable P : State → Prop.
Hypothesis HG : survives_graph P.
Hypothesis HA : survives_alloc P.
Hypothesis HM : survives_insert P.
(** Writes are only required to be harmless at handles allocated later. *)
Hypothesis HW : ∀ st w, P st → length (heap st) ≤ w → survives_write P w.

Lemma stable_fuseConv b it : stable P (fuseConv b it).
Proof.
  intros st HP. unfold fuseConv.
  destruct (matchConvBatchNorm it st) as [st1 [[c|]|e]] eqn:Hm.
  - pose proof (stable_matchConvBatchNorm P it HA st HP) as HP1.
    rewrite Hm in HP1. simpl in HP1.
    erewrite bind_run by exact Hm.
    apply matchConvBatchNorm_Some in Hm as [v Hv].
    assert (survives_write P (c_convW c)) as HWc.
    { apply (HW st); [done|]. unfold Matched in Hv.
      destruct Hv as (_&_&_&_&_&_&_&_&_&_&_&_&_&_&_&_&_&_&_&_&_&_&->&_). lia. }
    clear Hv. revert st1 HP1.
    change (stable P (let* wb := foldBatchNorm c in
                      let* new := buildNewConv b c wb.1 wb.2 in
                      let* it' := commitFusion b c new.1.1 in
                      ret (Fused new.1.1 new.1.2 new.2 it'))).
    pose proof (stable_foldBatchNorm P c HA HWc).
    pose proof (λ w x, stable_buildNewConv P b c w x HG HM).
    pose proof (λ n, stable_commitFusion P b c n HG).
    solve_stable.
  - pose proof (stable_matchConvBatchNorm P it HA st HP) as HP1.
    rewrite Hm in HP1. erewrite bind_run by exact Hm. done.
  - pose proof (stable_matchConvBatchNorm P it HA st HP) as HP1.
    rewrite Hm in HP1. erewrite bind_fail by exact Hm. done.
Qed.

Lemma stable_fuseConvBatchNorm fuel :
  (∀ b, stable P (fuseConvBatchNorm fuel b))
  ∧ (∀ b it, stable P (fuseConvBatchNorm_from fuel b it)).
Proof.
  induction fuel as [|fuel [IH1 IH2]].
  - split; intros; apply stable_throw.
  - pose proof stable_fuseConv. split; intros; simpl; solve_stable.
Qed.

Lemma stable_peephole fuel b allowed : stable P (peephole fuel b allowed).
Proof.
  unfold peephole. destruct allowed; [|apply stable_ret].
  apply stable_fuseConvBatchNorm.
Qed.

End PassFrames.

(** ** Frame properties of the pass *)

Section FrameTheorems.
Context `{TensorBackend}.


Lemma prefix_insert_ge {A} (l1 l2 : list A) w x :
  l1 `prefix_of` l2 → length l1 ≤ w → l1 `prefix_of` <[w := x]> l2.
Proof.
  intros [k ->] Hw. rewrite insert_app_r_alt by done. by apply prefix_app_r.
Qed.


Lemma heap_kept (h0 : list TensorImpl) fuel b allowed :
  stable (λ st, h0 `prefix_of` heap st) (peephole fuel b allowed).
Proof.
  apply stable_peephole.
  - by intros f st.
  - intros x st Hst. simpl. by apply prefix_app_r.
  - by intros k e st.
  - intros st w Hst Hw x st' Hst'. simpl. apply prefix_insert_ge; [done|].
    apply prefix_length in Hst. lia.
Qed.

(** C8 (the folder works on copies).  The only in-place write of the pass
    goes to the clone [convW]: the folder leaves every tensor allocated
    before that clone as it was, and over a whole run of the pass (either
    flag, however it ends) every tensor that existed when the pass started,
    in particular every tensor of the binding table or of a Constant node,
    keeps its dtype, shape and contents. *)
Theorem originals_never_mutated :
  (∀ c st, take (c_convW c) (heap st) `prefix_of` heap (foldBatchNorm c st).1)
  ∧ (∀ b it st, heap st `prefix_of` heap (fuseConv b it st).1)
  ∧ (∀ fuel b allowed st,
       heap st `prefix_of` heap (peephole fuel b allowed st).1).
Proof.
  split; [|split].
  - intros c st.
    apply (stable_foldBatchNorm (λ s, take (c_convW c) (heap st) `prefix_of` heap s)).
    + intros x s Hs. simpl. by apply prefix_app_r.
    + intros x s Hs. simpl. apply prefix_insert_ge; [done|].
      rewrite length_take. lia.
    + apply prefix_take.
  - intros b it st.
    apply (stable_fuseConv (λ s, heap st `prefix_of` heap s)); [| | | |done].
    + by intros f s.
    + intros x s Hs. simpl. by apply prefix_app_r.
    + by intros k e s.
    + intros s w Hs Hw x s' Hs'. simpl. apply prefix_insert_ge; [done|].
      apply prefix_length in Hs. lia.
  - intros fuel b allowed st. by apply (heap_kept (heap st)).
Qed.

End FrameTheorems.

(** ** Facts about the tensor operations *)

Section TensorFacts.
Context `{TensorBackend}.

Lemma numel_app a b : numel (a ++ b) = numel a * numel b.
Proof.
  unfold numel. induction a as [|x a IH]; simpl; [lia|]. rewrite IH. lia.
Qed.

Lemma numel_reverse s : numel (reverse s) = numel s.
Proof.
  induction s as [|x s IH]; [done|].
  rewrite reverse_cons, numel_app, IH. unfold numel. simpl. lia.
Qed.

Lemma broadcast_rev_same s : broadcast_rev s s = Some s.
Proof.
  induction s as [|x s IH]; [done|]. simpl. unfold broadcast_dim.
  rewrite decide_True by done. simpl. by rewrite IH.
Qed.

Lemma broadcast_shapes_same s : broadcast_shapes s s = Some s.
Proof.
  unfold broadcast_shapes. rewrite broadcast_rev_same. simpl.
  by rewrite reverse_involutive.
Qed.

Lemma broadcast_rev_nil_r s : broadcast_rev s [] = Some s.
Proof. by destruct s. Qed.

Lemma broadcast_shapes_nil_r s : broadcast_shapes s [] = Some s.
Proof.
  unfold broadcast_shapes. simpl. rewrite broadcast_rev_nil_r. simpl.
  by rewrite reverse_involutive.
Qed.

Lemma bcast_index_rev_same s k : k < numel s → bcast_index_rev s s k = k.
Proof.
  revert k. induction s as [|d s IH]; intros k Hk; simpl.
  - unfold numel in Hk. simpl in Hk. lia.
  - change (numel (d :: s)) with (d * numel s) in Hk.
    assert (d ≠ 0) by (intros ->; lia).
    rewrite IH by (apply Nat.Div0.div_lt_upper_bound; lia).
    pose proof (Nat.div_mod_eq k d).
    destruct (decide (d = 1)) as [->|]; [|lia].
    rewrite Nat.mod_1_r in *. lia.
Qed.

Lemma bcast_index_rev_nil s k : bcast_index_rev s [] k = 0.
Proof. by destruct s. Qed.

Lemma bcast_get_same s x k :
  t_sizes x = s → k < numel s → bcast_get s x k = nth k (t_data x) s_zero.
Proof.
  intros <- Hk. unfold bcast_get.
  rewrite bcast_index_rev_same; [done | by rewrite numel_reverse].
Qed.

Lemma bcast_get_scalar s x k :
  t_sizes x = [] → bcast_get s x k = nth 0 (t_data x) s_zero.
Proof.
  intros Hx. unfold bcast_get. rewrite Hx. simpl.
  by rewrite bcast_index_rev_nil.
Qed.

Lemma nth_fmap_seq (g : nat → Scalar) n k :
  k < n → nth k (g <$> seq 0 n) s_zero = g k.
Proof.
  intros Hk. rewrite nth_lookup, list_lookup_fmap, lookup_seq_lt by done.
  done.
Qed.

(** Operands of one shape: the operation is defined and acts position by
    position. *)
Lemma t_binop_same f x y :
  t_sizes x = t_sizes y →
  ∃ z, t_binop f x y = Some z
       ∧ t_sizes z = t_sizes x
       ∧ t_dtype z = result_type (t_dtype x) (t_dim x) (t_dtype y) (t_dim y)
       ∧ length (t_data z) = numel (t_sizes x)
       ∧ ∀ k, k < numel (t_sizes x) →
           nth k (t_data z) s_zero
           = f (nth k (t_data x) s_zero) (nth k (t_data y) s_zero).
Proof.
  intros Hxy. unfold t_binop. rewrite <- Hxy, broadcast_shapes_same. simpl.
  eexists. split; [done|]. simpl. repeat split.
  - by rewrite length_fmap, length_seq.
  - intros k Hk. rewrite nth_fmap_seq by done.
    by rewrite !bcast_get_same.
Qed.

(** A 0-dimensional right operand: every element meets the one scalar. *)
Lemma t_binop_scalar f x y :
  t_sizes y = [] →
  ∃ z, t_binop f x y = Some z
       ∧ t_sizes z = t_sizes x
       ∧ length (t_data z) = numel (t_sizes x)
       ∧ ∀ k, k < numel (t_sizes x) →
           nth k (t_data z) s_zero
           = f (nth k (t_data x) s_zero) (nth 0 (t_data y) s_zero).
Proof.
  intros Hy. unfold t_binop. rewrite Hy, broadcast_shapes_nil_r. simpl.
  eexists. split; [done|]. simpl. repeat split.
  - by rewrite length_fmap, length_seq.
  - intros k Hk. rewrite nth_fmap_seq by done.
    by rewrite bcast_get_same, bcast_get_scalar.
Qed.

End TensorFacts.

(** ** The folder *)

Section Folder.
Context `{TensorBackend}.

Lemma nth_splice (d g : list Scalar) a len k :
  length g = len → a + len ≤ length d →
  nth k (take a d ++ g ++ drop (a + len) d) s_zero
  = if decide (a ≤ k < a + len) then nth (k - a) g s_zero else nth k d s_zero.
Proof.
  intros Hg Hd. rewrite !nth_lookup.
  destruct (decide (k < a)).
  - rewrite lookup_app_l by (rewrite length_take; lia).
    rewrite lookup_take_lt by lia. rewrite decide_False by lia. done.
  - rewrite lookup_app_r by (rewrite length_take; lia).
    rewrite length_take, Nat.min_l by lia.
    destruct (decide (k < a + len)).
    + rewrite lookup_app_l by lia. rewrite decide_True by lia. done.
    + rewrite lookup_app_r by lia. rewrite lookup_drop, decide_False by lia.
      do 2 f_equal. lia.
Qed.

Lemma length_splice (d g : list Scalar) a len :
  length g = len → a + len ≤ length d →
  length (take a d ++ g ++ drop (a + len) d) = length d.
Proof.
  intros Hg Hd. rewrite !length_app, length_take, length_drop. lia.
Qed.

Lemma mul_channel_ok w s i st xw xs C rest :
  heap st !! w = Some xw → heap st !! s = Some xs →
  t_sizes xw = C :: rest → t_sizes xs = [C] →
  length (t_data xw) = C * numel rest →
  i < C →
  ∃ x', mul_channel_ w s i st
        = (mkState (graph st) (<[w := x']> (heap st)) (valsToParamsMap st), Ok tt)
      ∧ t_dtype x' = t_dtype xw ∧ t_sizes x' = t_sizes xw
      ∧ length (t_data x') = length (t_data xw)
      ∧ ∀ k, k < C * numel rest →
          nth k (t_data x') s_zero
          = if decide (i * numel rest ≤ k < S i * numel rest)
            then s_mul (nth k (t_data xw) s_zero) (nth i (t_data xs) s_zero)
            else nth k (t_data xw) s_zero.
Proof.
  intros Hw Hs Hsw Hss Hlen Hi.
  unfold mul_channel_, impl, getHeap, modifyHeap, bind, lift, ret. simpl.
  rewrite Hw, Hs. simpl.
  unfold t_select at 1. rewrite Hsw. rewrite decide_True by done. simpl.
  unfold t_select at 1. rewrite Hss. rewrite decide_True by done. simpl.
  match goal with |- context [t_binop s_mul ?a ?b] =>
    destruct (t_binop_scalar s_mul a b eq_refl) as (p & Hp & Hps & Hpl & Hpn) end.
  rewrite Hp. simpl in *.
  unfold t_select_copy. rewrite Hsw. rewrite decide_True by done.
  rewrite Hps, broadcast_shapes_same. simpl. rewrite decide_True by done. simpl.
  eexists. split; [done|]. simpl.
  assert (i * numel rest + numel rest ≤ length (t_data xw)) as Hb by nia.
  replace (numel rest + i * numel rest) with (i * numel rest + numel rest) by lia.
  split; [done|]. split; [done|]. split.
  { apply length_splice; [by rewrite length_fmap, length_seq | done]. }
  intros k Hk. rewrite nth_splice; [| by rewrite length_fmap, length_seq | done].
  destruct (decide (i * numel rest ≤ k < i * numel rest + numel rest)) as [Hin|Hout].
  - rewrite nth_fmap_seq by lia. rewrite bcast_get_same by (done || lia).
    rewrite Hpn by lia. f_equal.
    + rewrite !nth_lookup. rewrite lookup_take_lt by lia. rewrite lookup_drop.
      do 2 f_equal. lia.
    + unfold numel. simpl. rewrite !nth_lookup. rewrite lookup_take_lt by lia.
      rewrite lookup_drop. do 2 f_equal. lia.
  - done.
Qed.

Lemma mul_channels_ok w s st xs C rest n : ∀ i xw,
  heap st !! w = Some xw → heap st !! s = Some xs → w ≠ s →
  t_sizes xw = C :: rest → t_sizes xs = [C] →
  length (t_data xw) = C * numel rest →
  i + n = C →
  ∃ x', forM_ (seq i n) (mul_channel_ w s) st = (store w x' st, Ok tt)
      ∧ t_dtype x' = t_dtype xw ∧ t_sizes x' = t_sizes xw
      ∧ length (t_data x') = length (t_data xw)
      ∧ ∀ k, k < C * numel rest →
          nth k (t_data x') s_zero
          = if decide (i * numel rest ≤ k)
            then s_mul (nth k (t_data xw) s_zero)
                       (nth (k `div` numel rest) (t_data xs) s_zero)
            else nth k (t_data xw) s_zero.
Proof.
  revert st. induction n as [|n IH]; intros st i xw Hw Hs Hne Hsw Hss Hlen Hi.
  - exists xw. simpl. split.
    { unfold ret, store. rewrite list_insert_id by done. by destruct st. }
    repeat split; try done. intros k Hk. rewrite decide_False by nia. done.
  - simpl.
    destruct (mul_channel_ok w s i st xw xs C rest Hw Hs Hsw Hss Hlen)
      as (x1 & Hrun & Hd1 & Hs1 & Hl1 & Hn1); [lia|].
    erewrite bind_run by exact Hrun.
    assert (w < length (heap st)) as Hwl by (by eapply lookup_lt_Some).
    destruct (IH (store w x1 st) (S i) x1) as (x' & Hrun' & Hd' & Hs' & Hl' & Hn').
    { simpl. by rewrite list_lookup_insert_eq. }
    { simpl. by rewrite list_lookup_insert_ne. }
    { done. } { congruence. } { done. } { congruence. } { lia. }
    exists x'. split.
    { unfold store in *. simpl in *. rewrite Hrun'. by rewrite list_insert_insert_eq. }
    split; [congruence|]. split; [congruence|]. split; [congruence|].
    intros k Hk. rewrite Hn' by done. rewrite !Hn1 by done.
    destruct (decide (S i * numel rest ≤ k)).
    + rewrite decide_False by lia. rewrite decide_True by lia. done.
    + destruct (decide (i * numel rest ≤ k)).
      * rewrite decide_True by lia.
        assert (k `div` numel rest = i) as ->; [|done].
        symmetry. apply (Nat.div_unique k (numel rest) i (k - i * numel rest)); lia.
      * rewrite decide_False by lia. done.
Qed.

Lemma run_impl t x st : heap st !! t = Some x → impl t st = (st, Ok x).
Proof. intros Ht. unfold impl, getHeap, bind, lift. simpl. by rewrite Ht. Qed.

Lemma run_new_tensor x st : new_tensor x st = (alloc x st, Ok (length (heap st))).
Proof. done. Qed.

Lemma run_clone t x st :
  heap st !! t = Some x → clone t st = (alloc x st, Ok (length (heap st))).
Proof. intros Ht. unfold clone. by erewrite bind_run by by apply run_impl. Qed.

Lemma run_tensor_add_scalar a x eps st :
  heap st !! a = Some x →
  tensor_add_scalar a eps st = (alloc (t_add_scalar x eps) st, Ok (length (heap st))).
Proof. intros Ht. unfold tensor_add_scalar. by erewrite bind_run by by apply run_impl. Qed.

Lemma run_tensor_sqrt a x st :
  heap st !! a = Some x →
  tensor_sqrt a st = (alloc (t_sqrt x) st, Ok (length (heap st))).
Proof. intros Ht. unfold tensor_sqrt. by erewrite bind_run by by apply run_impl. Qed.

Lemma run_tensor_binop f a b x y st :
  heap st !! a = Some x → heap st !! b = Some y →
  tensor_binop f a b st
  = match t_binop f x y with
    | Some z => (alloc z st, Ok (length (heap st)))
    | None => (st, Err TensorError)
    end.
Proof.
  intros Ha Hb. unfold tensor_binop.
  erewrite bind_run by by apply run_impl.
  erewrite bind_run by by apply run_impl.
  by destruct (t_binop f x y).
Qed.

Lemma alloc_lookup z st t x : heap st !! t = Some x → heap (alloc z st) !! t = Some x.
Proof. apply lookup_app_l_Some. Qed.

Lemma alloc_lookup_new z st : heap (alloc z st) !! length (heap st) = Some z.
Proof. simpl. by apply list_lookup_middle. Qed.

Lemma store_lookup_ne w z st t x :
  t ≠ w → heap st !! t = Some x → heap (store w z st) !! t = Some x.
Proof. intros Hne Ht. simpl. by rewrite list_lookup_insert_ne. Qed.

Lemma store_lookup w z st x :
  heap st !! w = Some x → heap (store w z st) !! w = Some z.
Proof.
  intros Hw. simpl. apply list_lookup_insert_eq. by eapply lookup_lt_Some.
Qed.

Lemma rejected_false xScale xB xMean xVar xW :
  rejected xScale xB xMean xVar xW = false →
  ∃ C rest,
    t_sizes xScale = [C] ∧ t_sizes xB = [C] ∧ t_sizes xMean = [C]
    ∧ t_sizes xVar = [C] ∧ t_sizes xW = C :: rest ∧ 2 ≤ length rest
    ∧ isFloatingType (t_dtype xScale) = true ∧ isFloatingType (t_dtype xB) = true
    ∧ isFloatingType (t_dtype xMean) = true ∧ isFloatingType (t_dtype xVar) = true
    ∧ isFloatingType (t_dtype xW) = true.
Proof.
  unfold rejected, t_dim. intros Hr.
  repeat (apply orb_false_elim in Hr as [Hr ?]).
  repeat match goal with
  | Hn : negb _ = false |- _ => apply negb_false_iff in Hn
  | Hb : bool_decide _ = true |- _ => apply bool_decide_eq_true_1 in Hb
  end.
  destruct (t_sizes xScale) as [|C [|]]; simpl in *; try discriminate.
  destruct (t_sizes xB) as [|C1 [|]]; simpl in *; try discriminate.
  destruct (t_sizes xMean) as [|C2 [|]]; simpl in *; try discriminate.
  destruct (t_sizes xVar) as [|C3 [|]]; simpl in *; try discriminate.
  destruct (t_sizes xW) as [|C4 rest]; simpl in *; try discriminate.
  simplify_eq. exists C3, rest. repeat split; try done. lia.
Qed.

Lemma spec_newBias_None xB xMean sf C :
  t_sizes xB = [C] → t_sizes xMean = [C] → t_sizes sf = [C] →
  ∃ nb, spec_newBias None xB xMean sf = Some nb ∧ t_sizes nb = [C]
        ∧ ∀ i, i < C →
            nth i (t_data nb) s_zero
            = s_sub (nth i (t_data xB) s_zero)
                    (s_mul (nth i (t_data xMean) s_zero) (nth i (t_data sf) s_zero)).
Proof.
  intros HsB HsM Hsf. unfold spec_newBias.
  assert (numel [C] = C) as HnC by (unfold numel; simpl; lia).
  destruct (t_binop_same s_mul xMean sf) as (m & Hm & Hms & _ & _ & Hmn);
    [congruence|].
  destruct (t_binop_same s_sub xB m) as (nb & Hnb & Hnbs & _ & _ & Hnbn);
    [congruence|].
  rewrite Hm. simpl. rewrite Hnb. exists nb. split; [done|]. split; [congruence|].
  intros i Hi. rewrite Hnbn by (rewrite HsB, HnC; done).
  rewrite Hmn by (rewrite HsM, HnC; done). done.
Qed.

Lemma spec_newBias_Some ob xB xMean sf C :
  t_sizes ob = [C] → t_sizes xB = [C] → t_sizes xMean = [C] → t_sizes sf = [C] →
  ∃ nb, spec_newBias (Some ob) xB xMean sf = Some nb ∧ t_sizes nb = [C]
        ∧ ∀ i, i < C →
            nth i (t_data nb) s_zero
            = s_add (s_mul (s_sub (nth i (t_data ob) s_zero)
                                  (nth i (t_data xMean) s_zero))
                           (nth i (t_data sf) s_zero))
                    (nth i (t_data xB) s_zero).
Proof.
  intros Hso HsB HsM Hsf. unfold spec_newBias.
  assert (numel [C] = C) as HnC by (unfold numel; simpl; lia).
  destruct (t_binop_same s_sub ob xMean) as (d & Hd & Hds & _ & _ & Hdn);
    [congruence|].
  destruct (t_binop_same s_mul d sf) as (e & He & Hes & _ & _ & Hen);
    [congruence|].
  destruct (t_binop_same s_add e xB) as (nb & Hnb & Hnbs & _ & _ & Hnbn);
    [congruence|].
  rewrite Hd. simpl. rewrite He. simpl. rewrite Hnb.
  exists nb. split; [done|]. split; [congruence|].
  intros i Hi. rewrite Hnbn by (rewrite Hes, Hds, Hso, HnC; done).
  rewrite Hen by (rewrite Hds, Hso, HnC; done).
  rewrite Hdn by (rewrite Hso, HnC; done). done.
Qed.

(** The two ways the bias is computed (lines 107-116), against the formula. *)
Lemma run_bias_Some (w hb bM hS bB : Tensor) ob xB xMean sf inputVals st :
  inputVals !! 1 = Some hb →
  heap st !! hb = Some ob → heap st !! bM = Some xMean →
  heap st !! hS = Some sf → heap st !! bB = Some xB →
  ∃ s r,
    (let* convB := (let* t := at_ inputVals 1 in clone t) in
     let* convB := tensor_binop s_sub convB bM in
     let* convB := tensor_binop s_mul convB hS in
     let* convB := tensor_binop s_add convB bB in
     ret (w, convB)) st = (s, r)
    ∧ heap st `prefix_of` heap s
    ∧ match spec_newBias (Some ob) xB xMean sf with
      | Some nb => ∃ convB, r = Ok (w, convB) ∧ heap s !! convB = Some nb
      | None => r = Err TensorError
      end.
Proof.
  intros Hin Hhb HbM HhS HbB.
  erewrite bind_run.
  2:{ erewrite bind_run by (unfold at_, lift; rewrite Hin; reflexivity).
      by apply run_clone. }
  unfold spec_newBias.
  pose proof (run_tensor_binop s_sub (length (heap st)) bM ob xMean (alloc ob st)
                (alloc_lookup_new _ _) (alloc_lookup _ _ _ _ HbM)) as Hrun1.
  destruct (t_binop s_sub ob xMean) as [d|]; simpl.
  2:{ erewrite bind_fail by exact Hrun1. eexists _, _. split; [done|].
      split; [|done]. simpl. by apply prefix_app_r. }
  erewrite bind_run by exact Hrun1.
  pose proof (run_tensor_binop s_mul (length (heap (alloc ob st))) hS d sf
                (alloc d (alloc ob st))
                (alloc_lookup_new _ _)
                (alloc_lookup _ _ _ _ (alloc_lookup _ _ _ _ HhS))) as Hrun2.
  destruct (t_binop s_mul d sf) as [e|]; simpl.
  2:{ erewrite bind_fail by exact Hrun2. eexists _, _. split; [done|].
      split; [|done]. simpl. by do 2 apply prefix_app_r. }
  erewrite bind_run by exact Hrun2.
  pose proof (run_tensor_binop s_add (length (heap (alloc d (alloc ob st)))) bB e xB
                (alloc e (alloc d (alloc ob st)))
                (alloc_lookup_new _ _)
                (alloc_lookup _ _ _ _ (alloc_lookup _ _ _ _
                   (alloc_lookup _ _ _ _ HbB)))) as Hrun3.
  destruct (t_binop s_add e xB) as [nb|]; simpl.
  2:{ erewrite bind_fail by exact Hrun3. eexists _, _. split; [done|].
      split; [|done]. simpl. by do 3 apply prefix_app_r. }
  erewrite bind_run by exact Hrun3.
  eexists _, _. split; [done|]. split.
  { simpl. by do 4 apply prefix_app_r. }
  eexists. split; [done|]. apply alloc_lookup_new.
Qed.

Lemma run_bias_None (w bM hS bB : Tensor) xB xMean sf st :
  heap st !! bM = Some xMean → heap st !! hS = Some sf → heap st !! bB = Some xB →
  ∃ s r,
    (let* bnMean := tensor_binop s_mul bM hS in
     let* bnB := tensor_binop s_sub bB bnMean in
     ret (w, bnB)) st = (s, r)
    ∧ heap st `prefix_of` heap s
    ∧ match spec_newBias None xB xMean sf with
      | Some nb => ∃ convB, r = Ok (w, convB) ∧ heap s !! convB = Some nb
      | None => r = Err TensorError
      end.
Proof.
  intros HbM HhS HbB. unfold spec_newBias.
  pose proof (run_tensor_binop s_mul bM hS xMean sf st HbM HhS) as Hrun1.
  destruct (t_binop s_mul xMean sf) as [m|]; simpl.
  2:{ erewrite bind_fail by exact Hrun1. eexists _, _. split; [done|].
      split; done. }
  erewrite bind_run by exact Hrun1.
  pose proof (run_tensor_binop s_sub bB (length (heap st)) xB m (alloc m st)
                (alloc_lookup _ _ _ _ HbB) (alloc_lookup_new _ _)) as Hrun2.
  destruct (t_binop s_sub xB m) as [nb|]; simpl.
  2:{ erewrite bind_fail by exact Hrun2. eexists _, _. split; [done|].
      split; [|done]. simpl. by apply prefix_app_r. }
  erewrite bind_run by exact Hrun2.
  eexists _, _. split; [done|]. split.
  { simpl. by do 2 apply prefix_app_r. }
  eexists. split; [done|]. apply alloc_lookup_new.
Qed.

(** The result of the folder on a validated candidate, in terms of the
    contents of the five clones and of the old bias. *)
Lemma foldBatchNorm_formulas c st conv xScale xB xMean xVar xW oldBias :
  heap st !! c_bnScale c = Some xScale →
  heap st !! c_bnB c = Some xB →
  heap st !! c_bnMean c = Some xMean →
  heap st !! c_bnVar c = Some xVar →
  heap st !! c_convW c = Some xW →
  c_convW c ≠ c_bnB c → c_convW c ≠ c_bnMean c →
  rejected xScale xB xMean xVar xW = false →
  t_wf xVar → t_wf xW →
  g_nodes (graph st) !! c_oldConv c = Some conv →
  match oldBias with
  | Some ob =>
      length (n_inputs conv) = 3
      ∧ ∃ hb, c_convInputVals c !! 1 = Some hb ∧ hb ≠ c_convW c
              ∧ heap st !! hb = Some ob
  | None => length (n_inputs conv) ≠ 3
  end →
  FoldResult c st xScale xB xMean xVar xW oldBias.
Proof.
  intros HScale HB HMean HVar HW HneB HneM Hrej HwfV HwfW Hconv Hbias.
  destruct (rejected_false _ _ _ _ _ Hrej)
    as (C & rest & HsS & HsB & HsM & HsV & HsW & Hrest & _).
  assert (numel [C] = C) as HnC by (unfold numel; simpl; lia).
  (* the scale factor *)
  set (v1 := t_add_scalar xVar (c_epsilon c)).
  set (v2 := t_sqrt v1).
  destruct (t_binop_same s_div xScale v2) as (sf & Hsf & Hsfs & _ & Hsfl & Hsfn).
  { by rewrite HsS. }
  rewrite HsS in Hsfs, Hsfl, Hsfn. rewrite HnC in Hsfl, Hsfn.
  assert (∀ i, i < C →
    nth i (t_data sf) s_zero
    = s_div (nth i (t_data xScale) s_zero)
            (s_sqrt (s_add (nth i (t_data xVar) s_zero) (c_epsilon c)))) as Hsfv.
  { intros i Hi. rewrite Hsfn by done. f_equal. subst v2 v1. simpl.
    rewrite !nth_lookup, !list_lookup_fmap.
    destruct (t_data xVar !! i) eqn:Hx; simpl; [done|].
    apply lookup_ge_None in Hx. unfold t_wf in HwfV. rewrite HsV, HnC in HwfV. lia. }
  (* the run up to the bias *)
  set (st1 := alloc v1 st). set (st2 := alloc v2 st1). set (st3 := alloc sf st2).
  set (hS := length (heap st2)).
  assert (c_convW c < length (heap st)) as HWlt by (by eapply lookup_lt_Some).
  assert (heap st3 !! hS = Some sf) as HhS by apply alloc_lookup_new.
  assert (heap st3 !! c_convW c = Some xW) as HW3 by (by do 3 apply alloc_lookup).
  destruct (mul_channels_ok (c_convW c) hS st3 sf C rest C 0 xW)
    as (xW' & Hloop & HdW' & HsW' & HlW' & HnW'); try done.
  { subst hS st2 st1. simpl. rewrite !length_app. simpl. lia. }
  { unfold t_wf in HwfW. rewrite HsW in HwfW. done. }
  set (st4 := store (c_convW c) xW' st3) in *.
  assert (∀ t x, t ≠ c_convW c → heap st !! t = Some x → heap st4 !! t = Some x)
    as Hkeep.
  { intros t x Hne Ht. apply store_lookup_ne; [done|]. by do 3 apply alloc_lookup. }
  assert (heap st4 !! hS = Some sf) as HhS4.
  { apply store_lookup_ne; [|done]. subst hS st2 st1. simpl.
    rewrite !length_app. simpl. lia. }
  assert (heap st4 !! c_convW c = Some xW') as HW4 by (by eapply store_lookup).
  assert (foldBatchNorm c st =
    (if decide (length (n_inputs conv) = 3) then
       let* convB := (let* t := at_ (c_convInputVals c) 1 in clone t) in
       let* convB := tensor_binop s_sub convB (c_bnMean c) in
       let* convB := tensor_binop s_mul convB hS in
       let* convB := tensor_binop s_add convB (c_bnB c) in
       ret (c_convW c, convB)
     else
       let* bnMean := tensor_binop s_mul (c_bnMean c) hS in
       let* bnB := tensor_binop s_sub (c_bnB c) bnMean in
       ret (c_convW c, bnB)) st4) as Hfold.
  { unfold foldBatchNorm.
    erewrite bind_run by (by apply run_tensor_add_scalar).
    erewrite bind_run by (apply run_tensor_sqrt, alloc_lookup_new).
    erewrite bind_run.
    2:{ erewrite run_tensor_binop;
          [| by do 2 apply alloc_lookup | apply alloc_lookup_new ].
        fold v1 v2. rewrite Hsf. done. }
    fold v1 st1 v2 st2 st3 hS.
    erewrite bind_run by (by apply run_impl).
    rewrite HsW. simpl.
    erewrite bind_run by reflexivity.
    erewrite bind_run by exact Hloop.
    erewrite bind_run.
    2:{ unfold getNode, getGraph, bind, lift. simpl. rewrite Hconv. done. }
    done. }
  assert (∃ s r, foldBatchNorm c st = (s, r) ∧ heap st4 `prefix_of` heap s
    ∧ match spec_newBias oldBias xB xMean sf with
      | Some nb => ∃ convB, r = Ok (c_convW c, convB) ∧ heap s !! convB = Some nb
      | None => r = Err TensorError
      end) as (s & r & Hrun & Hpre & Hres).
  { rewrite Hfold. destruct oldBias as [ob|].
    - destruct Hbias as (H3 & hb & Hhb & Hne & Hob).
      rewrite decide_True by done.
      apply run_bias_Some with (hb := hb); auto.
    - rewrite decide_False by done. apply run_bias_None; auto. }
  unfold FoldResult. rewrite Hrun. simpl.
  exists C, sf, xW'. repeat split; try done.
  - by apply (prefix_lookup_Some _ _ _ _ HW4).
  - intros i j Hi Hj. rewrite HsW in Hj |- *. simpl in Hj |- *.
    rewrite HnW' by nia. rewrite decide_True by lia.
    do 2 f_equal. symmetry. apply (Nat.div_unique _ _ _ j); lia.
  - intros _. by apply spec_newBias_None.
  - intros ob _ Hso. by apply spec_newBias_Some.
Qed.

(** C2 (the folding arithmetic).  For a validated candidate the folder
    computes [scaleFactor = bnScale / sqrt(bnVar + epsilon)] componentwise;
    the new weight, written into the clone [convW], is the old weight with
    every element of output channel [i] multiplied by [scaleFactor[i]];
    the new bias is [(oldBias - bnMean) * scaleFactor + bnB] when the
    convolution has 3 inputs ([oldBias] being the second resolved tensor)
    and [bnB - bnMean * scaleFactor] otherwise.  With a bias whose shape
    does not broadcast against the channel vector the tensor library
    raises, exactly when the formula is undefined. *)
Theorem fold_formulas c st conv xScale xB xMean xVar xW oldBias :
  heap st !! c_bnScale c = Some xScale →
  heap st !! c_bnB c = Some xB →
  heap st !! c_bnMean c = Some xMean →
  heap st !! c_bnVar c = Some xVar →
  heap st !! c_convW c = Some xW →
  c_convW c ≠ c_bnB c → c_convW c ≠ c_bnMean c →
  rejected xScale xB xMean xVar xW = false →
  t_wf xVar → t_wf xW →
  g_nodes (graph st) !! c_oldConv c = Some conv →
  match oldBias with
  | Some ob =>
      length (n_inputs conv) = 3
      ∧ ∃ hb, c_convInputVals c !! 1 = Some hb ∧ hb ≠ c_convW c
              ∧ heap st !! hb = Some ob
  | None => length (n_inputs conv) ≠ 3
  end →
  FoldResult c st xScale xB xMean xVar xW oldBias.
Proof. apply foldBatchNorm_formulas. Qed.

End Folder.

(** ** What each operation of the IR does to the state *)

Section IRFacts.
Context `{TensorBackend}.

Lemma addOutput_ok n v st st' :
  addOutput n st = (st', Ok v) →
  ∃ nd, g_nodes (graph st) !! n = Some nd
        ∧ v = g_next_unique (graph st)
        ∧ st' = upd_graph (λ g,
            mkGraph (<[n := set_outputs (n_outputs nd ++ [v]) nd]> (g_nodes g))
                    (<[v := mkValue n [] TensorTypeAny None]> (g_values g))
                    (g_blocks g) (g_block g) (S v) (g_next_node g)) st.
Proof.
  unfold addOutput. intros Hr.
  apply bind_ok in Hr as (nd & ? & Hnd & Hr). apply getNode_ok in Hnd as [-> Hnd].
  inv_run. eauto.
Qed.

Lemma create1_ok kind n st st' :
  create kind 1 st = (st', Ok n) →
  n = g_next_node (graph st)
  ∧ st' = upd_graph (λ g,
      mkGraph (<[n := mkNode kind [] [g_next_unique g] [] [] None]> (g_nodes g))
              (<[g_next_unique g := mkValue n [] TensorTypeAny None]> (g_values g))
              (g_blocks g) (g_block g) (S (g_next_unique g)) (S n)) st.
Proof.
  unfold create. simpl. intros Hr.
  apply bind_ok in Hr as (g & ? & Hg & Hr). apply getGraph_ok in Hg as [-> ->].
  apply bind_ok in Hr as (? & st1 & Hm & Hr). apply modifyGraph_ok in Hm.
  apply bind_ok in Hr as (? & st2 & Ho & Hr).
  apply bind_ok in Ho as (? & st3 & Ho & Ho').
  apply bind_ok in Ho as (v & st4 & Ho & Ho'').
  apply addOutput_ok in Ho as (nd & Hnd & -> & ->).
  inv_run. rewrite lookup_insert_eq in Hnd. simplify_eq. split; [done|].
  unfold upd_graph. simpl. by rewrite insert_insert_eq.
Qed.

Lemma block_addInput_ok b v st st' :
  block_addInput b st = (st', Ok v) →
  ∃ blk nd, g_blocks (graph st) !! b = Some blk
        ∧ g_nodes (graph st) !! b_input blk = Some nd
        ∧ v = g_next_unique (graph st)
        ∧ st' = upd_graph (λ g,
            mkGraph (<[b_input blk := set_outputs (n_outputs nd ++ [v]) nd]> (g_nodes g))
                    (<[v := mkValue (b_input blk) [] TensorTypeAny None]> (g_values g))
                    (g_blocks g) (g_block g) (S v) (g_next_node g)) st.
Proof.
  unfold block_addInput. intros Hr.
  apply bind_ok in Hr as (blk & ? & Hb & Hr). apply getBlock_ok in Hb as [-> Hb].
  apply addOutput_ok in Hr as (nd & ? & ? & ?). eauto 10.
Qed.

Lemma graph_addInput_ok v st st' :
  graph_addInput st = (st', Ok v) →
  block_addInput (g_block (graph st)) st = (st', Ok v).
Proof.
  unfold graph_addInput. intros Hr.
  apply bind_ok in Hr as (g & ? & Hg & Hr). by apply getGraph_ok in Hg as [-> ->].
Qed.

Lemma copyMetadata_ok dst src u st st' :
  copyMetadata dst src st = (st', Ok u) →
  ∃ s d, g_values (graph st) !! src = Some s ∧ g_values (graph st) !! dst = Some d
         ∧ st' = upd_graph (set_values (<[dst := set_type (v_type s) d]>)) st.
Proof.
  unfold copyMetadata. intros Hr.
  apply bind_ok in Hr as (s & ? & Hs & Hr). apply getValue_ok in Hs as [-> Hs].
  apply bind_ok in Hr as (d & ? & Hd & Hr). apply getValue_ok in Hd as [-> Hd].
  apply modifyGraph_ok in Hr. eauto.
Qed.

Lemma inferTypeFrom_ok v t u st st' :
  inferTypeFrom v t st = (st', Ok u) →
  ∃ x d, heap st !! t = Some x ∧ g_values (graph st) !! v = Some d
         ∧ st' = upd_graph (set_values
                   (<[v := set_type (TensorTypeOf (t_dtype x) (t_sizes x)) d]>)) st.
Proof.
  unfold inferTypeFrom. intros Hr.
  apply bind_ok in Hr as (x & ? & Hx & Hr). apply impl_ok in Hx as [-> Hx].
  apply bind_ok in Hr as (d & ? & Hd & Hr). apply getValue_ok in Hd as [-> Hd].
  apply modifyGraph_ok in Hr. eauto.
Qed.

Lemma copyAttributes_ok dst src u st st' :
  copyAttributes dst src st = (st', Ok u) →
  ∃ s d, g_nodes (graph st) !! src = Some s ∧ g_nodes (graph st) !! dst = Some d
         ∧ st' = upd_graph (set_nodes (<[dst := set_attrs (n_attrs s) d]>)) st.
Proof.
  unfold copyAttributes. intros Hr.
  apply bind_ok in Hr as (s & ? & Hs & Hr). apply getNode_ok in Hs as [-> Hs].
  apply bind_ok in Hr as (d & ? & Hd & Hr). apply getNode_ok in Hd as [-> Hd].
  apply modifyGraph_ok in Hr. eauto.
Qed.

Lemma insertBefore_ok n ref u st st' :
  insertBefore n ref st = (st', Ok u) →
  ∃ r nd b blk,
    g_nodes (graph st) !! ref = Some r ∧ g_nodes (graph st) !! n = Some nd
    ∧ n_owning_block r = Some b ∧ n_owning_block nd = None
    ∧ g_blocks (graph st) !! b = Some blk
    ∧ st' = upd_graph (λ g,
        set_blocks (<[b := set_b_nodes (insert_before n ref (b_nodes blk)) blk]>)
          (set_nodes (<[n := set_owning_block (Some b) nd]>) g)) st.
Proof.
  unfold insertBefore. intros Hr.
  apply bind_ok in Hr as (r & ? & Hs & Hr). apply getNode_ok in Hs as [-> Hs].
  apply bind_ok in Hr as (nd & ? & Hd & Hr). apply getNode_ok in Hd as [-> Hd].
  destruct (n_owning_block r) as [b|] eqn:Hob; [|by apply throw_ok in Hr].
  destruct (n_owning_block nd) eqn:Hon; [by apply throw_ok in Hr|].
  apply bind_ok in Hr as (blk & ? & Hb & Hr). apply getBlock_ok in Hb as [-> Hb].
  apply modifyGraph_ok in Hr. eauto 10.
Qed.

Lemma addInput_ok n v u st st' :
  addInput n v st = (st', Ok u) →
  ∃ nd x, g_nodes (graph st) !! n = Some nd ∧ g_values (graph st) !! v = Some x
    ∧ st' = upd_graph (λ g,
        set_values (<[v := set_uses (v_uses x ++ [mkUse n (length (n_inputs nd))]) x]>)
          (set_nodes (<[n := set_inputs (n_inputs nd ++ [v]) nd]>) g)) st.
Proof.
  unfold addInput. intros Hr.
  apply bind_ok in Hr as (nd & ? & Hs & Hr). apply getNode_ok in Hs as [-> Hs].
  apply bind_ok in Hr as (x & ? & Hd & Hr). apply getValue_ok in Hd as [-> Hd].
  apply modifyGraph_ok in Hr. eauto.
Qed.

Lemma debugName_ok v name st st' :
  debugName v st = (st', Ok name) →
  st' = st ∧ ∃ x, g_values (graph st) !! v = Some x
                  ∧ name = default (pretty v) (v_name x).
Proof.
  unfold debugName. intros Hr.
  apply bind_ok in Hr as (x & ? & Hd & Hr). apply getValue_ok in Hd as [-> Hd].
  apply ret_ok in Hr as [-> ->]. eauto.
Qed.

End IRFacts.

(** ** Use-list integrity, abstractly *)

Section Exact.

Lemma exact_upto_0 n I U : exact I U ↔ exact_upto n 0 I U.
Proof.
  unfold exact, exact_upto. split; intros [Hnd Hx]; (split; [done|]);
    intros v u; rewrite Hx.
  - split; [|tauto]. intros ?. split; [done|]. lia.
  - split; [by intros [? _]|]. intros ?. split; [done|]. lia.
Qed.

Lemma exact_fresh_value I U o :
  U !! o = None → exact I U → exact I (<[o := []]> U).
Proof.
  intros Ho [Hnd Hx]. split.
  - intros v us. rewrite lookup_insert. case_decide; [|by apply Hnd].
    intros ?; simplify_eq. constructor.
  - intros v u. rewrite <- Hx. unfold recorded_in. rewrite lookup_insert.
    case_decide; [subst v|done]. rewrite Ho. split.
    + intros (us & ? & Hin). simplify_eq. by apply elem_of_nil in Hin.
    + intros (us & ? & _). done.
Qed.

Lemma exact_fresh_node I U n :
  I !! n = None → exact I U → exact (<[n := []]> I) U.
Proof.
  intros Hn [Hnd Hx]. split; [done|].
  intros v u. rewrite Hx. unfold input_in. rewrite lookup_insert.
  case_decide as Hu; [|done]. rewrite <- Hu, Hn. split.
  - intros (? & ? & _). done.
  - intros (ins & ? & Hl). simplify_eq.
Qed.

Lemma exact_add_input I U n v ins us :
  I !! n = Some ins → U !! v = Some us → exact I U →
  exact (<[n := ins ++ [v]]> I) (<[v := us ++ [mkUse n (length ins)]]> U).
Proof.
  intros Hn Hv [Hnd Hx].
  assert (mkUse n (length ins) ∉ us) as Hnew.
  { intros Hin.
    assert (recorded_in U v (mkUse n (length ins))) as Hr by (by exists us).
    apply Hx in Hr as (ins' & Hi & Hl). simpl in *. simplify_eq.
    apply lookup_lt_Some in Hl. lia. }
  split.
  - intros v' us'. rewrite lookup_insert. case_decide; [|by apply Hnd].
    intros ?; simplify_eq. apply NoDup_app. split; [by eapply Hnd|].
    split; [|apply NoDup_singleton].
    intros x Hxin ->%list_elem_of_singleton. done.
  - intros v' u. destruct u as [m i]. unfold recorded_in, input_in. simpl.
    destruct (decide (m = n ∧ i = length ins)) as [[-> ->]|Hne].
    + rewrite lookup_insert_eq. rewrite lookup_insert. split.
      * intros (us' & Hl & Hin). case_decide; simplify_eq.
        { eexists. split; [done|]. by apply list_lookup_middle. }
        exfalso. assert (recorded_in U v' (mkUse n (length ins))) as Hr
          by (by exists us').
        apply Hx in Hr as (ins' & Hi & Hl'). simpl in *. simplify_eq.
        apply lookup_lt_Some in Hl'. lia.
      * intros (ins' & ? & Hl). simplify_eq.
        rewrite list_lookup_middle in Hl by done. simplify_eq.
        rewrite decide_True by done. eexists. split; [done|].
        apply elem_of_app. right. by apply list_elem_of_singleton.
    + transitivity (recorded_in U v' (mkUse m i)).
      * unfold recorded_in. rewrite lookup_insert. case_decide; [subst v'|done].
        rewrite Hv. split.
        -- intros (us' & ? & Hin). simplify_eq. exists us. split; [done|].
           apply elem_of_app in Hin as [?|Hin]; [done|].
           apply list_elem_of_singleton in Hin. simplify_eq.
           exfalso. apply Hne. done.
        -- intros (us' & ? & Hin). simplify_eq. eexists. split; [done|].
           apply elem_of_app. by left.
      * rewrite Hx. unfold input_in. simpl. rewrite lookup_insert.
        case_decide; [subst m|done]. rewrite Hn. split.
        -- intros (ins' & ? & Hl). simplify_eq. eexists. split; [done|].
           rewrite lookup_app_l; [done|]. by eapply lookup_lt_Some.
        -- intros (ins' & ? & Hl). simplify_eq. exists ins. split; [done|].
           destruct (decide (i < length ins)).
           { by rewrite lookup_app_l in Hl. }
           rewrite lookup_app_r in Hl by lia.
           destruct (i - length ins) as [|k] eqn:E; simpl in Hl; [|done].
           exfalso. apply Hne. split; [done|]. lia.
Qed.

Lemma exact_replace_first I U old new u rest usn :
  U !! old = Some (u :: rest) → U !! new = Some usn → old ≠ new → exact I U →
  ∃ ins, I !! user u = Some ins ∧ ins !! offset u = Some old
    ∧ exact (<[user u := <[offset u := new]> ins]> I)
            (<[old := rest]> (<[new := usn ++ [u]]> U)).
Proof.
  intros Hold Hnew Hne [Hnd Hx].
  assert (input_in I old u) as (ins & Hins & Hoff).
  { apply Hx. exists (u :: rest). split; [done|]. apply list_elem_of_here. }
  exists ins. split; [done|]. split; [done|].
  pose proof (Hnd _ _ Hold) as Hndo.
  apply NoDup_cons in Hndo as [Hu Hrest].
  assert (u ∉ usn) as Hun.
  { intros Hin. assert (input_in I new u) as (ins' & ? & ?).
    { apply Hx. by exists usn. }
    simplify_eq. }
  split.
  - intros v us. rewrite lookup_insert. case_decide; [intros; by simplify_eq|].
    rewrite lookup_insert. case_decide; [|by apply Hnd].
    intros ?; simplify_eq. apply NoDup_app. split; [by eapply Hnd|].
    split; [|apply NoDup_singleton].
    intros x Hxin ->%list_elem_of_singleton. done.
  - intros v u'.
    assert (input_in (<[user u := <[offset u := new]> ins]> I) v u'
            ↔ if decide (u' = u) then v = new else input_in I v u') as ->.
    { unfold input_in. case_decide as Hu'; [subst u'|].
      - rewrite lookup_insert_eq. split.
        + intros (? & ? & Hl). simplify_eq.
          rewrite list_lookup_insert_eq in Hl by (by eapply lookup_lt_Some).
          by simplify_eq.
        + intros ->. eexists. split; [done|].
          apply list_lookup_insert_eq. by eapply lookup_lt_Some.
      - rewrite lookup_insert. case_decide as Hus; [|done].
        rewrite <- Hus, Hins. split.
        + intros (? & ? & Hl). simplify_eq.
          rewrite list_lookup_insert_ne in Hl; [eauto|].
          intros Ho. apply Hu'. destruct u, u'. simpl in *. congruence.
        + intros (? & ? & Hl). simplify_eq. eexists. split; [done|].
          rewrite list_lookup_insert_ne; [done|].
          intros Ho. apply Hu'. destruct u, u'. simpl in *. congruence. }
    unfold recorded_in. rewrite lookup_insert. case_decide; [subst v|].
    + split.
      * intros (us & ? & Hin). simplify_eq. rewrite decide_False by congruence.
        apply Hx. eexists. split; [exact Hold|]. by apply list_elem_of_further.
      * case_decide; [done|]. intros Hin. apply Hx in Hin as (us & ? & Hin).
        simplify_eq. apply elem_of_cons in Hin as [?|?]; [done|]. eauto.
    + rewrite lookup_insert. case_decide; [subst v|].
      * split.
        -- intros (us & ? & Hin). simplify_eq. case_decide; [done|].
           apply Hx. exists usn. split; [done|].
           apply elem_of_app in Hin as [?|Hin]; [done|].
           by apply list_elem_of_singleton in Hin.
        -- case_decide; [subst u'|].
           ++ intros _. eexists. split; [done|]. apply elem_of_app. right.
              by apply list_elem_of_singleton.
           ++ intros Hin. apply Hx in Hin as (us & ? & Hin). simplify_eq.
              eexists. split; [done|]. apply elem_of_app. by left.
      * case_decide; [subst u'|by apply Hx]. split.
        -- intros Hr. apply Hx in Hr as (ins' & ? & ?). simplify_eq.
        -- done.
Qed.

Lemma exact_delete_unused I U v :
  U !! v = Some [] → exact I U → exact I (delete v U).
Proof.
  intros Hv [Hnd Hx]. split.
  - intros v' us. rewrite lookup_delete. case_decide; [done|]. apply Hnd.
  - intros v' u. rewrite <- Hx. unfold recorded_in. rewrite lookup_delete.
    case_decide; [subst v'|done]. rewrite Hv. split.
    + intros (? & ? & _). done.
    + intros (us & ? & Hin). simplify_eq. by apply elem_of_nil in Hin.
Qed.

Lemma erase_first_NoDup {A} `{EqDecision A} (x : A) (l : list A) :
  NoDup l → NoDup (erase_first x l) ∧ ∀ y, y ∈ erase_first x l ↔ y ∈ l ∧ y ≠ x.
Proof.
  induction 1 as [|a l Ha Hl IH]; simpl.
  - split; [constructor|]. intros y. rewrite elem_of_nil. tauto.
  - destruct IH as [IH1 IH2]. case_decide; [subst a|].
    + split; [done|]. intros y. rewrite elem_of_cons. split.
      * intros Hy. split; [by right|]. by intros ->.
      * intros [[?|?] ?]; done.
    + split.
      * constructor; [|done]. rewrite IH2. tauto.
      * intros y. rewrite !elem_of_cons, IH2. split.
        -- intros [->|[? ?]]; auto.
        -- intros [[->|?] ?]; auto.
Qed.

Lemma exact_drop I U n k v ins us :
  I !! n = Some ins → ins !! k = Some v → U !! v = Some us →
  exact_upto n k I U →
  exact_upto n (S k) I (<[v := erase_first (mkUse n k) us]> U).
Proof.
  intros Hn Hk Hv [Hnd Hx].
  destruct (erase_first_NoDup (mkUse n k) us (Hnd _ _ Hv)) as [He1 He2].
  split.
  - intros v' us'. rewrite lookup_insert. case_decide; [|by apply Hnd].
    intros ?; by simplify_eq.
  - intros v' u.
    assert ((user u = n ∧ offset u < S k)
            ↔ (user u = n ∧ offset u < k) ∨ u = mkUse n k) as Hsplit.
    { destruct u as [m i]. simpl. split.
      - intros [-> Hi]. destruct (decide (i = k)) as [->|]; [by right|].
        left. split; [done|lia].
      - intros [[-> ?]|?]; simplify_eq; split; (done || lia). }
    rewrite Hsplit.
    destruct (decide (v = v')) as [<-|Hvne].
    + unfold recorded_in. rewrite lookup_insert_eq. split.
      * intros (us' & ? & Hin). simplify_eq. apply He2 in Hin as [Hin Hne].
        assert (recorded_in U v u) as Hr by (by exists us).
        apply Hx in Hr as [Hi Hnk]. split; [done|]. tauto.
      * intros [Hi Hnk]. eexists. split; [done|]. apply He2.
        assert (recorded_in U v u) as (us' & ? & ?) by (apply Hx; tauto).
        simplify_eq. split; [done|]. tauto.
    + assert (recorded_in (<[v := erase_first (mkUse n k) us]> U) v' u
              ↔ recorded_in U v' u) as ->.
      { unfold recorded_in. by rewrite lookup_insert_ne. }
      rewrite Hx. split.
      * intros [Hi Hnk]. split; [done|]. intros [?|Hu]; [done|]. subst u.
        destruct Hi as (ins' & ? & ?). simpl in *. simplify_eq.
      * intros [Hi Hnk]. split; [done|]. tauto.
Qed.

Lemma exact_delete_node I U n ins :
  I !! n = Some ins → exact_upto n (length ins) I U → exact (delete n I) U.
Proof.
  intros Hn [Hnd Hx]. split; [done|]. intros v u. rewrite Hx.
  unfold input_in. rewrite lookup_delete. case_decide as Hu.
  - rewrite <- Hu, Hn. split.
    + intros [(ins' & ? & Hl) Hnot]. simplify_eq. exfalso. apply Hnot.
      split; [done|]. by eapply lookup_lt_Some.
    + intros (? & ? & _). done.
  - split; [by intros [? _]|]. intros ?. split; [done|]. intros [? _]. done.
Qed.
End Exact.

(** ** The rewriter: building the new node *)

Section Build.
Context `{TensorBackend}.

Lemma insert_before_split n ref l :
  ref ∈ l →
  ∃ l1 l2, l = l1 ++ ref :: l2 ∧ (ref ∉ l1)
           ∧ insert_before n ref l = l1 ++ n :: ref :: l2.
Proof.
  induction l as [|x l IH]; intros Hin; [by apply elem_of_nil in Hin|].
  simpl. destruct (decide (x = ref)) as [->|Hne].
  - exists [], l. split; [done|]. split; [apply not_elem_of_nil|done].
  - apply elem_of_cons in Hin as [->|Hin]; [done|].
    destruct (IH Hin) as (l1 & l2 & -> & Hn1 & ->).
    exists (x :: l1), l2. split; [done|]. split; [|done].
    rewrite elem_of_cons. intros [?|?]; by simplify_eq.
Qed.

Ltac mlook H :=
  repeat first
    [ rewrite lookup_insert_eq in H
    | rewrite lookup_insert_ne in H by (done || congruence || lia) ].

Ltac mlookg :=
  repeat first
    [ rewrite lookup_insert_eq
    | rewrite lookup_insert_ne by (done || congruence || lia) ].

(** The run of lines 118-135 on a well-formed graph, step by step: what
    the new node, the two new values, the Param nodes of the top-level block
    and of block [b], the node list of the normalization's block and the
    table look like afterwards. *)
Lemma buildNewConv_trace b c convW convB st st' newConv newConvW newConvB
    conv bn bnOut bo :
  graph_closed (graph st) →
  g_nodes (graph st) !! c_oldConv c = Some conv →
  g_nodes (graph st) !! c_bnNode c = Some bn →
  n_outputs bn !! 0 = Some bnOut →
  g_values (graph st) !! bnOut = Some bo →
  buildNewConv b c convW convB st = (st', Ok (newConv, newConvW, newConvB)) →
  let nn := g_next_node (graph st) in
  let nu := g_next_unique (graph st) in
  ∃ in0 xin0 bnBlock blk l1 l2,
    newConv = nn ∧ newConvW = S nu ∧ newConvB = S (S nu)
    ∧ g_nodes (graph st) !! nn = None
    ∧ (∀ k, g_values (graph st) !! (nu + k) = None)
    ∧ n_inputs conv !! 0 = Some in0
    ∧ g_values (graph st) !! in0 = Some xin0
    ∧ n_owning_block bn = Some bnBlock
    ∧ g_blocks (graph st) !! bnBlock = Some blk
    ∧ b_nodes blk = l1 ++ c_bnNode c :: l2
    ∧ g_blocks (graph st')
      = <[bnBlock := set_b_nodes (l1 ++ nn :: c_bnNode c :: l2) blk]>
          (g_blocks (graph st))
    ∧ g_nodes (graph st') !! nn
      = Some (mkNode onnx_Conv [in0; S nu; S (S nu)] [nu] (n_attrs conv) []
                     (Some bnBlock))
    ∧ g_values (graph st') !! nu = Some (mkValue nn [] (v_type bo) None)
    ∧ inputs_of (graph st') = <[nn := [in0; S nu; S (S nu)]]> (inputs_of (graph st))
    ∧ uses_of (graph st')
      = <[S (S nu) := [mkUse nn 2]]>
          (<[S nu := [mkUse nn 1]]>
             (<[in0 := v_uses xin0 ++ [mkUse nn 0]]>
                (<[nu := []]> (uses_of (graph st)))))
    ∧ node_kept (graph st) (graph st')
    ∧ (∀ v x, g_values (graph st) !! v = Some x → v ≠ in0 →
         g_values (graph st') !! v = Some x)
    ∧ heap st' = heap st
    ∧ g_block (graph st') = g_block (graph st)
    ∧ ∃ pinR pinB pr pb tw tb,
        b_input <$> g_blocks (graph st) !! g_block (graph st) = Some pinR
        ∧ b_input <$> g_blocks (graph st) !! b = Some pinB
        ∧ (∀ k, b_input <$> g_blocks (graph st') !! k
                = b_input <$> g_blocks (graph st) !! k)
        ∧ g_nodes (graph st) !! pinR = Some pr
        ∧ g_nodes (graph st) !! pinB = Some pb
        ∧ heap st !! convW = Some tw ∧ heap st !! convB = Some tb
        ∧ valsToParamsMap st'
          = map_insert (S (S nu)) (pretty (S (S nu)), IVTensor convB)
              (map_insert (S nu) (pretty (S nu), IVTensor convW)
                 (valsToParamsMap st))
        ∧ g_values (graph st') !! S nu
          = Some (mkValue pinR [mkUse nn 1]
                    (TensorTypeOf (t_dtype tw) (t_sizes tw)) None)
        ∧ g_values (graph st') !! S (S nu)
          = Some (mkValue pinB [mkUse nn 2]
                    (TensorTypeOf (t_dtype tb) (t_sizes tb)) None)
        ∧ n_outputs <$> g_nodes (graph st') !! pinR
          = Some (n_outputs pr ++ S nu
                  :: (if decide (pinB = pinR) then [S (S nu)] else []))
        ∧ (pinB ≠ pinR →
           n_outputs <$> g_nodes (graph st') !! pinB
           = Some (n_outputs pb ++ [S (S nu)])).
Proof.
  intros (HcN & HcV & HcB & HcR) Hconv0 Hbn0 HbnOut0 Hbo0 Hr.
  unfold buildNewConv in Hr.
  destruct st as [[nodes values blocks root nu nn] hp mp]. simpl in *.
  assert (∀ n nd, nodes !! n = Some nd → n ≠ nn) as HfreshN.
  { intros n nd Hn. apply HcN in Hn as [Hlt _]. simpl in Hlt. lia. }
  assert (∀ v x, values !! v = Some x → v < nu) as HfreshV.
  { intros v x Hv. by apply HcV in Hv as [Hlt _]. }
  assert (nodes !! nn = None) as HnnNone.
  { destruct (nodes !! nn) eqn:E; [|done]. by apply HfreshN in E. }
  assert (values !! nu = None) as HnuNone.
  { destruct (values !! nu) eqn:E; [|done]. apply HfreshV in E. lia. }
  pose proof (HfreshN _ _ Hconv0) as HneC. pose proof (HfreshN _ _ Hbn0) as HneB.
  pose proof (HfreshV _ _ Hbo0) as HltBo.
  apply bind_ok in Hr as (nc & st1 & Hk & Hr).
  apply create1_ok in Hk as [-> ->]. unfold upd_graph in Hr; simpl in Hr.
  apply bind_ok in Hr as (ncn & ? & Hk & Hr). apply getNode_ok in Hk as [-> Hk].
  simpl in Hk. mlook Hk. simplify_eq.
  apply bind_ok in Hr as (bn1 & ? & Hk & Hr). apply getNode_ok in Hk as [-> Hk].
  simpl in Hk. mlook Hk. simplify_eq.
  apply bind_ok in Hr as (newOut & ? & Hk & Hr). apply at_ok in Hk as [-> Hk].
  simpl in Hk. injection Hk as <-.
  apply bind_ok in Hr as (bnOut1 & ? & Hk & Hr). apply at_ok in Hk as [-> Hk].
  simplify_eq.
  apply bind_ok in Hr as (? & st2 & Hk & Hr).
  apply copyMetadata_ok in Hk as (bo1 & no & Hbo1 & Hno & ->).
  simpl in Hbo1, Hno. mlook Hbo1. mlook Hno. simplify_eq.
  unfold upd_graph in Hr; simpl in Hr.
  apply bind_ok in Hr as (? & st3 & Hk & Hr).
  apply copyAttributes_ok in Hk as (conv1 & nc1 & Hconv1 & Hnc1 & ->).
  simpl in Hconv1, Hnc1. mlook Hconv1. mlook Hnc1. simplify_eq.
  unfold upd_graph in Hr; simpl in Hr.
  apply bind_ok in Hr as (? & st4 & Hk & Hr).
  apply insertBefore_ok in Hk
    as (bn2 & nc2 & bnBlock & blk & Hbn2 & Hnc2 & Hob & Hon & Hblk & ->).
  simpl in Hbn2, Hnc2, Hblk. mlook Hbn2. mlook Hnc2. simplify_eq.
  unfold upd_graph in Hr; simpl in Hr.
  rewrite ?insert_insert_eq in Hr.
  assert (∀ bk blkx,
    <[bnBlock := set_b_nodes (insert_before nn (c_bnNode c) (b_nodes blk)) blk]>
      blocks !! bk = Some blkx → b_input blkx ≠ nn) as HparamNe.
  { intros bk blkx Hbk.
    assert (∃ blk0, blocks !! bk = Some blk0 ∧ b_input blk0 = b_input blkx)
      as (blk0 & Hblk0 & <-).
    { destruct (decide (bnBlock = bk)) as [->|Hneb].
      - mlook Hbk. simplify_eq. eauto.
      - mlook Hbk. eauto. }
    apply HcB in Hblk0 as ([p Hp] & _). by apply HfreshN in Hp. }
  apply bind_ok in Hr as (conv2 & ? & Hk & Hr). apply getNode_ok in Hk as [-> Hk].
  simpl in Hk. mlook Hk. simplify_eq.
  apply bind_ok in Hr as (in0 & ? & Hk & Hr). apply at_ok in Hk as [-> Hin0].
  apply bind_ok in Hr as (? & st5 & Hk & Hr).
  apply addInput_ok in Hk as (nc3 & xin0 & Hnc3 & Hx0 & ->).
  simpl in Hnc3, Hx0. mlook Hnc3. simplify_eq.
  assert (in0 ≠ nu) as Hin0ne.
  { apply HcN in Hconv0 as (_ & Hins & _).
    rewrite Forall_forall in Hins.
    destruct (Hins in0) as [xi Hxi]; [by eapply list_elem_of_lookup_2|].
    apply HfreshV in Hxi. lia. }
  mlook Hx0.
  unfold upd_graph in Hr; simpl in Hr. rewrite ?insert_insert_eq in Hr.
  apply bind_ok in Hr as (newW & st6 & Hk & Hr).
  apply graph_addInput_ok, block_addInput_ok in Hk
    as (rblk & pr & Hrblk & Hpr & -> & ->).
  simpl in Hrblk, Hpr.
  pose proof (HparamNe _ _ Hrblk) as HprNe.
  mlook Hpr.
  unfold upd_graph in Hr; simpl in Hr.
  apply bind_ok in Hr as (nameW & ? & Hk & Hr).
  apply debugName_ok in Hk as (-> & xw & Hxw & ->).
  apply bind_ok in Hr as (? & st7 & Hk & Hr). apply modifyMap_ok in Hk as ->.
  simpl in Hr.
  apply bind_ok in Hr as (? & st8 & Hk & Hr).
  apply inferTypeFrom_ok in Hk as (tw & dw & Htw & Hdw & ->).
  simpl in Hdw. mlook Hdw. simplify_eq.
  unfold upd_graph in Hr; simpl in Hr. rewrite ?insert_insert_eq in Hr.
  apply bind_ok in Hr as (? & st9 & Hk & Hr).
  apply addInput_ok in Hk as (nc4 & xin1 & Hnc4 & Hx1 & ->).
  simpl in Hnc4, Hx1. mlook Hnc4. mlook Hx1. simplify_eq.
  unfold upd_graph in Hr; simpl in Hr. rewrite ?insert_insert_eq in Hr.
  apply bind_ok in Hr as (newB & st10 & Hk & Hr).
  apply block_addInput_ok in Hk as (bblk & pb & Hbblk & Hpb & -> & ->).
  simpl in Hbblk, Hpb.
  pose proof (HparamNe _ _ Hbblk) as HpbNe.
  mlook Hpb.
  unfold upd_graph in Hr; simpl in Hr.
  apply bind_ok in Hr as (nameB & ? & Hk & Hr).
  apply debugName_ok in Hk as (-> & xb & Hxb & ->).
  apply bind_ok in Hr as (? & st11 & Hk & Hr). apply modifyMap_ok in Hk as ->.
  simpl in Hr.
  apply bind_ok in Hr as (? & st12 & Hk & Hr).
  apply inferTypeFrom_ok in Hk as (tb & db & Htb & Hdb & ->).
  simpl in Hdb. mlook Hdb. simplify_eq.
  unfold upd_graph in Hr; simpl in Hr. rewrite ?insert_insert_eq in Hr.
  apply bind_ok in Hr as (? & st13 & Hk & Hr).
  apply addInput_ok in Hk as (nc5 & xin2 & Hnc5 & Hx2 & ->).
  simpl in Hnc5, Hx2. mlook Hnc5. mlook Hx2. simplify_eq.
  unfold upd_graph in Hr; simpl in Hr. rewrite ?insert_insert_eq in Hr.
  apply ret_ok in Hr as [-> Hr]. simplify_eq.
  assert (c_bnNode c ∈ b_nodes blk) as Hmem.
  { apply HcN in Hbn0 as (_ & _ & _ & _ & Hown). rewrite Hob in Hown. simpl in Hown.
    by rewrite Hblk in Hown. }
  destruct (insert_before_split nn (c_bnNode c) _ Hmem) as (l1 & l2 & Hl & Hnl1 & Hins).
  simpl. exists in0, xin0, bnBlock, blk, l1, l2.
  split; [done|]. split; [done|]. split; [done|]. split; [done|].
  split. { intros k. destruct (values !! (nu + k)) eqn:E; [|done].
           apply HfreshV in E. lia. }
  split; [done|]. split; [done|]. split; [done|]. split; [done|]. split; [done|].
  split. { by rewrite Hins. }
  split. { by mlookg. }
  split. { by mlookg. }
  assert (∃ pb0, nodes !! b_input bblk = Some pb0
            ∧ n_kind pb = n_kind pb0 ∧ n_inputs pb = n_inputs pb0
            ∧ n_outputs pb0 `prefix_of` n_outputs pb
            ∧ n_attrs pb = n_attrs pb0 ∧ n_blocks pb = n_blocks pb0
            ∧ n_owning_block pb = n_owning_block pb0)
    as (pb0 & Hpb0 & Hpbk & Hpbi & Hpbo & Hpba & Hpbb & Hpbw).
  { rewrite lookup_insert in Hpb. case_decide as Hrb.
    - simplify_eq. exists pr. rewrite <- Hrb. split; [done|]. simpl.
      repeat split; try done. by apply prefix_app_r.
    - mlook Hpb. exists pb. repeat split; done. }
  split.
  { unfold inputs_of. simpl. rewrite !fmap_insert. simpl. apply map_eq. intros k.
    destruct (decide (k = nn)) as [->|Hk]; [by mlookg|]. mlookg.
    destruct (decide (k = b_input bblk)) as [->|Hkb].
    - mlookg. by rewrite lookup_fmap, Hpb0, Hpbi.
    - mlookg. destruct (decide (k = b_input rblk)) as [->|Hkr].
      + mlookg. by rewrite lookup_fmap, Hpr.
      + by mlookg. }
  split.
  { unfold uses_of. simpl. rewrite !fmap_insert. simpl.
    by rewrite !insert_insert_eq. }
  split.
  { intros n nd Hn. simpl in *. pose proof (HfreshN _ _ Hn) as Hnn. mlookg.
    destruct (decide (n = b_input bblk)) as [->|Hkb].
    - mlookg. eexists. split; [done|]. simpl. simplify_eq.
      repeat split; try done. etrans; [exact Hpbo|]. by apply prefix_app_r.
    - mlookg. destruct (decide (n = b_input rblk)) as [->|Hkr].
      + mlookg. simplify_eq. eexists. split; [done|]. simpl.
        repeat split; try done. by apply prefix_app_r.
      + mlookg. eexists. split; [done|]. done. }
  split.
  { intros v xv Hv Hvne. pose proof (HfreshV _ _ Hv). by mlookg. }
  split; [done|]. split; [done|].
  simpl in Hxw, Hxb. mlook Hxw. mlook Hxb.
  injection Hxw as <-. injection Hxb as <-. simpl.
  assert (∀ k,
    b_input <$> <[bnBlock := set_b_nodes
                    (insert_before nn (c_bnNode c) (b_nodes blk)) blk]> blocks !! k
    = b_input <$> blocks !! k) as HbI.
  { intros k. destruct (decide (bnBlock = k)) as [<-|Hnk].
    - by rewrite lookup_insert_eq, Hblk.
    - by rewrite lookup_insert_ne. }
  exists (b_input rblk), (b_input bblk), pr, pb0, tw, tb.
  split. { by rewrite <- HbI, Hrblk. }
  split. { by rewrite <- HbI, Hbblk. }
  split; [exact HbI|]. split; [exact Hpr|]. split; [exact Hpb0|].
  split; [exact Htw|]. split; [exact Htb|]. split; [done|].
  split. { by mlookg. }
  split. { by mlookg. }
  rewrite lookup_insert in Hpb.
  destruct (decide (b_input rblk = b_input bblk)) as [Heq|Hneq].
  - injection Hpb as <-. rewrite Heq in *. rewrite decide_True by done.
    split; [|done]. mlookg. simpl. by rewrite <- app_assoc.
  - rewrite decide_False by done. split.
    + by mlookg.
    + intros _. mlookg. simpl. mlook Hpb. rewrite Hpb0 in Hpb.
      by injection Hpb as <-.
Qed.

Lemma buildNewConv_ok b c convW convB st st' newConv newConvW newConvB
    conv bn bnOut bo :
  graph_closed (graph st) →
  g_nodes (graph st) !! c_oldConv c = Some conv →
  g_nodes (graph st) !! c_bnNode c = Some bn →
  n_outputs bn !! 0 = Some bnOut →
  g_values (graph st) !! bnOut = Some bo →
  buildNewConv b c convW convB st = (st', Ok (newConv, newConvW, newConvB)) →
  let nn := g_next_node (graph st) in
  let nu := g_next_unique (graph st) in
  ∃ in0 xin0 bnBlock blk l1 l2,
    newConv = nn ∧ newConvW = S nu ∧ newConvB = S (S nu)
    ∧ g_nodes (graph st) !! nn = None
    ∧ (∀ k, g_values (graph st) !! (nu + k) = None)
    ∧ n_inputs conv !! 0 = Some in0
    ∧ g_values (graph st) !! in0 = Some xin0
    ∧ n_owning_block bn = Some bnBlock
    ∧ g_blocks (graph st) !! bnBlock = Some blk
    ∧ b_nodes blk = l1 ++ c_bnNode c :: l2
    ∧ g_blocks (graph st')
      = <[bnBlock := set_b_nodes (l1 ++ nn :: c_bnNode c :: l2) blk]>
          (g_blocks (graph st))
    ∧ g_nodes (graph st') !! nn
      = Some (mkNode onnx_Conv [in0; S nu; S (S nu)] [nu] (n_attrs conv) []
                     (Some bnBlock))
    ∧ g_values (graph st') !! nu = Some (mkValue nn [] (v_type bo) None)
    ∧ inputs_of (graph st') = <[nn := [in0; S nu; S (S nu)]]> (inputs_of (graph st))
    ∧ uses_of (graph st')
      = <[S (S nu) := [mkUse nn 2]]>
          (<[S nu := [mkUse nn 1]]>
             (<[in0 := v_uses xin0 ++ [mkUse nn 0]]>
                (<[nu := []]> (uses_of (graph st)))))
    ∧ node_kept (graph st) (graph st')
    ∧ (∀ v x, g_values (graph st) !! v = Some x → v ≠ in0 →
         g_values (graph st') !! v = Some x)
    ∧ heap st' = heap st
    ∧ g_block (graph st') = g_block (graph st).
Proof.
  intros Hcl Hconv Hbn HbnOut Hbo Hr nn nu.
  destruct (buildNewConv_trace _ _ _ _ _ _ _ _ _ _ _ _ _ Hcl Hconv Hbn HbnOut Hbo Hr)
    as (in0 & xin0 & bnBlock & blk & l1 & l2 & Hall).
  exists in0, xin0, bnBlock, blk, l1, l2.
  do 18 (destruct Hall as [Hx Hall]; split; [exact Hx|clear Hx]).
  exact (proj1 Hall).
Qed.
End Build.

(** ** The rewriter: redirecting the consumers and destroying the old nodes *)

Section Commit.
Context `{TensorBackend}.

Lemma is_input_alt g v u : is_input g v u ↔ input_in (inputs_of g) v u.
Proof.
  unfold is_input, input_in, inputs_of. rewrite lookup_fmap.
  destruct (g_nodes g !! user u) as [nd|]; simpl;
    [|split; [done|by intros (? & ? & ?)]].
  split; [eauto|]. by intros (? & ? & ?); simplify_eq.
Qed.

Lemma is_recorded_alt g v u : is_recorded g v u ↔ recorded_in (uses_of g) v u.
Proof.
  unfold is_recorded, recorded_in, uses_of. rewrite lookup_fmap.
  destruct (g_values g !! v) as [x|]; simpl;
    [|split; [done|by intros (? & ? & ?)]].
  split; [eauto|]. by intros (? & ? & ?); simplify_eq.
Qed.

Lemma uses_exact_alt g : uses_exact g ↔ exact (inputs_of g) (uses_of g).
Proof.
  unfold uses_exact, exact. split.
  - intros [HV HN]. split.
    + intros v us. unfold uses_of. rewrite lookup_fmap.
      destruct (g_values g !! v) as [x|] eqn:Hv; simpl; [|done].
      intros ?; simplify_eq. by apply HV in Hv as [? _].
    + intros v u. rewrite <- is_input_alt, <- is_recorded_alt. split.
      * unfold is_recorded. destruct (g_values g !! v) as [x|] eqn:Hv; [|done].
        simpl. intros Hin. apply HV in Hv as [_ Hall].
        rewrite Forall_forall in Hall. by apply Hall.
      * unfold is_input. destruct (g_nodes g !! user u) as [nd|] eqn:Hn; [|done].
        simpl. intros Hl. apply HN in Hn. rewrite Forall_forall in Hn.
        specialize (Hn (offset u, v)). simpl in Hn. destruct u as [m i].
        apply Hn. apply list_elem_of_lookup. exists i.
        rewrite list_lookup_imap. simpl in *. by rewrite Hl.
  - intros [Hnd Hx]. split.
    + intros v x Hv. split.
      * apply (Hnd v). unfold uses_of. by rewrite lookup_fmap, Hv.
      * apply Forall_forall. intros u Hu. apply is_input_alt, Hx.
        exists (v_uses x). split; [|done]. unfold uses_of.
        by rewrite lookup_fmap, Hv.
    + intros n nd Hn. apply Forall_forall. intros [i v] Hin. simpl.
      apply list_elem_of_lookup in Hin as [j Hj].
      rewrite list_lookup_imap in Hj.
      destruct (n_inputs nd !! j) eqn:Hl; simpl in Hj; [|done]. simplify_eq.
      apply is_recorded_alt, Hx. exists (n_inputs nd). split; [|done].
      unfold inputs_of. simpl. by rewrite lookup_fmap, Hn.
Qed.

Lemma nodes_but_inputs_refl N : nodes_but_inputs N N.
Proof. done. Qed.

Lemma nodes_but_inputs_trans N1 N2 N3 :
  nodes_but_inputs N1 N2 → nodes_but_inputs N2 N3 → nodes_but_inputs N1 N3.
Proof. intros H1 H2 n. by rewrite H2, H1. Qed.

Lemma values_but_uses_trans V1 V2 V3 :
  values_but_uses V1 V2 → values_but_uses V2 V3 → values_but_uses V1 V3.
Proof. intros H1 H2 n. by rewrite H2, H1. Qed.

Lemma nodes_but_inputs_insert N n nd l :
  N !! n = Some nd → nodes_but_inputs N (<[n := set_inputs l nd]> N).
Proof.
  intros Hn m. rewrite lookup_insert. case_decide; [subst m|done].
  by rewrite Hn.
Qed.

Lemma values_but_uses_insert V v x l :
  V !! v = Some x → values_but_uses V (<[v := set_uses l x]> V).
Proof.
  intros Hn m. rewrite lookup_insert. case_decide; [subst m|done].
  by rewrite Hn.
Qed.

Lemma nodes_but_inputs_lookup N N' n nd :
  nodes_but_inputs N N' → N !! n = Some nd →
  ∃ nd', N' !! n = Some nd' ∧ n_kind nd' = n_kind nd
         ∧ n_outputs nd' = n_outputs nd ∧ n_blocks nd' = n_blocks nd
         ∧ n_owning_block nd' = n_owning_block nd ∧ n_attrs nd' = n_attrs nd.
Proof.
  intros HN Hn. specialize (HN n). rewrite Hn in HN.
  destruct (N' !! n) as [nd'|]; simpl in HN; [|done].
  exists nd'. split; [done|]. destruct nd, nd'. unfold set_inputs in HN.
  simpl in *. by simplify_eq.
Qed.

Lemma replaceFirstUseWith_ok old new r st st' :
  replaceFirstUseWith old new st = (st', Ok r) → old ≠ new →
  ∃ o u rest un nv,
    g_values (graph st) !! old = Some o ∧ v_uses o = u :: rest
    ∧ g_nodes (graph st) !! user u = Some un
    ∧ g_values (graph st) !! new = Some nv
    ∧ st' = upd_graph (λ g,
        set_values (λ V, <[old := set_uses rest o]>
                           (<[new := set_uses (v_uses nv ++ [u]) nv]> V))
          (set_nodes (<[user u := set_inputs (<[offset u := new]> (n_inputs un)) un]>)
             g)) st.
Proof.
  unfold replaceFirstUseWith. intros Hr Hne.
  apply bind_ok in Hr as (o & ? & Hk & Hr). apply getValue_ok in Hk as [-> Ho].
  destruct (v_uses o) as [|u rest] eqn:Huses; [by apply throw_ok in Hr|].
  apply bind_ok in Hr as (un & ? & Hk & Hr). apply getNode_ok in Hk as [-> Hun].
  apply bind_ok in Hr as (? & ? & Hk & Hr). apply modifyGraph_ok in Hk as ->.
  apply bind_ok in Hr as (nv & ? & Hk & Hr). apply getValue_ok in Hk as [-> Hnv].
  apply bind_ok in Hr as (? & ? & Hk & Hr). apply modifyGraph_ok in Hk as ->.
  apply bind_ok in Hr as (o' & ? & Hk & Hr). apply getValue_ok in Hk as [-> Ho'].
  apply modifyGraph_ok in Hr as ->.
  simpl in *. rewrite lookup_insert_ne in Ho' by done. simplify_eq.
  exists o, u, rest, un, nv. rewrite Huses. simpl. done.
Qed.

Lemma replaceAll_loop old new (l : list Use) : ∀ st st' r us usn,
  forM_ l (λ _, replaceFirstUseWith old new) st = (st', Ok r) → old ≠ new →
  exact (inputs_of (graph st)) (uses_of (graph st)) →
  uses_of (graph st) !! old = Some us → length l = length us →
  uses_of (graph st) !! new = Some usn →
  exact (inputs_of (graph st')) (uses_of (graph st'))
  ∧ uses_of (graph st') !! new = Some (usn ++ us)
  ∧ uses_of (graph st') !! old = Some []
  ∧ nodes_but_inputs (g_nodes (graph st)) (g_nodes (graph st'))
  ∧ values_but_uses (g_values (graph st)) (g_values (graph st'))
  ∧ g_blocks (graph st') = g_blocks (graph st).
Proof.
  induction l as [|a l IH]; intros st st' r us usn Hr Hne Hex Hold Hlen Hnew.
  - simpl in Hr. apply ret_ok in Hr as [-> _].
    destruct us; [|done]. rewrite app_nil_r. done.
  - simpl in Hr. apply bind_ok in Hr as (u0 & st1 & Hk & Hr).
    apply replaceFirstUseWith_ok in Hk
      as (o & u & rest & un & nv & Ho & Huses & Hun & Hnv & ->); [|done].
    assert (us = u :: rest) as ->.
    { unfold uses_of in Hold. rewrite lookup_fmap, Ho in Hold. simpl in Hold.
      congruence. }
    assert (usn = v_uses nv) as ->.
    { unfold uses_of in Hnew. rewrite lookup_fmap, Hnv in Hnew. simpl in Hnew.
      congruence. }
    destruct (exact_replace_first _ _ _ _ _ _ _ Hold Hnew Hne Hex)
      as (ins & Hins & Hoff & Hex1).
    assert (ins = n_inputs un) as ->.
    { unfold inputs_of in Hins. rewrite lookup_fmap, Hun in Hins. simpl in Hins.
      congruence. }
    assert (inputs_of (graph (upd_graph (λ g,
        set_values (λ V, <[old := set_uses rest o]>
                           (<[new := set_uses (v_uses nv ++ [u]) nv]> V))
          (set_nodes (<[user u := set_inputs (<[offset u := new]> (n_inputs un)) un]>)
             g)) st))
      = <[user u := <[offset u := new]> (n_inputs un)]> (inputs_of (graph st)))
      as HI1.
    { unfold inputs_of. simpl. by rewrite fmap_insert. }
    assert (uses_of (graph (upd_graph (λ g,
        set_values (λ V, <[old := set_uses rest o]>
                           (<[new := set_uses (v_uses nv ++ [u]) nv]> V))
          (set_nodes (<[user u := set_inputs (<[offset u := new]> (n_inputs un)) un]>)
             g)) st))
      = <[old := rest]> (<[new := v_uses nv ++ [u]]> (uses_of (graph st))))
      as HU1.
    { unfold uses_of. simpl. by rewrite !fmap_insert. }
    eapply (IH _ _ _ rest (v_uses nv ++ [u])) in Hr; [|done| | | |].
    + destruct Hr as (Hex' & Hn' & Ho' & HN & HV & HB).
      split; [done|]. split; [by rewrite <- app_assoc in Hn'|].
      split; [done|]. split; [|split].
      * eapply nodes_but_inputs_trans; [|exact HN]. simpl.
        by apply nodes_but_inputs_insert.
      * eapply values_but_uses_trans; [|exact HV]. simpl.
        eapply values_but_uses_trans; [by apply values_but_uses_insert|].
        apply values_but_uses_insert. by rewrite lookup_insert_ne.
      * by rewrite HB.
    + by rewrite HI1, HU1.
    + rewrite HU1. apply lookup_insert_eq.
    + simpl in Hlen. lia.
    + rewrite HU1. rewrite lookup_insert_ne by done. apply lookup_insert_eq.
Qed.

Lemma replaceAllUsesWith_ok old new st st' r us usn :
  replaceAllUsesWith old new st = (st', Ok r) → old ≠ new →
  exact (inputs_of (graph st)) (uses_of (graph st)) →
  uses_of (graph st) !! old = Some us →
  uses_of (graph st) !! new = Some usn →
  exact (inputs_of (graph st')) (uses_of (graph st'))
  ∧ uses_of (graph st') !! new = Some (usn ++ us)
  ∧ uses_of (graph st') !! old = Some []
  ∧ nodes_but_inputs (g_nodes (graph st)) (g_nodes (graph st'))
  ∧ values_but_uses (g_values (graph st)) (g_values (graph st'))
  ∧ g_blocks (graph st') = g_blocks (graph st).
Proof.
  unfold replaceAllUsesWith. intros Hr Hne Hex Hold Hnew.
  apply bind_ok in Hr as (o & ? & Hk & Hr). apply getValue_ok in Hk as [-> Ho].
  eapply replaceAll_loop in Hr; eauto.
  unfold uses_of in Hold. rewrite lookup_fmap, Ho in Hold. simpl in Hold.
  congruence.
Qed.

Lemma eraseOutput_ok v r st st' :
  eraseOutput v st = (st', Ok r) →
  ∃ x, g_values (graph st) !! v = Some x ∧ v_uses x = []
       ∧ st' = upd_graph (set_values (delete v)) st.
Proof.
  unfold eraseOutput. intros Hr.
  apply bind_ok in Hr as (x & ? & Hk & Hr). apply getValue_ok in Hk as [-> Hx].
  destruct (decide (v_uses x = [])); [|by apply throw_ok in Hr].
  apply modifyGraph_ok in Hr. eauto.
Qed.

Lemma eraseOutputs_ok (l : list nat) : ∀ st st' r,
  forM_ l eraseOutput st = (st', Ok r) →
  exact (inputs_of (graph st)) (uses_of (graph st)) →
  exact (inputs_of (graph st')) (uses_of (graph st'))
  ∧ g_nodes (graph st') = g_nodes (graph st)
  ∧ g_blocks (graph st') = g_blocks (graph st)
  ∧ (∀ v, v ∈ l → g_values (graph st') !! v = None)
  ∧ (∀ v, g_values (graph st) !! v = None → g_values (graph st') !! v = None).
Proof.
  induction l as [|v l IH]; intros st st' r Hr Hex; simpl in Hr.
  - apply ret_ok in Hr as [-> _].
    split; [done|]. split; [done|]. split; [done|]. split; [|done].
    intros v Hv. by apply elem_of_nil in Hv.
  - apply bind_ok in Hr as (u0 & st1 & Hk & Hr).
    apply eraseOutput_ok in Hk as (x & Hx & Hu & ->).
    apply IH in Hr as (Hex' & HN & HB & Hout & Hnone).
    + split; [done|]. split; [done|]. split; [done|]. split.
      * intros v' [->|Hv']%elem_of_cons; [|by apply Hout].
        apply Hnone. simpl. apply lookup_delete_eq.
      * intros v' Hv'. apply Hnone. simpl.
        rewrite lookup_delete. by case_decide.
    + unfold inputs_of, uses_of. simpl. rewrite fmap_delete.
      apply exact_delete_unused; [|done].
      by rewrite lookup_fmap, Hx; simpl; rewrite Hu.
Qed.

Lemma dropInput_ok n p r st st' :
  dropInput n p st = (st', Ok r) →
  ∃ x, g_values (graph st) !! p.2 = Some x
       ∧ st' = upd_graph (set_values
                 (<[p.2 := set_uses (erase_first (mkUse n p.1) (v_uses x)) x]>)) st.
Proof.
  unfold dropInput. intros Hr.
  apply bind_ok in Hr as (x & ? & Hk & Hr). apply getValue_ok in Hk as [-> Hx].
  destruct (decide (mkUse n p.1 ∈ v_uses x)); [|by apply throw_ok in Hr].
  apply modifyGraph_ok in Hr. eauto.
Qed.

Lemma dropInputs_ok n ins (l : list nat) : ∀ k st st' r,
  forM_ (imap (λ i, pair (k + i)) l) (dropInput n) st = (st', Ok r) →
  inputs_of (graph st) !! n = Some ins → drop k ins = l →
  exact_upto n k (inputs_of (graph st)) (uses_of (graph st)) →
  exact_upto n (length ins) (inputs_of (graph st')) (uses_of (graph st'))
  ∧ g_nodes (graph st') = g_nodes (graph st)
  ∧ g_blocks (graph st') = g_blocks (graph st)
  ∧ (∀ v, g_values (graph st) !! v = None → g_values (graph st') !! v = None).
Proof.
  induction l as [|v l IH]; intros k st st' r Hr Hn Hdrop Hex; simpl in Hr.
  - apply ret_ok in Hr as [-> _].
    assert (length ins ≤ k) as Hk.
    { apply (f_equal length) in Hdrop. rewrite length_drop in Hdrop.
      simpl in Hdrop. lia. }
    split; [|done]. destruct Hex as [Hnd Hx]. split; [done|].
    intros v u. rewrite Hx. split; intros [Hi Hnot]; (split; [done|]).
    + intros [Hu Hlt]. destruct Hi as (ins' & Hi1 & Hi2). rewrite Hu in Hi1.
      simplify_eq. apply lookup_lt_Some in Hi2. apply Hnot. split; [done|]. lia.
    + intros [Hu Hlt]. destruct Hi as (ins' & Hi1 & Hi2). rewrite Hu in Hi1.
      simplify_eq. apply lookup_lt_Some in Hi2. apply Hnot. split; [done|]. lia.
  - apply bind_ok in Hr as (u0 & st1 & Hk & Hr).
    apply dropInput_ok in Hk as (x & Hx & ->). simpl in Hx.
    rewrite Nat.add_0_r in *.
    assert (ins !! k = Some v) as Hkv.
    { rewrite <- (Nat.add_0_r k), <- lookup_drop, Hdrop. done. }
    erewrite (imap_ext _ (λ i, pair (S k + i))) in Hr;
      [|intros i y _; unfold compose; f_equal; lia].
    apply IH in Hr as (Hex' & HN & HB & Hnone).
    + split; [done|]. split; [done|]. split; [done|].
      intros v' Hv'. apply Hnone. simpl. rewrite lookup_insert_ne; [done|].
      intros <-. simpl in *. congruence.
    + done.
    + replace (S k) with (k + 1) by lia. by rewrite <- drop_drop, Hdrop.
    + unfold uses_of. simpl. rewrite fmap_insert. simpl.
      eapply exact_drop; eauto.
      unfold uses_of. by rewrite lookup_fmap, Hx.
Qed.

Lemma removeFromList_ok n r st st' :
  removeFromList n st = (st', Ok r) →
  g_nodes (graph st') = g_nodes (graph st)
  ∧ g_values (graph st') = g_values (graph st).
Proof.
  unfold removeFromList. intros Hr.
  apply bind_ok in Hr as (nd & ? & Hk & Hr). apply getNode_ok in Hk as [-> Hnd].
  destruct (n_owning_block nd); [|by apply ret_ok in Hr as [-> _]].
  apply bind_ok in Hr as (blk & ? & Hk & Hr). apply getBlock_ok in Hk as [-> Hb].
  by apply modifyGraph_ok in Hr as ->.
Qed.

Lemma destroy_ok n r st st' :
  destroy n st = (st', Ok r) →
  exact (inputs_of (graph st)) (uses_of (graph st)) →
  ∃ nd, g_nodes (graph st) !! n = Some nd
    ∧ g_nodes (graph st') = delete n (g_nodes (graph st))
    ∧ exact (inputs_of (graph st')) (uses_of (graph st'))
    ∧ (∀ v, v ∈ n_outputs nd → g_values (graph st') !! v = None)
    ∧ (∀ v, g_values (graph st) !! v = None → g_values (graph st') !! v = None).
Proof.
  unfold destroy. intros Hr Hex.
  apply bind_ok in Hr as (nd & ? & Hk & Hr). apply getNode_ok in Hk as [-> Hnd].
  apply bind_ok in Hr as (u1 & st1 & Hk & Hr).
  apply eraseOutputs_ok in Hk as (Hex1 & HN1 & HB1 & Hout1 & Hnone1); [|done].
  apply bind_ok in Hr as (u2 & st2 & Hk & Hr).
  destruct (decide (n_blocks nd = [])); [|by apply throw_ok in Hk].
  apply ret_ok in Hk as [-> _].
  apply bind_ok in Hr as (u3 & st3 & Hk & Hr).
  erewrite (imap_ext _ (λ i, pair (0 + i))) in Hk by done.
  apply (dropInputs_ok n (n_inputs nd)) in Hk as (Hex3 & HN3 & HB3 & Hnone3).
  2:{ unfold inputs_of. by rewrite HN1, lookup_fmap, Hnd. }
  2:{ done. }
  2:{ by apply exact_upto_0. }
  apply bind_ok in Hr as (u4 & st4 & Hk & Hr).
  apply removeFromList_ok in Hk as [HN4 HV4].
  apply modifyGraph_ok in Hr as ->. simpl.
  exists nd. split; [done|]. split; [by rewrite HN4, HN3, HN1|].
  split.
  { unfold inputs_of, uses_of in *. simpl. rewrite fmap_delete, HN4, HV4.
    eapply exact_delete_node; [|exact Hex3].
    by rewrite HN3, HN1, lookup_fmap, Hnd. }
  split.
  - intros v Hv. rewrite HV4. apply Hnone3, Hout1. by apply elem_of_reverse.
  - intros v Hv. rewrite HV4. by apply Hnone3, Hnone1.
Qed.

Lemma destroyCurrent_ok b it r st st' :
  destroyCurrent b it st = (st', Ok r) →
  ∃ u st1, destroy it st = (st1, Ok u) ∧ st' = st1.
Proof.
  unfold destroyCurrent, prev_in_block. intros Hr.
  apply bind_ok in Hr as (cur & st0 & Hk & Hr).
  assert (st0 = st) as ->.
  { apply bind_ok in Hk as (blk & ? & Hk & Hk'). apply getBlock_ok in Hk as [-> _].
    destruct (decide _); [by apply ret_ok in Hk' as [-> _]|].
    destruct (decide _); [by apply ret_ok in Hk' as [-> _]|].
    by apply throw_ok in Hk'. }
  apply bind_ok in Hr as (u & st1 & Hk' & Hr).
  apply ret_ok in Hr as [-> _]. eauto.
Qed.
End Commit.

(** C3 (the new node).  When lines 118-135 run to the end on a well-formed
    graph, the graph holds a node that was not there before, of kind Conv,
    with exactly one output, with the attributes of the original Conv, whose
    output carries the type of the normalization's output, placed
    immediately before the normalization node in that node's block, and
    whose inputs are, in order, input 0 of the original Conv, the new weight
    input and the new bias input. *)
Theorem newConv_built `{TensorBackend} b c convW convB st st'
    newConv newConvW newConvB conv bn bnOut bo :
  graph_closed (graph st) →
  g_nodes (graph st) !! c_oldConv c = Some conv →
  g_nodes (graph st) !! c_bnNode c = Some bn →
  n_outputs bn !! 0 = Some bnOut →
  g_values (graph st) !! bnOut = Some bo →
  buildNewConv b c convW convB st = (st', Ok (newConv, newConvW, newConvB)) →
  NewConvBuilt c st st' newConv newConvW newConvB conv bn bo.
Proof.
  intros Hcl Hconv Hbn HbnOut Hbo Hr.
  destruct (buildNewConv_ok _ _ _ _ _ _ _ _ _ _ _ _ _ Hcl Hconv Hbn HbnOut Hbo Hr)
    as (in0 & xin0 & bnBlock & blk & l1 & l2 & -> & -> & -> & HnN & HvN & Hin0
        & Hxin0 & Hown & Hblk & Hl & Hblocks & Hnc & Ho & _).
  unfold NewConvBuilt.
  eexists _, (g_next_unique (graph st)), _, in0, bnBlock, blk, _, l1, l2.
  split; [done|]. split; [exact Hnc|]. simpl.
  split; [done|]. split; [done|]. split; [done|].
  split. { specialize (HvN 0). by rewrite Nat.add_0_r in HvN. }
  split; [exact Ho|]. simpl.
  split; [done|]. split; [done|]. split; [done|]. split; [done|].
  split; [done|]. split; [done|].
  split. { rewrite Hblocks. apply lookup_insert_eq. }
  done.
Qed.

(** ** A whole fusion *)

Section Fusion.
Context `{TensorBackend}.

Lemma foldBatchNorm_graph c st : graph (foldBatchNorm c st).1 = graph st.
Proof.
  apply (stable_foldBatchNorm (λ s, graph s = graph st)); [| |done].
  - by intros x s.
  - by intros x s.
Qed.

(** C5 (use-list integrity).  After a successful fusion on a well-formed
    graph whose use lists were exact: every consumer position that read the
    normalization's output (other than in the two destroyed nodes) now reads
    the new Conv node's output; the normalization's output value, the
    normalization node and the original convolution node are gone from the
    graph; and the use list of every remaining value is again exactly the
    set of (node, input position) places where it is an input. *)
Theorem fusion_keeps_use_lists_exact b it st st' newConv newConvW newConvB it' :
  graph_closed (graph st) →
  uses_exact (graph st) →
  fuseConv b it st = (st', Ok (Fused newConv newConvW newConvB it')) →
  FusionCommitted st st' it newConv.
Proof.
  intros Hcl Hux Hr. unfold fuseConv in Hr.
  apply bind_ok in Hr as (m & st1 & Hm & Hr).
  destruct m as [c|]; [|by apply ret_ok in Hr as [_ ?]].
  apply matchConvBatchNorm_Some in Hm as [v Hv].
  destruct Hv as (HcC & Hconv & Hout0 & Ho & Huses & HcB & Hbn & Hkind & Harity
                  & _ & _ & _ & _ & _ & _ & Hg1 & _).
  apply bind_ok in Hr as (wb & st2 & Hf & Hr).
  assert (graph st2 = graph st) as Hg2.
  { pose proof (foldBatchNorm_graph c st1) as Hg. rewrite Hf in Hg. simpl in Hg.
    congruence. }
  apply bind_ok in Hr as (new & st3 & Hb & Hr).
  apply bind_ok in Hr as (it2 & st4 & Hc & Hr).
  apply ret_ok in Hr as [-> Hr].
  destruct new as [[newConv0 newConvW0] newConvB0]. simpl in *.
  injection Hr as <- <- <- <-.
  set (conv := mv_conv v) in *. set (bn := mv_bn v) in *. set (u := mv_u v) in *.
  (* the normalization node has an output 0, which is a value of the graph *)
  assert (∃ bnOut, n_outputs bn !! 0 = Some bnOut) as [bnOut HbnOut].
  { apply lookup_lt_is_Some. rewrite <- Harity. by eapply lookup_lt_Some. }
  pose proof Hcl as (HcN & HcV & HcB' & HcR).
  assert (∃ bo, g_values (graph st) !! bnOut = Some bo) as [bo Hbo].
  { apply HcN in Hbn as (_ & _ & Houts & _). rewrite Forall_forall in Houts.
    apply Houts. by eapply list_elem_of_lookup_2. }
  rewrite <- HcB in Hbn.
  rewrite <- HcC in Hconv.
  rewrite <- Hg2 in Hcl, Hconv, Hbn, Hbo.
  destruct (buildNewConv_ok b c wb.1 wb.2 st2 st3 newConv newConvW newConvB
              conv bn bnOut bo Hcl Hconv Hbn HbnOut Hbo Hb) as
    (in0 & xin0 & bnBlock & blk & l1 & l2 & -> & -> & -> & HnN & HvN & Hin0
     & Hxin0 & Hown & Hblk & Hl & Hblocks & Hnc & Hno & HI3 & HU3 & Hkept
     & Hvkept & _).
  rewrite Hg2 in *.
  set (nn := g_next_node (graph st)) in *.
  set (nu := g_next_unique (graph st)) in *.
  set (I := inputs_of (graph st)) in *. set (U := uses_of (graph st)) in *.
  apply uses_exact_alt in Hux. fold I U in Hux.
  assert (∀ w x, g_values (graph st) !! w = Some x → w < nu) as HfreshV.
  { intros w x Hw. by apply HcV in Hw as [? _]. }
  assert (U !! in0 = Some (v_uses xin0)) as HUin0.
  { unfold U, uses_of. by rewrite lookup_fmap, Hxin0. }
  assert (∀ k, U !! (nu + k) = None) as HUN.
  { intros k. unfold U, uses_of. by rewrite lookup_fmap, HvN. }
  pose proof (HfreshV _ _ Hxin0) as Hin0lt.
  pose proof (HfreshV _ _ Hbo) as Hbolt.
  (* integrity after the new node has been built *)
  assert (exact (inputs_of (graph st3)) (uses_of (graph st3))) as Hex3.
  { rewrite HI3, HU3.
    assert (I !! nn = None) as HIn.
    { unfold I, inputs_of. by rewrite lookup_fmap, HnN. }
    pose proof (exact_fresh_node _ _ nn HIn Hux) as E1.
    pose proof (HUN 0) as HU0. rewrite Nat.add_0_r in HU0.
    pose proof (HUN 1) as HU1. rewrite Nat.add_1_r in HU1.
    pose proof (HUN 2) as HU2. replace (nu + 2) with (S (S nu)) in HU2 by lia.
    pose proof (exact_fresh_value _ _ nu HU0 E1) as E2.
    assert (<[nu := []]> U !! in0 = Some (v_uses xin0)) as Ha
      by (by rewrite lookup_insert_ne by lia).
    pose proof (exact_add_input _ _ nn in0 [] (v_uses xin0)
                  (lookup_insert_eq _ _ _) Ha E2) as E3.
    simpl in E3. rewrite insert_insert_eq in E3.
    assert (<[in0 := v_uses xin0 ++ [mkUse nn 0]]> (<[nu := []]> U) !! S nu = None)
      as Hb' by (by rewrite !lookup_insert_ne by lia).
    pose proof (exact_fresh_value _ _ (S nu) Hb' E3) as E4.
    pose proof (exact_add_input _ _ nn (S nu) [in0] []
                  (lookup_insert_eq _ _ _) (lookup_insert_eq _ _ _) E4) as E5.
    simpl in E5. rewrite !insert_insert_eq in E5.
    assert (<[S nu := [mkUse nn 1]]>
              (<[in0 := v_uses xin0 ++ [mkUse nn 0]]> (<[nu := []]> U))
              !! S (S nu) = None)
      as Hc' by (by rewrite !lookup_insert_ne by lia).
    pose proof (exact_fresh_value _ _ (S (S nu)) Hc' E5) as E6.
    pose proof (exact_add_input _ _ nn (S (S nu)) [in0; S nu] []
                  (lookup_insert_eq _ _ _) (lookup_insert_eq _ _ _) E6) as E7.
    simpl in E7. by rewrite !insert_insert_eq in E7. }
  (* lines 137-139 *)
  unfold commitFusion in Hc.
  apply bind_ok in Hc as (nc & s0 & Hk & Hc). apply getNode_ok in Hk as [-> Hk].
  rewrite Hnc in Hk. injection Hk as <-.
  apply bind_ok in Hc as (bn3 & s0 & Hk & Hc). apply getNode_ok in Hk as [-> Hbn3].
  destruct (Hkept _ _ Hbn) as (bn3' & Hbn3' & _ & _ & Hpre & _).
  rewrite Hbn3 in Hbn3'. injection Hbn3' as <-.
  apply bind_ok in Hc as (newOut & s0 & Hk & Hc). apply at_ok in Hk as [-> Hk].
  simpl in Hk. injection Hk as <-.
  apply bind_ok in Hc as (bnOut' & s0 & Hk & Hc). apply at_ok in Hk as [-> Hk].
  rewrite (prefix_lookup_Some _ _ _ _ HbnOut Hpre) in Hk. injection Hk as <-.
  assert (bnOut ≠ nu) as Hne by lia.
  assert (uses_of (graph st3) !! nu = Some []) as HU3nu.
  { rewrite HU3. by rewrite !lookup_insert_ne, lookup_insert_eq by lia. }
  assert (∃ us, uses_of (graph st3) !! bnOut = Some us
                ∧ ∀ w, recorded_in U bnOut w → w ∈ us) as (us & HU3b & Hus).
  { rewrite HU3. rewrite !lookup_insert_ne by lia.
    destruct (decide (in0 = bnOut)) as [->|Hib].
    - rewrite lookup_insert_eq. eexists. split; [done|].
      intros w (us' & Hl' & Hin). rewrite HUin0 in Hl'. injection Hl' as <-.
      apply elem_of_app. by left.
    - rewrite !lookup_insert_ne by lia.
      exists (v_uses bo). split; [by unfold U, uses_of; rewrite lookup_fmap, Hbo|].
      intros w (us' & Hl' & Hin). unfold U, uses_of in Hl'.
      rewrite lookup_fmap, Hbo in Hl'. simpl in Hl'. by injection Hl' as <-. }
  apply bind_ok in Hc as (u1 & st5 & Hk & Hc).
  apply (replaceAllUsesWith_ok _ _ _ _ _ us []) in Hk
    as (Hex5 & HU5n & HU5o & HN5 & HV5 & HB5); [|done..].
  apply bind_ok in Hc as (u2 & st6 & Hk & Hc).
  apply destroy_ok in Hk as (bn6 & Hbn6 & HN6 & Hex6 & Hout6 & Hnone6); [|done].
  apply destroyCurrent_ok in Hc as (u3 & st7 & Hk' & ->).
  apply destroy_ok in Hk' as (cv7 & Hcv7 & HN7 & Hex7 & Hout7 & Hnone7); [|done].
  (* the two old nodes are distinct, and distinct from the new one *)
  assert (c_oldConv c ≠ c_bnNode c) as Hcb.
  { intros Heq. rewrite HN6, Heq, lookup_delete_eq in Hcv7. done. }
  assert (c_bnNode c ≠ nn) as Hbnn by (intros Heq; rewrite Heq, HnN in Hbn; done).
  assert (c_oldConv c ≠ nn) as Hcnn by (intros Heq; rewrite Heq, HnN in Hconv; done).
  destruct (nodes_but_inputs_lookup _ _ _ _ HN5 Hnc) as (nc5 & Hnc5 & _ & Honc5 & _).
  destruct (nodes_but_inputs_lookup _ _ _ _ HN5 Hbn3) as (bn5 & Hbn5 & _ & Hobn5 & _).
  rewrite Hbn6 in Hbn5. injection Hbn5 as <-.
  unfold FusionCommitted.
  exists conv, (mv_out0 v), (mv_o v), u, bn, bnOut, nc5, nu.
  rewrite <- HcC, <- HcB.
  split; [done|]. split; [done|]. split; [done|]. split; [done|].
  split; [done|]. split; [done|].
  split. { rewrite HN7, HN6. by rewrite !lookup_delete_ne. }
  split; [done|].
  split.
  { intros m i Hin Hm1 Hm2. apply is_input_alt in Hin. fold I in Hin.
    apply is_input_alt.
    assert (recorded_in (uses_of (graph st5)) nu (mkUse m i)) as Hrec.
    { eexists. split; [exact HU5n|]. simpl. apply Hus. by apply Hux. }
    apply Hex5 in Hrec as (ins & Hi1 & Hi2). simpl in *.
    exists ins. split; [|done]. simpl. unfold inputs_of in *.
    rewrite HN7, HN6. rewrite !fmap_delete. by rewrite !lookup_delete_ne. }
  split.
  { apply Hnone7, Hout6. rewrite Hobn5.
    eapply list_elem_of_lookup_2, prefix_lookup_Some; done. }
  split. { rewrite HN7, HN6. rewrite lookup_delete_ne by done. apply lookup_delete_eq. }
  split. { rewrite HN7. apply lookup_delete_eq. }
  by apply uses_exact_alt.
Qed.
End Fusion.

(** ** Candidates that do not match *)

Section Skipping.
Context `{TensorBackend}.

Lemma numeric_precondition_rejected w s b m v :
  numeric_precondition w s b m v = negb (rejected s b m v w).
Proof.
  unfold numeric_precondition, rejected. simpl.
  destruct (isFloatingType (t_dtype w)), (isFloatingType (t_dtype s)),
    (isFloatingType (t_dtype b)), (isFloatingType (t_dtype m)),
    (isFloatingType (t_dtype v)); simpl; try done.
  unfold t_dim.
  destruct (t_sizes s) as [|C [|? ?]]; simpl; try done;
    try (repeat (case_bool_decide; simpl; try done); fail).
  destruct (t_sizes b) as [|Cb [|? ?]]; simpl; try done;
    try (repeat (case_bool_decide; simpl; try done); fail).
  destruct (t_sizes m) as [|Cm [|? ?]]; simpl; try done;
    try (repeat (case_bool_decide; simpl; try done); fail).
  destruct (t_sizes v) as [|Cv [|? ?]]; simpl; try done;
    try (repeat (case_bool_decide; simpl; try done); fail).
  repeat (case_bool_decide; simpl; try done); simplify_eq.
Qed.

Lemma inputs_ok st n nd :
  graph_closed (graph st) → state_typed st →
  g_nodes (graph st) !! n = Some nd → Forall (input_ok st) (n_inputs nd).
Proof.
  intros (HcN & HcV & _) (HtN & HtM) Hn.
  apply HcN in Hn as (_ & Hins & _).
  eapply Forall_impl; [exact Hins|]. intros val [v Hv]. simpl in Hv.
  pose proof (HcV _ _ Hv) as (_ & [def Hdef] & _).
  exists v, def. split; [done|]. split; [done|]. split.
  - intros _ e He. apply HtM in He. unfold typed_entry in He.
    destruct (e.2); [eauto|done].
  - intros Hk. apply HtN in Hdef as (_ & _ & Hc). specialize (Hc Hk).
    unfold is_attr_t in Hc.
    destruct (find_attr (n_attrs def) "value") as [[]|]; try done. eauto.
Qed.

Lemma resolve_valid st val t :
  state_typed st → resolve st val = Some t → t < length (heap st).
Proof.
  intros (HtN & HtM). unfold resolve. intros Hr.
  destruct (g_values (graph st) !! val) as [v|]; simpl in Hr; [|done].
  destruct (g_nodes (graph st) !! v_node v) as [def|] eqn:Hdef; simpl in Hr;
    [|done].
  destruct (decide (n_kind def = prim_Param)) as [HkP|HkP].
  - destruct (valsToParamsMap st !! val) as [en|] eqn:He; simpl in Hr; [|done].
    apply HtM in He. unfold typed_entry in He. destruct (en.2); by simplify_eq.
  - destruct (decide (n_kind def = onnx_Constant)) as [Hk|]; [|done].
    apply HtN in Hdef as (_ & _ & Hc). specialize (Hc Hk). unfold is_attr_t in Hc.
    destruct (find_attr (n_attrs def) "value") as [[]|]; by simplify_eq.
Qed.

Lemma run_getNode n nd st :
  g_nodes (graph st) !! n = Some nd → getNode n st = (st, Ok nd).
Proof. intros Hn. unfold getNode, getGraph, bind, lift. simpl. by rewrite Hn. Qed.

Lemma run_getValue v x st :
  g_values (graph st) !! v = Some x → getValue v st = (st, Ok x).
Proof. intros Hn. unfold getValue, getGraph, bind, lift. simpl. by rewrite Hn. Qed.

Lemma run_getBlock b x st :
  g_blocks (graph st) !! b = Some x → getBlock b st = (st, Ok x).
Proof. intros Hn. unfold getBlock, getGraph, bind, lift. simpl. by rewrite Hn. Qed.

Lemma run_at {A} (l : list A) i a st : l !! i = Some a → at_ l i st = (st, Ok a).
Proof. intros Hl. unfold at_, lift. by rewrite Hl. Qed.

Lemma run_getValues n nd st :
  graph_closed (graph st) → state_typed st →
  g_nodes (graph st) !! n = Some nd →
  getValues n st = (st, Ok (omap (resolve st) (n_inputs nd))).
Proof.
  intros Hcl Ht Hn. unfold getValues.
  erewrite bind_run by (by apply run_getNode).
  rewrite getValues_loop_total; [done|]. by eapply inputs_ok.
Qed.

Lemma run_at_clone (l : list Tensor) i t x st :
  l !! i = Some t → heap st !! t = Some x →
  (let* t := at_ l i in clone t) st = (alloc x st, Ok (length (heap st))).
Proof.
  intros Hl Ht. erewrite bind_run by (by apply run_at). by apply run_clone.
Qed.

(** On a closed, typed state the matcher returns: it never throws. *)
Lemma matchConvBatchNorm_total it st conv :
  graph_closed (graph st) → state_typed st →
  g_nodes (graph st) !! it = Some conv → n_kind conv = onnx_Conv →
  ∃ st' r, matchConvBatchNorm it st = (st', Ok r).
Proof.
  intros Hcl Ht Hconv Hkind.
  pose proof Hcl as (HcN & HcV & _). pose proof Ht as (HtN & HtM).
  unfold matchConvBatchNorm.
  erewrite bind_run by (by apply run_getNode).
  assert (∃ out0, n_outputs conv !! 0 = Some out0) as [out0 Hout0].
  { apply HtN in Hconv as (Hc & _). specialize (Hc Hkind).
    destruct (n_outputs conv); [done|]. eauto. }
  erewrite bind_run by (by apply run_at).
  assert (∃ o, g_values (graph st) !! out0 = Some o) as [o Ho].
  { apply HcN in Hconv as (_ & _ & Houts & _). rewrite Forall_forall in Houts.
    apply Houts. by eapply list_elem_of_lookup_2. }
  erewrite bind_run by (by apply run_getValue).
  destruct (decide (length (v_uses o) ≠ 1)) as [|Hlen]; [by eexists _, _|].
  assert (∃ u, v_uses o = [u]) as [u Hu].
  { destruct (v_uses o) as [|u [|]]; simpl in *; try lia. eauto. }
  erewrite bind_run by (apply run_at; by rewrite Hu).
  assert (∃ bn, g_nodes (graph st) !! user u = Some bn) as [bn Hbn].
  { apply HcV in Ho as (_ & _ & Hus). rewrite Hu in Hus.
    rewrite Forall_singleton in Hus. exact Hus. }
  erewrite bind_run by (by apply run_getNode).
  destruct (decide (n_kind bn ≠ onnx_BatchNormalization)) as [|Hk];
    [by eexists _, _|].
  destruct (decide (length (n_outputs conv) ≠ length (n_outputs bn)));
    [by eexists _, _|].
  assert (∃ eps, find_attr (n_attrs bn) "epsilon" = Some (attr_f eps)) as [eps Heps].
  { pose proof (HtN _ _ Hbn) as (_ & Hb & _).
    assert (n_kind bn = onnx_BatchNormalization) as Hk'
      by (by destruct (decide (n_kind bn = onnx_BatchNormalization))).
    specialize (Hb Hk'). unfold is_attr_f in Hb.
    destruct (find_attr (n_attrs bn) "epsilon") as [[]|]; try done. eauto. }
  erewrite bind_run by (unfold attr_get_f; rewrite Heps; reflexivity).
  erewrite bind_run by (by apply run_getValues).
  destruct (decide _) as [|Hcnt]; [by eexists _, _|].
  erewrite bind_run by (by apply run_getValues).
  destruct (decide _) as [|Hbcnt]; [by eexists _, _|].
  set (cv := omap (resolve st) (n_inputs conv)) in *.
  set (bv := omap (resolve st) (n_inputs bn)) in *.
  assert (∀ (l : list nat) i, l = cv ∨ l = bv → i < length l →
            ∃ t x, l !! i = Some t ∧ heap st !! t = Some x) as Hvalid.
  { intros l i Hl Hi. destruct (lookup_lt_is_Some_2 l i Hi) as [t Hti].
    assert (∃ val, resolve st val = Some t) as [val Hval].
    { apply list_elem_of_lookup_2 in Hti.
      destruct Hl as [->| ->]; apply list_elem_of_omap in Hti
        as (val & _ & ?); eauto. }
    apply resolve_valid in Hval; [|done].
    destruct (lookup_lt_is_Some_2 _ _ Hval) as [x Hx]. eauto. }
  destruct (Hvalid bv 0) as (t0 & x0 & Ht0 & Hx0); [by right|lia|].
  destruct (Hvalid bv 1) as (t1 & x1 & Ht1 & Hx1); [by right|lia|].
  destruct (Hvalid bv 2) as (t2 & x2 & Ht2 & Hx2); [by right|lia|].
  destruct (Hvalid bv 3) as (t3 & x3 & Ht3 & Hx3); [by right|lia|].
  destruct (Hvalid cv 0) as (tw & xw & Htw & Hxw); [by left|lia|].
  erewrite bind_run by (eapply run_at_clone; [exact Ht0|exact Hx0]).
  erewrite bind_run
    by (eapply run_at_clone; [exact Ht1|apply alloc_lookup; exact Hx1]).
  erewrite bind_run
    by (eapply run_at_clone; [exact Ht2|do 2 apply alloc_lookup; exact Hx2]).
  erewrite bind_run
    by (eapply run_at_clone; [exact Ht3|do 3 apply alloc_lookup; exact Hx3]).
  erewrite bind_run
    by (eapply run_at_clone; [exact Htw|do 4 apply alloc_lookup; exact Hxw]).
  erewrite bind_run by (apply run_impl; do 4 apply alloc_lookup; apply alloc_lookup_new).
  erewrite bind_run by (apply run_impl; do 3 apply alloc_lookup; apply alloc_lookup_new).
  erewrite bind_run by (apply run_impl; do 2 apply alloc_lookup; apply alloc_lookup_new).
  erewrite bind_run by (apply run_impl; do 1 apply alloc_lookup; apply alloc_lookup_new).
  erewrite bind_run by (apply run_impl; apply alloc_lookup_new).
  destruct (rejected _ _ _ _ _); by eexists _, _.
Qed.

Lemma read_valid st (l : list Tensor) i x k :
  (∀ t, t ∈ l → t < length (heap st)) →
  read (heap st ++ k) (l !! i) = Some x → read (heap st) (l !! i) = Some x.
Proof.
  intros Hl. unfold read. destruct (l !! i) as [t|] eqn:Hi; simpl; [|done].
  rewrite lookup_app_l; [done|]. apply Hl. by eapply list_elem_of_lookup_2.
Qed.

(** A candidate the matcher accepts satisfies the matcher of the
    specification. *)
Lemma matched_spec_matches it c st st' :
  state_typed st →
  matchConvBatchNorm it st = (st', Ok (Some c)) → spec_matches st it = true.
Proof.
  intros Ht Hm. apply matchConvBatchNorm_Some in Hm as [v Hv].
  destruct Hv as (_ & Hconv & Hout0 & Ho & Huses & _ & Hbn & Hkind & Harity & _
                  & Hcv & Hc1 & Hc3 & Hbv & Hb4 & _ & _ & Hheap & _ & _ & _ & _ & _
                  & Hr0 & Hr1 & Hr2 & Hr3 & Hrw & Hrej).
  unfold spec_matches. rewrite Hconv, Hout0. simpl. rewrite Ho, Huses, Hbn.
  rewrite <- Hcv, <- Hbv.
  assert (∀ t, t ∈ c_convInputVals c → t < length (heap st)) as Hvc.
  { intros t Hin. rewrite Hcv in Hin.
    apply list_elem_of_omap in Hin as (val & _ & Hval).
    by eapply resolve_valid. }
  assert (∀ t, t ∈ mv_bnInputVals v → t < length (heap st)) as Hvb.
  { intros t Hin. rewrite Hbv in Hin.
    apply list_elem_of_omap in Hin as (val & _ & Hval).
    by eapply resolve_valid. }
  rewrite Hheap in Hr0, Hr1, Hr2, Hr3, Hrw.
  apply read_valid in Hr0, Hr1, Hr2, Hr3, Hrw; try done.
  rewrite Hr0, Hr1, Hr2, Hr3, Hrw.
  rewrite numeric_precondition_rejected, Hrej. simpl.
  rewrite !bool_decide_eq_true_2; done.
Qed.

(** A Conv node that does not satisfy the matcher of the specification is
    skipped, on a closed and typed state: the matcher returns [continue] in
    a state with the same graph and the same table. *)
Lemma fuseConv_skips b it st conv :
  graph_closed (graph st) → state_typed st →
  g_nodes (graph st) !! it = Some conv → n_kind conv = onnx_Conv →
  spec_matches st it = false →
  ∃ st1, fuseConv b it st = (st1, Ok Skipped)
         ∧ graph st1 = graph st ∧ valsToParamsMap st1 = valsToParamsMap st.
Proof.
  intros Hcl Ht Hconv Hkind Hspec.
  destruct (matchConvBatchNorm_total it st conv Hcl Ht Hconv Hkind)
    as (st1 & r & Hm).
  destruct r as [c|].
  - apply matched_spec_matches in Hm; [congruence|done].
  - exists st1. unfold fuseConv. erewrite bind_run by exact Hm.
    split; [done|].
    pose proof (stable_matchConvBatchNorm
      (λ s, graph s = graph st ∧ valsToParamsMap s = valsToParamsMap st) it) as Hs.
    specialize (Hs ltac:(by intros x s) st (conj eq_refl eq_refl)).
    by rewrite Hm in Hs.
Qed.

(** C6, amended.  On a closed graph whose BatchNormalization nodes carry a
    float [epsilon] and whose bound parameters are tensors, a Conv node
    that fails any step of the matcher or the numeric and shape
    precondition is skipped silently: no error is signalled, and the graph
    and the binding table are the ones before. *)
Theorem mismatch_is_skipped b it st conv :
  graph_closed (graph st) → state_typed st →
  g_nodes (graph st) !! it = Some conv → n_kind conv = onnx_Conv →
  spec_matches st it = false →
  (fuseConv b it st).2 = Ok Skipped
  ∧ graph (fuseConv b it st).1 = graph st
  ∧ valsToParamsMap (fuseConv b it st).1 = valsToParamsMap st.
Proof.
  intros Hcl Ht Hconv Hkind Hspec.
  destruct (fuseConv_skips b it st conv Hcl Ht Hconv Hkind Hspec)
    as (st1 & -> & ? & ?). done.
Qed.

(** C7, amended.  On a closed graph whose BatchNormalization nodes carry a
    float [epsilon] and whose bound parameters are tensors, a Conv node
    that fails to match does not stop the traversal: the walker goes on
    with the node after it, in a state with the same graph and the same
    binding table. *)
Theorem traversal_continues_after_mismatch fuel b it st blk conv :
  graph_closed (graph st) → state_typed st →
  g_blocks (graph st) !! b = Some blk → it ≠ b_output blk →
  g_nodes (graph st) !! it = Some conv → n_kind conv = onnx_Conv →
  n_blocks conv = [] →
  spec_matches st it = false →
  ∃ st1, graph st1 = graph st ∧ valsToParamsMap st1 = valsToParamsMap st
    ∧ fuseConvBatchNorm_from (S fuel) b it st
      = (let* it2 := next_in_block b it in fuseConvBatchNorm_from fuel b it2) st1.
Proof.
  intros Hcl Ht Hblk Hend Hconv Hkind Hnb Hspec.
  destruct (fuseConv_skips b it st conv Hcl Ht Hconv Hkind Hspec)
    as (st1 & Hskip & Hg & Hmap).
  exists st1. split; [done|]. split; [done|]. simpl.
  erewrite bind_run by (by apply run_getBlock).
  rewrite decide_False by done.
  erewrite bind_run by (by apply run_getNode).
  rewrite Hnb. simpl. erewrite bind_run by reflexivity.
  erewrite bind_run by (by apply run_getNode).
  rewrite decide_True by done.
  erewrite bind_run.
  2:{ erewrite bind_run by exact Hskip. reflexivity. }
  done.
Qed.
End Skipping.

(** ** Which tensor is taken as the weight *)

Section Weight.
Context `{TensorBackend}.

Lemma stable_run {A} (P : State → Prop) (m : M A) st st' r :
  stable P m → P st → m st = (st', r) → P st'.
Proof. intros Hs HP Hm. specialize (Hs st HP). by rewrite Hm in Hs. Qed.

(** The folder returns the handle [c_convW] as the new weight, and when the
    convolution has three inputs it reads the second resolved tensor. *)
Lemma foldBatchNorm_ok c st st' w b :
  foldBatchNorm c st = (st', Ok (w, b)) →
  w = c_convW c
  ∧ ∀ conv, g_nodes (graph st) !! c_oldConv c = Some conv →
      length (n_inputs conv) = 3 → is_Some (c_convInputVals c !! 1).
Proof.
  unfold foldBatchNorm. intros Hr.
  assert (survives_alloc (λ s, graph s = graph st)) as HA by (by intros x s).
  assert (survives_write (λ s, graph s = graph st) (c_convW c)) as HW
    by (by intros x s).
  pose proof (λ x, stable_new_tensor _ x HA) as HsN.
  pose proof (λ s i, stable_mul_channel_ _ _ s i HW) as HsM.
  apply bind_ok in Hr as (v1 & st1 & H1 & Hr).
  apply (stable_run (λ s, graph s = graph st)) in H1;
    [|unfold tensor_add_scalar; solve_stable|done].
  apply bind_ok in Hr as (v2 & st2 & H2 & Hr).
  apply (stable_run (λ s, graph s = graph st)) in H2;
    [|unfold tensor_sqrt; solve_stable|done].
  apply bind_ok in Hr as (v3 & st3 & H3 & Hr).
  apply (stable_run (λ s, graph s = graph st)) in H3;
    [|unfold tensor_binop; solve_stable|done].
  apply bind_ok in Hr as (xw & st4 & H4 & Hr).
  apply impl_ok in H4 as [-> _].
  apply bind_ok in Hr as (size0 & st5 & H5 & Hr).
  apply lift_ok in H5 as [-> _].
  apply bind_ok in Hr as (u & st6 & H6 & Hr).
  apply (stable_run (λ s, graph s = graph st)) in H6; [|solve_stable|done].
  apply bind_ok in Hr as (conv & st7 & H7 & Hr).
  apply getNode_ok in H7 as [-> Hconv]. rewrite H6 in Hconv.
  destruct (decide (length (n_inputs conv) = 3)) as [H3i|H3i].
  - apply bind_ok in Hr as (b0 & st8 & H8 & Hr).
    apply bind_ok in H8 as (t1 & st9 & H9 & _).
    apply at_ok in H9 as [_ H9].
    apply bind_ok in Hr as (b1 & st10 & _ & Hr).
    apply bind_ok in Hr as (b2 & st11 & _ & Hr).
    apply bind_ok in Hr as (b3 & st12 & _ & Hr).
    apply ret_ok in Hr as [_ Hr]. injection Hr as <- <-.
    split; [done|]. intros conv' Hc' _. eauto.
  - apply bind_ok in Hr as (b1 & st10 & _ & Hr).
    apply bind_ok in Hr as (b2 & st11 & _ & Hr).
    apply ret_ok in Hr as [_ Hr]. injection Hr as <- <-.
    split; [done|]. intros conv' Hc' Hl. rewrite Hconv in Hc'. by simplify_eq.
Qed.





End Weight.

(** ** The accessor: what it returns and when it throws *)

Section AccessorFacts.
Context `{TensorBackend}.

Lemma omap_length_le {A B} (f : A → option B) (l : list A) :
  length (omap f l) ≤ length l.
Proof.
  induction l as [|a l IH]; [done|]. cbn [omap list_omap] in *.
  destruct (f a); simpl; lia.
Qed.

Lemma omap_length_eq {A B} (f : A → option B) (l : list A) :
  length (omap f l) = length l → Forall (λ a, is_Some (f a)) l.
Proof.
  induction l as [|a l IH]; [by constructor|].
  pose proof (omap_length_le f l) as Hle. cbn [omap list_omap] in *.
  destruct (f a) eqn:E; simpl; intros Hl; [|lia].
  constructor; [done|]. apply IH. lia.
Qed.

(** X1.  When [getValues] returns, the state is the one it was called in
    and the result holds, in input order, the tensors of exactly those
    inputs of the node that resolve: unresolved inputs are dropped, not
    kept as placeholders, so the result is never longer than the input list
    and has its length only when every input resolves. *)
Theorem getValues_compacts node st st' l :
  getValues node st = (st', Ok l) →
  st' = st
  ∧ ∃ nd, g_nodes (graph st) !! node = Some nd
      ∧ l = omap (resolve st) (n_inputs nd)
      ∧ length l ≤ length (n_inputs nd)
      ∧ (length l = length (n_inputs nd) →
         Forall (λ val, is_Some (resolve st val)) (n_inputs nd)).
Proof.
  intros Hr. apply getValues_ok in Hr as (-> & nd & Hnd & ->).
  split; [done|]. exists nd. split; [done|]. split; [done|].
  split; [apply omap_length_le|]. apply omap_length_eq.
Qed.

(** The loop throws at the first input it cannot convert. *)
Lemma getValues_loop_throws pre : ∀ acc val post st e,
  Forall (input_ok st) pre →
  (∀ acc', getValues_loop (val :: post) acc' st = (st, Err e)) →
  getValues_loop (pre ++ val :: post) acc st = (st, Err e).
Proof.
  induction pre as [|p pre IH]; intros acc val post st e Hok Hbad; [apply Hbad|].
  apply Forall_cons in Hok as [Hp Hok].
  destruct Hp as (v & def & Hv & Hdef & HP & HC).
  change ((p :: pre) ++ val :: post) with (p :: (pre ++ val :: post)).
  cbn [getValues_loop].
  unfold getValue, getNode, getGraph, getMap, attr_get_t, toTensor,
    bind, lift, ret, throw.
  rewrite Hv. simpl. rewrite Hdef. simpl.
  destruct (decide (n_kind def = prim_Param)) as [HkP|HkP].
  { destruct (valsToParamsMap st !! p) as [en|] eqn:He; simpl; [|by apply IH].
    destruct (HP HkP en eq_refl) as [t Ht]. rewrite Ht. simpl. by apply IH. }
  destruct (decide (n_kind def = onnx_Constant)) as [HkC|HkC]; [|by apply IH].
  destruct (HC HkC) as [t Ht]. rewrite Ht. simpl. by apply IH.
Qed.

(** X2.  [getValues] throws at the first input it cannot convert, the
    inputs before it being fine: a Param-defined input bound in the table
    to a value that is not a tensor gives [NotATensor] (line 29), an input
    defined by a Constant node without a tensor [value] attribute gives
    [AttributeError] (line 31).  The state is left as it was. *)
Theorem getValues_throws node nd st pre val post v def e :
  g_nodes (graph st) !! node = Some nd →
  n_inputs nd = pre ++ val :: post →
  Forall (input_ok st) pre →
  g_values (graph st) !! val = Some v →
  g_nodes (graph st) !! v_node v = Some def →
  (n_kind def = prim_Param ∧ e = NotATensor
   ∧ ∃ name tag, valsToParamsMap st !! val = Some (name, IVOther tag))
  ∨ (n_kind def = onnx_Constant ∧ e = AttributeError
     ∧ ∀ t, find_attr (n_attrs def) "value" ≠ Some (attr_t t)) →
  getValues node st = (st, Err e).
Proof.
  intros Hnd Hin Hpre Hv Hdef Hbad. unfold getValues.
  erewrite bind_run by (by apply run_getNode). rewrite Hin.
  apply getValues_loop_throws; [done|]. intros acc'. cbn [getValues_loop].
  unfold getValue, getNode, getGraph, getMap, attr_get_t, toTensor,
    bind, lift, ret, throw.
  rewrite Hv. simpl. rewrite Hdef. simpl.
  destruct Hbad as [(HkP & -> & name & tag & Hm)|(HkC & -> & Hno)].
  - rewrite decide_True by done. by rewrite Hm.
  - rewrite decide_False by (rewrite HkC; done).
    rewrite decide_True by done.
    destruct (find_attr (n_attrs def) "value") as [[x|t|k]|] eqn:E; try done.
    by destruct (Hno t).
Qed.

End AccessorFacts.

(** ** The matcher: order of the checks *)

Section MatcherFacts.
Context `{TensorBackend}.

(** X3.  The three structural checks come first (lines 52-62): a Conv
    whose first output does not have exactly one use, or whose consumer is
    not a BatchNormalization, or has another number of outputs, is skipped
    with the state untouched, before any attribute or bound value is read,
    so whatever the attributes and the table hold. *)
Theorem early_rejection_is_unconditional b it st conv out0 o :
  g_nodes (graph st) !! it = Some conv →
  n_outputs conv !! 0 = Some out0 →
  g_values (graph st) !! out0 = Some o →
  (length (v_uses o) ≠ 1
   ∨ ∃ u bn, v_uses o = [u] ∧ g_nodes (graph st) !! user u = Some bn
       ∧ (n_kind bn ≠ onnx_BatchNormalization
          ∨ length (n_outputs conv) ≠ length (n_outputs bn))) →
  fuseConv b it st = (st, Ok Skipped).
Proof.
  intros Hconv Hout Ho Hcase. unfold fuseConv.
  assert (matchConvBatchNorm it st = (st, Ok None)) as Hm.
  { unfold matchConvBatchNorm.
    erewrite bind_run by (by apply run_getNode).
    erewrite bind_run by (by apply run_at).
    erewrite bind_run by (by apply run_getValue).
    destruct Hcase as [Hlen|(u & bn & Hu & Hbn & Hcase)].
    - by rewrite decide_True by done.
    - rewrite decide_False by (rewrite Hu; simpl; lia).
      erewrite bind_run by (apply run_at; by rewrite Hu).
      erewrite bind_run by (by apply run_getNode).
      destruct (decide (n_kind bn ≠ onnx_BatchNormalization)); [done|].
      destruct Hcase as [?|Hlen]; [done|].
      by rewrite decide_True by done. }
  by erewrite bind_run by exact Hm.
Qed.

(** X4.  Once the structural checks have passed, [epsilon] is read before
    anything else (line 64): if the BatchNormalization has no float
    [epsilon], the candidate ends in [AttributeError] with the state
    untouched, whatever the other preconditions say. *)
Theorem missing_epsilon_throws b it st conv out0 o u bn :
  g_nodes (graph st) !! it = Some conv →
  n_outputs conv !! 0 = Some out0 →
  g_values (graph st) !! out0 = Some o →
  v_uses o = [u] →
  g_nodes (graph st) !! user u = Some bn →
  n_kind bn = onnx_BatchNormalization →
  length (n_outputs conv) = length (n_outputs bn) →
  (∀ x, find_attr (n_attrs bn) "epsilon" ≠ Some (attr_f x)) →
  fuseConv b it st = (st, Err AttributeError).
Proof.
  intros Hconv Hout Ho Hu Hbn Hk Hlen Hno. unfold fuseConv.
  erewrite bind_fail; [done|]. unfold matchConvBatchNorm.
  erewrite bind_run by (by apply run_getNode).
  erewrite bind_run by (by apply run_at).
  erewrite bind_run by (by apply run_getValue).
  rewrite decide_False by (rewrite Hu; simpl; lia).
  erewrite bind_run by (apply run_at; by rewrite Hu).
  erewrite bind_run by (by apply run_getNode).
  rewrite decide_False by (intros Hne; by apply Hne).
  rewrite decide_False by (intros Hne; by apply Hne).
  erewrite bind_fail; [done|]. unfold attr_get_f.
  destruct (find_attr (n_attrs bn) "epsilon") as [[x|t|k]|] eqn:E; try done.
  by destruct (Hno x).
Qed.

(** X6.  A fusion is only ever performed on a candidate that satisfies
    every step of the matcher and the numeric and shape precondition. *)
Theorem fusion_only_on_match b it st st' newConv newConvW newConvB it' :
  state_typed st →
  fuseConv b it st = (st', Ok (Fused newConv newConvW newConvB it')) →
  spec_matches st it = true.
Proof.
  intros Ht Hr. unfold fuseConv in Hr.
  apply bind_ok in Hr as (m & st1 & Hm & Hr).
  destruct m as [c|]; [|by apply ret_ok in Hr as [_ ?]].
  by eapply matched_spec_matches.
Qed.

(** X8.  The condition of lines 86-93 lets a candidate through exactly
    when the five tensors are floating point, scale, bias, mean and
    variance are 1-dimensional of one common length C, and the weight has
    rank greater than 2 and size C along dimension 0. *)
Theorem rejected_iff_precondition_fails bnScale bnB bnMean bnVar convW :
  rejected bnScale bnB bnMean bnVar convW = false ↔
  (Forall (λ x, isFloatingType (t_dtype x) = true)
          [convW; bnScale; bnB; bnMean; bnVar]
   ∧ ∃ C, t_sizes bnScale = [C] ∧ t_sizes bnB = [C] ∧ t_sizes bnMean = [C]
          ∧ t_sizes bnVar = [C]
          ∧ 2 < t_dim convW ∧ t_sizes convW !! 0 = Some C).
Proof.
  pose proof (numeric_precondition_rejected convW bnScale bnB bnMean bnVar) as He.
  destruct (rejected bnScale bnB bnMean bnVar convW); simpl in He.
  - split; [done|]. intros [Hf (C & Hs & Hb & Hm & Hv & Hd & Hw)].
    unfold numeric_precondition in He. simpl in He.
    repeat (apply Forall_cons in Hf as [? Hf]).
    repeat match goal with Hx : isFloatingType _ = true |- _ =>
      rewrite Hx in He; clear Hx end.
    unfold t_dim in He. rewrite Hs, Hb, Hm, Hv, Hw in He. simpl in He.
    rewrite !bool_decide_eq_true_2 in He by done. done.
  - split; [|done]. intros _.
    unfold numeric_precondition in He. simpl in He.
    rewrite !andb_true_iff, !bool_decide_eq_true in He.
    destruct He as (((((Hw & Hs & Hb & Hm & Hv & _) & Ds & Db & Dm & Dv & _)
                      & Sb & Sm & Sv & _) & Hrank) & Hsz).
    split; [by repeat constructor|].
    unfold t_dim in Ds.
    destruct (t_sizes bnScale) as [|C [|? ?]] eqn:Hsc; simpl in *; try done.
    exists C. by rewrite Sb, Sm, Sv.
Qed.

(** X11.  The matcher and the folder only allocate tensors: however they
    end, also when they throw, the graph and the table are the ones they
    started from, so nothing of the graph has been rewritten yet when the
    folder fails. *)
Theorem match_and_fold_leave_graph_untouched :
  (∀ it st, graph (matchConvBatchNorm it st).1 = graph st
            ∧ valsToParamsMap (matchConvBatchNorm it st).1 = valsToParamsMap st)
  ∧ (∀ c st, graph (foldBatchNorm c st).1 = graph st
             ∧ valsToParamsMap (foldBatchNorm c st).1 = valsToParamsMap st).
Proof.
  split.
  - intros it st.
    by apply (stable_matchConvBatchNorm
      (λ s, graph s = graph st ∧ valsToParamsMap s = valsToParamsMap st) it);
      [intros x s|].
  - intros c st.
    by apply (stable_foldBatchNorm
      (λ s, graph s = graph st ∧ valsToParamsMap s = valsToParamsMap st) c);
      [intros x s|intros x s|].
Qed.

End MatcherFacts.

(** ** The traversal when nothing matches *)

Section Walk.
Context `{TensorBackend}.

Lemma extends_refl st : extends st st.
Proof. by split; [|split]. Qed.

Lemma extends_trans st s s' : extends st s → extends s s' → extends st s'.
Proof.
  intros (Hg & Hm & Hh) (Hg' & Hm' & Hh').
  split; [congruence|]. split; [congruence|]. by etrans.
Qed.

Lemma resolve_ext st s val :
  graph s = graph st → valsToParamsMap s = valsToParamsMap st →
  resolve s val = resolve st val.
Proof. intros Hg Hm. unfold resolve. by rewrite Hg, Hm. Qed.

Lemma state_typed_extends st s : state_typed st → extends st s → state_typed s.
Proof.
  intros [HN HM] (Hg & Hm & Hh). apply prefix_length in Hh.
  split.
  - rewrite Hg. intros n nd Hn. destruct (HN n nd Hn) as (H1 & H2 & H3).
    split; [done|]. split; [done|]. intros Hk. specialize (H3 Hk).
    unfold is_attr_t in *. destruct (find_attr (n_attrs nd) "value") as [[]|];
      try done. lia.
  - rewrite Hm. intros k e He. specialize (HM k e He). unfold typed_entry in *.
    simpl in *. destruct (e.2); [lia|done].
Qed.

Lemma read_extends st s (l : list Tensor) i :
  (∀ t, t ∈ l → t < length (heap st)) → heap st `prefix_of` heap s →
  read (heap s) (l !! i) = read (heap st) (l !! i).
Proof.
  intros Hl [k ->]. unfold read. destruct (l !! i) as [t|] eqn:Hi; simpl; [|done].
  apply lookup_app_l. apply Hl. by eapply list_elem_of_lookup_2.
Qed.

Lemma spec_matches_extends st s it :
  state_typed st → extends st s → spec_matches s it = spec_matches st it.
Proof.
  intros Ht (Hg & Hm & Hh). unfold spec_matches. rewrite Hg.
  destruct (g_nodes (graph st) !! it) as [conv|]; [|done].
  destruct (n_outputs conv !! 0 ≫= λ out0, g_values (graph st) !! out0)
    as [o|]; [|done].
  destruct (v_uses o) as [|u [|? ?]]; try done.
  destruct (g_nodes (graph st) !! user u) as [bn|]; [|done].
  cbv zeta.
  assert (∀ l : list nat, omap (resolve s) l = omap (resolve st) l) as Ho.
  { intros l. induction l as [|a l IH]; [done|]. cbn [omap list_omap] in *.
    by rewrite (resolve_ext st s a), IH. }
  rewrite !Ho.
  assert (∀ (l : list nat) t,
    t ∈ omap (resolve st) l → t < length (heap st)) as Hv.
  { intros l t Hin. apply list_elem_of_omap in Hin as (val & _ & Hval).
    by eapply resolve_valid. }
  by rewrite !(read_extends st s) by (done || apply Hv).
Qed.

Lemma no_match_extends st s : state_typed st → extends st s → no_match st → no_match s.
Proof.
  intros Ht He Hn. pose proof He as (Hg & _). unfold no_match. rewrite Hg.
  intros it conv Hit Hk. rewrite (spec_matches_extends st s) by done.
  by apply (Hn it conv).
Qed.

Lemma fuseConv_heap_prefix b it st : heap st `prefix_of` heap (fuseConv b it st).1.
Proof.
  apply (stable_fuseConv (λ s, heap st `prefix_of` heap s)); [| | | |done].
  - by intros f s.
  - intros x s Hs. simpl. by apply prefix_app_r.
  - by intros k e s.
  - intros s w Hs Hw x s' Hs'. simpl. apply prefix_insert_ge; [done|].
    apply prefix_length in Hs. lia.
Qed.

Lemma list_after_elem x (l : list nat) y : list_after x l = Some y → y ∈ l.
Proof.
  induction l as [|a l IH]; simpl; [done|]. case_decide.
  - destruct l as [|a' l']; simpl; [done|]. intros ?; simplify_eq.
    apply elem_of_cons. right. apply elem_of_cons. by left.
  - intros Hy. apply elem_of_cons. right. by apply IH.
Qed.

Lemma list_after_middle x (l1 l2 : list nat) :
  x ∉ l1 → list_after x (l1 ++ x :: l2) = head l2.
Proof.
  induction l1 as [|a l1 IH]; simpl; intros Hx.
  - by rewrite decide_True.
  - apply not_elem_of_cons in Hx as [Hne Hx]. rewrite decide_False by done.
    by apply IH.
Qed.

Lemma run_next_in_block b blk cur st :
  g_blocks (graph st) !! b = Some blk → cur = b_output blk ∨ cur ∈ b_nodes blk →
  ∃ nxt, next_in_block b cur st = (st, Ok nxt)
         ∧ (nxt = b_output blk ∨ nxt ∈ b_nodes blk)
         ∧ (cur ≠ b_output blk →
            nxt = default (b_output blk) (list_after cur (b_nodes blk)))
         ∧ (cur = b_output blk →
            nxt = default (b_output blk) (head (b_nodes blk))).
Proof.
  intros Hb Hcur. unfold next_in_block.
  erewrite bind_run by (by apply run_getBlock).
  destruct (decide (cur = b_output blk)) as [->|Hne].
  - eexists. split; [done|]. split; [|done].
    destruct (b_nodes blk) as [|a l]; simpl; [by left|].
    right. apply elem_of_cons. by left.
  - destruct Hcur as [?|Hin]; [done|]. rewrite decide_True by done.
    eexists. split; [done|]. split; [|done].
    destruct (list_after cur (b_nodes blk)) as [y|] eqn:E; simpl; [|by left].
    right. by eapply list_after_elem.
Qed.

(** One step of the loop at a node that is not fused: a node that is not a
    Conv, or a Conv that does not match. *)
Lemma from_step fuel b blk it nd st s :
  graph_closed (graph st) → state_typed st → no_match st → extends st s →
  g_blocks (graph st) !! b = Some blk → it ≠ b_output blk → it ∈ b_nodes blk →
  g_nodes (graph st) !! it = Some nd →
  ∀ s1, extends st s1 →
    forM_ (n_blocks nd) (fuseConvBatchNorm fuel) s = (s1, Ok tt) →
    ∃ s2 nxt, extends st s2
      ∧ (nxt = b_output blk ∨ nxt ∈ b_nodes blk)
      ∧ nxt = default (b_output blk) (list_after it (b_nodes blk))
      ∧ fuseConvBatchNorm_from (S fuel) b it s = fuseConvBatchNorm_from fuel b nxt s2.
Proof.
  intros Hcl Ht Hnm He Hb Hne Hin Hnd s1 He1 Hkids.
  pose proof He as (Hg & _). pose proof He1 as (Hg1 & _).
  cbn [fuseConvBatchNorm_from].
  erewrite bind_run by (apply run_getBlock; by rewrite Hg).
  rewrite decide_False by done.
  erewrite bind_run by (apply run_getNode; by rewrite Hg).
  erewrite bind_run by exact Hkids.
  erewrite bind_run by (apply run_getNode; by rewrite Hg1).
  destruct (decide (n_kind nd = onnx_Conv)) as [Hk|Hk].
  - destruct (fuseConv_skips b it s1 nd) as (s2 & Hskip & Hg2 & Hm2).
    { by rewrite Hg1. } { by eapply state_typed_extends. } { by rewrite Hg1. }
    { done. }
    { rewrite (spec_matches_extends st s1) by done. by apply (Hnm it nd). }
    assert (extends st s2) as He2.
    { apply (extends_trans _ s1); [done|]. split; [done|]. split; [done|].
      pose proof (fuseConv_heap_prefix b it s1) as Hp. by rewrite Hskip in Hp. }
    destruct (run_next_in_block b blk it s2) as (nxt & Hnx & Hnxin & Hnxeq & _).
    { destruct He2 as (-> & _). done. } { by right. }
    exists s2, nxt. split; [done|]. split; [done|]. split; [by apply Hnxeq|].
    erewrite bind_run.
    2:{ erewrite bind_run by exact Hskip. reflexivity. }
    simpl. by erewrite bind_run by exact Hnx.
  - destruct (run_next_in_block b blk it s1) as (nxt & Hnx & Hnxin & Hnxeq & _).
    { by rewrite Hg1. } { by right. }
    exists s1, nxt. split; [done|]. split; [done|]. split; [by apply Hnxeq|].
    erewrite bind_run by reflexivity.
    by erewrite bind_run by exact Hnx.
Qed.

Lemma forM_kids (l : list nat) (f : nat → M unit) st :
  (∀ b s, b ∈ l → extends st s →
     extends st (f b s).1 ∧ completes_or_out_of_fuel (f b s).2) →
  ∀ s, extends st s →
    extends st (forM_ l f s).1 ∧ completes_or_out_of_fuel (forM_ l f s).2.
Proof.
  induction l as [|b l IH]; intros Hf s He; simpl.
  - split; [done|]. by left.
  - destruct (Hf b s) as [He1 Hr1]; [by left|done|].
    unfold bind. destruct (f b s) as [s1 [[]|e]]; simpl in *.
    + apply IH; [|done]. intros b' s' Hb'. apply Hf. by right.
    + split; [done|]. destruct Hr1 as [?|?]; [done|]. by right.
Qed.

Lemma walker_no_match st :
  graph_closed (graph st) → state_typed st → no_match st →
  ∀ fuel,
    (∀ b s, extends st s → is_Some (g_blocks (graph st) !! b) →
       extends st (fuseConvBatchNorm fuel b s).1
       ∧ completes_or_out_of_fuel (fuseConvBatchNorm fuel b s).2)
    ∧ (∀ b blk it s, extends st s → g_blocks (graph st) !! b = Some blk →
         it = b_output blk ∨ it ∈ b_nodes blk →
         extends st (fuseConvBatchNorm_from fuel b it s).1
         ∧ completes_or_out_of_fuel (fuseConvBatchNorm_from fuel b it s).2).
Proof.
  intros Hcl Ht Hnm fuel. induction fuel as [|fuel [IHb IHf]].
  { split; intros; (split; [done|by right]). }
  split.
  - intros b s He [blk Hb]. pose proof He as (Hg & _).
    cbn [fuseConvBatchNorm].
    erewrite bind_run by (apply run_getBlock; by rewrite Hg).
    destruct (run_next_in_block b blk (b_output blk) s) as (nxt & Hnx & Hin & _ & _).
    { by rewrite Hg. } { by left. }
    erewrite bind_run by exact Hnx. by apply (IHf b blk).
  - intros b blk it s He Hb Hit. pose proof He as (Hg & _).
    destruct (decide (it = b_output blk)) as [->|Hne].
    { cbn [fuseConvBatchNorm_from].
      erewrite bind_run by (apply run_getBlock; by rewrite Hg).
      rewrite decide_True by done. split; [done|by left]. }
    destruct Hit as [?|Hin]; [done|].
    destruct Hcl as (HcN & HcV & HcB & HcR).
    pose proof (HcB b blk Hb) as (_ & _ & Hall & _).
    rewrite Forall_forall in Hall. destruct (Hall it Hin) as [nd Hnd].
    pose proof (HcN it nd Hnd) as (_ & _ & _ & Hkids & _).
    rewrite Forall_forall in Hkids.
    destruct (forM_kids (n_blocks nd) (fuseConvBatchNorm fuel) st) with (s := s)
      as [He1 Hr1]; [|done|].
    { intros b' s' Hb' He'. apply IHb; [done|]. by apply Hkids. }
    destruct (forM_ (n_blocks nd) (fuseConvBatchNorm fuel) s)
      as [s1 [[]|e]] eqn:Hk; simpl in He1, Hr1.
    + destruct (from_step fuel b blk it nd st s) with (s1 := s1)
        as (s2 & nxt & He2 & Hnxin & _ & ->); try done.
      by apply (IHf b blk).
    + cbn [fuseConvBatchNorm_from].
      erewrite bind_run by (apply run_getBlock; by rewrite Hg).
      rewrite decide_False by done.
      erewrite bind_run by (apply run_getNode; by rewrite Hg).
      erewrite bind_fail by exact Hk. simpl. split; [done|].
      destruct Hr1 as [?|?]; [done|]. by right.
Qed.

(** X5.  On a well-formed, typed state in which no Conv satisfies the
    matcher, the whole pass, nested blocks included, leaves the graph and
    the table as they were and does not throw: it completes, or the fuel
    of the model runs out. *)
Theorem no_match_no_change fuel b st :
  graph_closed (graph st) → state_typed st → no_match st →
  is_Some (g_blocks (graph st) !! b) →
  graph (peephole fuel b true st).1 = graph st
  ∧ valsToParamsMap (peephole fuel b true st).1 = valsToParamsMap st
  ∧ completes_or_out_of_fuel (peephole fuel b true st).2.
Proof.
  intros Hcl Ht Hnm Hb. unfold peephole.
  destruct (walker_no_match st Hcl Ht Hnm fuel) as [Hw _].
  destruct (Hw b st (extends_refl st) Hb) as [(Hg & Hm & _) Hr]. done.
Qed.

Lemma from_step_leaf fuel st blk b l1 it l2 s :
  graph_closed (graph st) → state_typed st → no_match st →
  g_blocks (graph st) !! b = Some blk → leaf_nodes (graph st) (b_nodes blk) →
  extends st s → b_nodes blk = l1 ++ it :: l2 → it ≠ b_output blk →
  ∃ s2, extends st s2
    ∧ fuseConvBatchNorm_from (S fuel) b it s
      = fuseConvBatchNorm_from fuel b (default (b_output blk) (head l2)) s2.
Proof.
  intros Hcl Ht Hnm Hb Hleaf He Hl Hne.
  pose proof Hcl as (_ & _ & HcB & _).
  pose proof (HcB b blk Hb) as (_ & _ & Hall & Hnd).
  assert (it ∈ b_nodes blk) as Hin.
  { rewrite Hl. apply elem_of_app. right. by left. }
  rewrite Forall_forall in Hall. destruct (Hall it Hin) as [nd Hn].
  unfold leaf_nodes in Hleaf. rewrite Forall_forall in Hleaf.
  pose proof (Hleaf it Hin) as Hlf. rewrite Hn in Hlf. simpl in Hlf.
  destruct (from_step fuel b blk it nd st s) with (s1 := s)
    as (s2 & nxt & He2 & _ & Hnxt & ->); try done.
  { by rewrite Hlf. }
  rewrite Hl, list_after_middle in Hnxt.
  2:{ rewrite Hl in Hnd. apply NoDup_app in Hnd as (_ & Hd & _).
      intros Hi. apply (Hd it Hi). by left. }
  subst nxt. by exists s2.
Qed.

Lemma from_terminates st blk b :
  graph_closed (graph st) → state_typed st → no_match st →
  g_blocks (graph st) !! b = Some blk → leaf_nodes (graph st) (b_nodes blk) →
  ∀ l2 l1 it fuel s, extends st s →
    b_nodes blk = l1 ++ it :: l2 → length l2 + 2 ≤ fuel →
    ∃ s', extends st s' ∧ fuseConvBatchNorm_from fuel b it s = (s', Ok tt).
Proof.
  intros Hcl Ht Hnm Hb Hleaf.
  assert (∀ fuel s, extends st s → 1 ≤ fuel →
    fuseConvBatchNorm_from fuel b (b_output blk) s = (s, Ok tt)) as Hend.
  { intros [|fuel] s (Hg & _) Hf; [lia|]. cbn [fuseConvBatchNorm_from].
    erewrite bind_run by (apply run_getBlock; by rewrite Hg).
    by rewrite decide_True. }
  induction l2 as [|it2 l2 IH]; intros l1 it fuel s He Hl Hf;
    (destruct (decide (it = b_output blk)) as [->|Hne];
     [exists s; split; [done|]; apply Hend; [done|lia]|]);
    (destruct fuel as [|fuel]; [simpl in Hf; lia|]);
    destruct (from_step_leaf fuel st blk b l1 it _ s Hcl Ht Hnm Hb Hleaf He Hl Hne)
      as (s2 & He2 & ->); simpl in *.
  - exists s2. split; [done|]. apply Hend; [done|lia].
  - apply (IH (l1 ++ [it])); [done| |lia]. by rewrite <- app_assoc.
Qed.

(** X9.  On such a state the traversal of a block whose nodes own no
    nested block completes: fuel for one step per node and two more is
    enough. *)
Theorem no_match_terminates fuel b blk st :
  graph_closed (graph st) → state_typed st → no_match st →
  g_blocks (graph st) !! b = Some blk → leaf_nodes (graph st) (b_nodes blk) →
  length (b_nodes blk) + 2 ≤ fuel →
  (peephole fuel b true st).2 = Ok tt.
Proof.
  intros Hcl Ht Hnm Hb Hleaf Hf. unfold peephole.
  destruct fuel as [|fuel]; [lia|]. cbn [fuseConvBatchNorm].
  erewrite bind_run by (by apply run_getBlock).
  destruct (run_next_in_block b blk (b_output blk) st)
    as (nxt & Hnx & _ & _ & Hnxt); [done|by left|].
  erewrite bind_run by exact Hnx. rewrite (Hnxt eq_refl).
  destruct (b_nodes blk) as [|it l2] eqn:Hl; simpl.
  - destruct fuel as [|fuel]; [simpl in Hf; lia|]. cbn [fuseConvBatchNorm_from].
    erewrite bind_run by (by apply run_getBlock). by rewrite decide_True.
  - destruct (from_terminates st blk b Hcl Ht Hnm Hb) with (l2 := l2)
      (l1 := @nil nat) (it := it) (fuel := fuel) (s := st) as (s' & _ & ->);
      [by rewrite Hl|apply extends_refl|by rewrite Hl|simpl in Hf; lia|done].
Qed.

End Walk.

(** ** The new graph inputs and their bindings *)

Section Registration.
Context `{TensorBackend}.

Lemma block_inputs_alt g b :
  block_inputs g b
  = (b_input <$> g_blocks g !! b) ≫= λ pin, n_outputs <$> g_nodes g !! pin.
Proof. unfold block_inputs. by destruct (g_blocks g !! b). Qed.

(** X7.  When the new node has been built (lines 118-135) on a
    well-formed graph, the two new values are fresh and distinct, each has
    the type inferred from the dtype and shape of its tensor, the new weight
    has been appended to the inputs of the graph and the new bias to the
    inputs of block [b]: in the top-level block the graph inputs end with
    the new weight and the new bias, in this order. *)
Theorem new_inputs_registered b c convW convB st st'
    newConv newConvW newConvB conv bn bnOut bo :
  graph_closed (graph st) →
  g_nodes (graph st) !! c_oldConv c = Some conv →
  g_nodes (graph st) !! c_bnNode c = Some bn →
  n_outputs bn !! 0 = Some bnOut →
  g_values (graph st) !! bnOut = Some bo →
  buildNewConv b c convW convB st = (st', Ok (newConv, newConvW, newConvB)) →
  NewInputsRegistered b convW convB st st' newConvW newConvB.
Proof.
  intros Hcl Hconv Hbn HbnOut Hbo Hr.
  destruct (buildNewConv_trace _ _ _ _ _ _ _ _ _ _ _ _ _ Hcl Hconv Hbn HbnOut Hbo Hr)
    as (in0 & xin0 & bnBlock & blk & l1 & l2 & _ & -> & -> & _ & HvN & _ & _ & _
        & _ & _ & _ & _ & _ & _ & _ & _ & _ & _ & Hroot
        & pinR & pinB & pr & pb & tw & tb & HpinR & HpinB & HbI & Hpr & Hpb
        & Htw & Htb & _ & HvW & HvB & HoR & HoB).
  exists tw, tb, (n_outputs pr), (n_outputs pb).
  split; [done|]. split; [done|]. split; [lia|].
  split. { specialize (HvN 1). by rewrite Nat.add_1_r in HvN. }
  split. { specialize (HvN 2). by replace (g_next_unique (graph st) + 2)
             with (S (S (g_next_unique (graph st)))) in HvN by lia. }
  split. { by rewrite HvW. }
  split. { by rewrite HvB. }
  split; [done|].
  assert (block_inputs (graph st) (g_block (graph st)) = Some (n_outputs pr))
    as HbR.
  { rewrite block_inputs_alt, HpinR. simpl. by rewrite Hpr. }
  assert (block_inputs (graph st) b = Some (n_outputs pb)) as HbB.
  { rewrite block_inputs_alt, HpinB. simpl. by rewrite Hpb. }
  split; [done|]. split; [done|]. split.
  - intros ->. rewrite block_inputs_alt, HbI, HpinR. simpl.
    rewrite HpinR in HpinB. injection HpinB as <-.
    by rewrite HoR, decide_True by done.
  - rewrite HbR, HbB. intros Hne.
    assert (pinB ≠ pinR) as Hpin.
    { intros ->. rewrite Hpr in Hpb. by simplify_eq. }
    split.
    + rewrite block_inputs_alt, HbI, HpinR. simpl.
      by rewrite HoR, decide_False by done.
    + rewrite block_inputs_alt, HbI, HpinB. simpl. by rewrite HoB.
Qed.

Lemma map_insert_fresh (m : gmap nat (string * IValue)) k e :
  m !! k = None → map_insert k e m = <[k := e]> m.
Proof. intros Hk. unfold map_insert. by rewrite Hk. Qed.

(** X10.  A successful fusion adds exactly two bindings to the table, and
    they are the two tensors the folder returned: with [c] the candidate of
    the matcher and [(convW, convB)] the result of the folder on it, the new
    weight value is bound to [convW] (the scaled copy [c_convW c]) and the
    new bias value to [convB], each under the decimal of its unique number;
    neither value was a key before, every other binding is as before, and
    the tensors are as the folder left them. *)
Theorem fusion_adds_two_bindings b it st st' newConv newConvW newConvB it' :
  graph_closed (graph st) → table_closed st →
  fuseConv b it st = (st', Ok (Fused newConv newConvW newConvB it')) →
  ∃ c st1 st2 convW convB,
    matchConvBatchNorm it st = (st1, Ok (Some c))
    ∧ foldBatchNorm c st1 = (st2, Ok (convW, convB))
    ∧ convW = c_convW c
    ∧ heap st' = heap st2
    ∧ newConvW ≠ newConvB
    ∧ valsToParamsMap st !! newConvW = None
    ∧ valsToParamsMap st !! newConvB = None
    ∧ valsToParamsMap st'
      = <[newConvB := (pretty newConvB, IVTensor convB)]>
          (<[newConvW := (pretty newConvW, IVTensor convW)]> (valsToParamsMap st))
    ∧ length (heap st) ≤ convW
    ∧ is_Some (heap st' !! convW) ∧ is_Some (heap st' !! convB).
Proof.
  intros Hcl Htc Hr. unfold fuseConv in Hr.
  apply bind_ok in Hr as (m & st1 & Hm & Hr).
  destruct m as [c|]; [|by apply ret_ok in Hr as [_ ?]].
  pose proof Hm as Hmatch.
  apply matchConvBatchNorm_Some in Hm as [v Hv].
  destruct Hv as (HcC & Hconv & Hout0 & Ho & Huses & HcB & Hbn & Hkind & Harity
                  & _ & _ & _ & _ & _ & _ & Hg1 & Hm1 & _ & _ & _ & _ & _ & HcW & _).
  apply bind_ok in Hr as (wb & st2 & Hf & Hr).
  assert (graph st2 = graph st ∧ valsToParamsMap st2 = valsToParamsMap st)
    as [Hg2 Hm2].
  { pose proof (stable_foldBatchNorm
      (λ s, graph s = graph st ∧ valsToParamsMap s = valsToParamsMap st) c) as Hs.
    specialize (Hs ltac:(by intros x s) ltac:(by intros x s) st1 (conj Hg1 Hm1)).
    by rewrite Hf in Hs. }
  pose proof (foldBatchNorm_ok c st1 st2 wb.1 wb.2) as Hfo.
  rewrite <- surjective_pairing in Hfo. destruct (Hfo Hf) as [HwW _].
  apply bind_ok in Hr as (new & st3 & Hb & Hr).
  apply bind_ok in Hr as (it2 & st4 & Hc & Hr).
  apply ret_ok in Hr as [-> Hr].
  destruct new as [[newConv0 newConvW0] newConvB0]. simpl in *.
  injection Hr as <- <- <- <-.
  assert (∃ bnOut, n_outputs (mv_bn v) !! 0 = Some bnOut) as [bnOut HbnOut].
  { apply lookup_lt_is_Some. rewrite <- Harity. by eapply lookup_lt_Some. }
  pose proof Hcl as (HcN & HcV & HcB' & HcR).
  assert (∃ bo, g_values (graph st) !! bnOut = Some bo) as [bo Hbo].
  { apply HcN in Hbn as (_ & _ & Houts & _). rewrite Forall_forall in Houts.
    apply Houts. by eapply list_elem_of_lookup_2. }
  rewrite <- HcB in Hbn. rewrite <- HcC in Hconv.
  rewrite <- Hg2 in Hcl, Hconv, Hbn, Hbo.
  destruct (buildNewConv_trace b c wb.1 wb.2 st2 st3 newConv newConvW newConvB
              _ _ bnOut bo Hcl Hconv Hbn HbnOut Hbo Hb)
    as (in0 & xin0 & bnBlock & blk & l1 & l2 & _ & -> & -> & _ & _ & _ & _ & _
        & _ & _ & _ & _ & _ & _ & _ & _ & _ & Hh3 & _
        & pinR & pinB & pr & pb & tw & tb & _ & _ & _ & _ & _
        & Htw & Htb & Hmap & _).
  rewrite Hg2, Hm2 in Hmap.
  assert (valsToParamsMap st4 = valsToParamsMap st3 ∧ heap st4 = heap st3)
    as [Hm4 Hh4].
  { pose proof (stable_commitFusion
      (λ s, valsToParamsMap s = valsToParamsMap st3 ∧ heap s = heap st3)
      b c newConv) as Hs.
    specialize (Hs ltac:(by intros f s) st3 (conj eq_refl eq_refl)).
    by rewrite Hc in Hs. }
  set (nu := g_next_unique (graph st)) in *.
  assert (∀ k, nu ≤ k → valsToParamsMap st !! k = None) as Hfresh.
  { intros k Hk. destruct (valsToParamsMap st !! k) as [e|] eqn:E; [|done].
    apply Htc in E. unfold nu in Hk. lia. }
  exists c, st1, st2, wb.1, wb.2. rewrite Hg2. fold nu.
  split; [exact Hmatch|]. split; [by rewrite <- surjective_pairing|].
  split; [exact HwW|]. split; [by rewrite Hh4, Hh3|].
  split; [lia|]. split; [apply Hfresh; lia|]. split; [apply Hfresh; lia|].
  split.
  { rewrite Hm4, Hmap. rewrite (map_insert_fresh _ (S nu)) by (apply Hfresh; lia).
    rewrite map_insert_fresh; [done|].
    rewrite lookup_insert_ne by lia. apply Hfresh. lia. }
  rewrite Hh4, Hh3. split; [rewrite HwW, HcW; lia|]. by split; eexists.
Qed.

End Registration.

(** ** What a fusion leaves in place, and where the walk resumes *)

Section FusionFrames.
Context `{TensorBackend}.

Lemma eraseOutput_nodes_blocks v st :
  g_nodes (graph (eraseOutput v st).1) = g_nodes (graph st)
  ∧ g_blocks (graph (eraseOutput v st).1) = g_blocks (graph st).
Proof.
  unfold eraseOutput, getValue, getGraph, modifyGraph, bind, lift, ret, throw.
  simpl. destruct (g_values (graph st) !! v) as [x|]; simpl; [|done].
  by destruct (decide (v_uses x = [])).
Qed.

Lemma dropInput_nodes_blocks n p st :
  g_nodes (graph (dropInput n p st).1) = g_nodes (graph st)
  ∧ g_blocks (graph (dropInput n p st).1) = g_blocks (graph st).
Proof.
  unfold dropInput, getValue, getGraph, modifyGraph, bind, lift, ret, throw.
  simpl. destruct (g_values (graph st) !! p.2) as [x|]; simpl; [|done].
  by destruct (decide (mkUse n p.1 ∈ v_uses x)).
Qed.

Lemma forM_nodes_blocks {A} (l : list A) (f : A → M unit) :
  (∀ a st, g_nodes (graph (f a st).1) = g_nodes (graph st)
           ∧ g_blocks (graph (f a st).1) = g_blocks (graph st)) →
  ∀ st, g_nodes (graph (forM_ l f st).1) = g_nodes (graph st)
        ∧ g_blocks (graph (forM_ l f st).1) = g_blocks (graph st).
Proof.
  intros Hf st.
  apply (stable_forM_ (λ s, g_nodes (graph s) = g_nodes (graph st)
                            ∧ g_blocks (graph s) = g_blocks (graph st)));
    [|done].
  intros a s [HN HB]. destruct (Hf a s) as [-> ->]. done.
Qed.

Lemma run_fst {A} (m : M A) st st' r : m st = (st', r) → (m st).1 = st'.
Proof. by intros ->. Qed.

(** [Node::destroy], on the node store and on the node lists. *)
Lemma destroy_frame n r st st' :
  destroy n st = (st', Ok r) →
  ∃ nd, g_nodes (graph st) !! n = Some nd
    ∧ g_nodes (graph st') = delete n (g_nodes (graph st))
    ∧ match n_owning_block nd with
      | None => g_blocks (graph st') = g_blocks (graph st)
      | Some k =>
          ∃ blk, g_blocks (graph st) !! k = Some blk
            ∧ g_blocks (graph st')
              = <[k := set_b_nodes (erase_first n (b_nodes blk)) blk]>
                  (g_blocks (graph st))
      end.
Proof.
  unfold destroy. intros Hr.
  apply bind_ok in Hr as (nd & ? & Hk & Hr). apply getNode_ok in Hk as [-> Hnd].
  exists nd. split; [done|].
  apply bind_ok in Hr as (u1 & st1 & Hk & Hr).
  pose proof (forM_nodes_blocks (reverse (n_outputs nd)) _
                eraseOutput_nodes_blocks st) as [HN1 HB1].
  rewrite (run_fst _ _ _ _ Hk) in HN1, HB1.
  apply bind_ok in Hr as (u2 & st2 & Hk2 & Hr).
  destruct (decide (n_blocks nd = [])); [|by apply throw_ok in Hk2].
  apply ret_ok in Hk2 as [-> _].
  apply bind_ok in Hr as (u3 & st3 & Hk3 & Hr).
  pose proof (forM_nodes_blocks (imap pair (n_inputs nd)) _
                (dropInput_nodes_blocks n) st1) as [HN3 HB3].
  rewrite (run_fst _ _ _ _ Hk3) in HN3, HB3.
  apply bind_ok in Hr as (u4 & st4 & Hk4 & Hr).
  apply modifyGraph_ok in Hr as ->. simpl.
  unfold removeFromList in Hk4.
  apply bind_ok in Hk4 as (nd' & ? & Hk5 & Hk4).
  apply getNode_ok in Hk5 as [-> Hnd'].
  rewrite HN3, HN1, Hnd in Hnd'. injection Hnd' as <-.
  destruct (n_owning_block nd) as [k|].
  - apply bind_ok in Hk4 as (blk & ? & Hk6 & Hk4).
    apply getBlock_ok in Hk6 as [-> Hb]. apply modifyGraph_ok in Hk4 as ->.
    simpl. rewrite HN3, HN1. split; [done|]. exists blk.
    rewrite HB3, HB1 in Hb. split; [done|]. by rewrite HB3, HB1.
  - apply ret_ok in Hk4 as [-> _]. by rewrite HN3, HN1, HB3, HB1.
Qed.

Lemma replaceAll_frame old new (l : list Use) : ∀ st st' r,
  forM_ l (λ _, replaceFirstUseWith old new) st = (st', Ok r) → old ≠ new →
  nodes_but_inputs (g_nodes (graph st)) (g_nodes (graph st'))
  ∧ g_blocks (graph st') = g_blocks (graph st).
Proof.
  induction l as [|a l IH]; intros st st' r Hr Hne; simpl in Hr.
  - by apply ret_ok in Hr as [-> _].
  - apply bind_ok in Hr as (u0 & st1 & Hk & Hr).
    apply replaceFirstUseWith_ok in Hk
      as (o & u & rest & un & nv & Ho & Hu & Hun & Hnv & ->); [|done].
    apply IH in Hr as [HN HB]; [|done]. simpl in *. split; [|done].
    eapply nodes_but_inputs_trans; [|exact HN].
    by apply nodes_but_inputs_insert.
Qed.

Lemma erase_first_middle (x : nat) l1 l2 :
  x ∉ l1 → erase_first x (l1 ++ x :: l2) = l1 ++ l2.
Proof.
  induction l1 as [|a l1 IH]; simpl; intros Hx.
  - by rewrite decide_True.
  - apply not_elem_of_cons in Hx as [Hne Hx].
    rewrite decide_False by done. by rewrite IH.
Qed.

Lemma same_but_io_of_inputs N N' n :
  set_inputs [] <$> N' !! n = set_inputs [] <$> N !! n →
  same_node_but_io N N' n.
Proof.
  unfold same_node_but_io. intros Hn.
  destruct (N' !! n) as [[]|], (N !! n) as [[]|]; simpl in *; try done.
  unfold set_inputs, set_outputs in *. simpl in *. by simplify_eq.
Qed.

Lemma destroyCurrent_cur b it r st st' :
  destroyCurrent b it st = (st', Ok r) →
  ∃ blk, g_blocks (graph st) !! b = Some blk
         ∧ stepped_back blk (b_nodes blk) it r.
Proof.
  unfold destroyCurrent, prev_in_block. intros Hr.
  apply bind_ok in Hr as (cur & st0 & Hk & Hr).
  apply bind_ok in Hk as (blk & ? & Hk & Hk'). apply getBlock_ok in Hk as [-> Hb].
  apply bind_ok in Hr as (u0 & st1 & _ & Hr). apply ret_ok in Hr as [_ ->].
  exists blk. split; [done|]. unfold stepped_back.
  destruct (decide (it = b_output blk)); [left; by apply ret_ok in Hk' as [_ ->]|].
  destruct (decide (it ∈ b_nodes blk)); [|by apply throw_ok in Hk'].
  right. by apply ret_ok in Hk' as [_ ->].
Qed.

(** A fusion, step by step, on the node store, on the node lists and on
    the iterator. *)
Lemma fuseConv_trace b it st st' newConv newConvW newConvB it' :
  graph_closed (graph st) →
  fuseConv b it st = (st', Ok (Fused newConv newConvW newConvB it')) →
  ∃ conv out0 o u bn bnBlock blk la lb,
    FusionFrameAt st st' it newConv conv out0 o u bn bnBlock blk la lb
    ∧ (user u ∉ la)
    ∧ ∃ blk_b, g_blocks (graph st) !! b = Some blk_b
        ∧ stepped_back blk_b
            (if decide (b = bnBlock) then la ++ newConv :: lb else b_nodes blk_b)
            it it'.
Proof.
  intros Hcl Hr. unfold fuseConv in Hr.
  apply bind_ok in Hr as (m & st1 & Hm & Hr).
  destruct m as [c|]; [|by apply ret_ok in Hr as [_ ?]].
  apply matchConvBatchNorm_Some in Hm as [v Hv].
  destruct Hv as (HcC & Hconv & Hout0 & Ho & Huses & HcB & Hbn & Hkind & Harity
                  & _ & _ & _ & _ & _ & _ & Hg1 & _).
  apply bind_ok in Hr as (wb & st2 & Hf & Hr).
  assert (graph st2 = graph st) as Hg2.
  { pose proof (foldBatchNorm_graph c st1) as Hg. rewrite Hf in Hg. simpl in Hg.
    congruence. }
  apply bind_ok in Hr as (new & st3 & Hb & Hr).
  apply bind_ok in Hr as (it2 & st4 & Hc & Hr).
  apply ret_ok in Hr as [-> Hr].
  destruct new as [[newConv0 newConvW0] newConvB0]. simpl in *.
  injection Hr as <- <- <- <-.
  set (conv := mv_conv v) in *. set (bn := mv_bn v) in *. set (u := mv_u v) in *.
  assert (∃ bnOut, n_outputs bn !! 0 = Some bnOut) as [bnOut HbnOut].
  { apply lookup_lt_is_Some. rewrite <- Harity. by eapply lookup_lt_Some. }
  pose proof Hcl as (HcN & HcV & HcB' & HcR).
  assert (∃ bo, g_values (graph st) !! bnOut = Some bo) as [bo Hbo].
  { pose proof (HcN _ _ Hbn) as (_ & _ & Houts & _). rewrite Forall_forall in Houts.
    apply Houts. by eapply list_elem_of_lookup_2. }
  rewrite <- HcB in Hbn. rewrite <- HcC in Hconv.
  rewrite <- Hg2 in Hcl, Hconv, Hbn, Hbo.
  destruct (buildNewConv_ok b c wb.1 wb.2 st2 st3 newConv newConvW newConvB
              conv bn bnOut bo Hcl Hconv Hbn HbnOut Hbo Hb) as
    (in0 & xin0 & bnBlock & blk & l1 & l2 & -> & -> & -> & HnN & HvN & Hin0
     & Hxin0 & Hown & Hblk & Hl & Hblocks & Hnc & Hno & HI3 & HU3 & Hkept
     & Hvkept & _).
  rewrite Hg2 in *. rewrite HcB, HcC in *.
  set (nn := g_next_node (graph st)) in *.
  set (nu := g_next_unique (graph st)) in *.
  assert (bnOut < nu) as Hbolt by (by apply HcV in Hbo as [? _]).
  (* lines 137-139 *)
  unfold commitFusion in Hc. rewrite ?HcB, ?HcC in Hc.
  apply bind_ok in Hc as (nc & s0 & Hk & Hc). apply getNode_ok in Hk as [-> Hk].
  rewrite Hnc in Hk. injection Hk as <-.
  apply bind_ok in Hc as (bn3 & s0 & Hk & Hc). apply getNode_ok in Hk as [-> Hbn3].
  destruct (Hkept _ _ Hbn) as (bn3' & Hbn3' & _ & _ & Hpre & _ & _ & Hown3).
  rewrite Hbn3 in Hbn3'. injection Hbn3' as <-.
  apply bind_ok in Hc as (newOut & s0 & Hk & Hc). apply at_ok in Hk as [-> Hk].
  simpl in Hk. injection Hk as <-.
  apply bind_ok in Hc as (bnOut' & s0 & Hk & Hc). apply at_ok in Hk as [-> Hk].
  rewrite (prefix_lookup_Some _ _ _ _ HbnOut Hpre) in Hk. injection Hk as <-.
  apply bind_ok in Hc as (u5 & st5 & Hk & Hc).
  unfold replaceAllUsesWith in Hk.
  apply bind_ok in Hk as (o5 & s0 & Hk0 & Hk). apply getValue_ok in Hk0 as [-> _].
  apply replaceAll_frame in Hk as [HN5 HB5]; [|lia].
  apply bind_ok in Hc as (u6 & st6 & Hk6 & Hc).
  apply destroy_frame in Hk6 as (bn5 & Hbn5 & HN6 & HB6).
  destruct (nodes_but_inputs_lookup _ _ _ _ HN5 Hbn3)
    as (bn5' & Hbn5' & _ & _ & _ & Hown5 & _).
  rewrite Hbn5 in Hbn5'. injection Hbn5' as <-.
  rewrite Hown5, Hown3, Hown in HB6. destruct HB6 as (blk5 & Hblk5 & HB6).
  rewrite HB5, Hblocks, lookup_insert_eq in Hblk5. injection Hblk5 as <-.
  simpl in HB6.
  pose proof (destroyCurrent_cur _ _ _ _ _ Hc) as (blk_b6 & Hblk_b6 & Hback).
  apply destroyCurrent_ok in Hc as (u7 & st7 & Hk7 & ->).
  apply destroy_frame in Hk7 as (conv6 & Hconv6 & HN7 & HB7).
  assert (it ≠ user u) as Hitbn.
  { intros Heq. rewrite HN6, Heq, lookup_delete_eq in Hconv6. done. }
  assert (n_owning_block conv6 = n_owning_block conv) as Hown6.
  { rewrite HN6, lookup_delete_ne in Hconv6 by done.
    destruct (Hkept _ _ Hconv) as (conv3 & Hconv3 & _ & _ & _ & _ & _ & Ho3).
    destruct (nodes_but_inputs_lookup _ _ _ _ HN5 Hconv3)
      as (conv5 & Hconv5 & _ & _ & _ & Ho5 & _).
    rewrite Hconv6 in Hconv5. injection Hconv5 as <-. congruence. }
  rewrite Hown6 in HB7.
  assert (user u ∉ l1) as Hnl1.
  { pose proof (HcB' _ _ Hblk) as (_ & _ & _ & Hnd). rewrite Hl in Hnd.
    apply NoDup_app in Hnd as (_ & Hd & _). intros Hi. apply (Hd _ Hi). by left. }
  assert (user u ≠ nn) as Hbnnn.
  { apply HcN in Hbn as [Hlt _]. unfold nn. simpl in Hlt. lia. }
  assert (erase_first (user u) (l1 ++ nn :: user u :: l2) = l1 ++ nn :: l2) as He.
  { change (l1 ++ nn :: user u :: l2) with (l1 ++ [nn] ++ user u :: l2).
    rewrite app_assoc, erase_first_middle; [by rewrite <- app_assoc|].
    rewrite elem_of_app, list_elem_of_singleton. intros [?|?]; done. }
  rewrite He in HB6.
  assert (∀ n, n ≠ nn → g_nodes (graph st3) !! n = None ↔ g_nodes (graph st) !! n = None)
    as Hdom.
  { intros n Hn. apply (f_equal (λ m, m !! n)) in HI3.
    unfold inputs_of in HI3. rewrite lookup_insert_ne, !lookup_fmap in HI3 by done.
    destruct (g_nodes (graph st3) !! n), (g_nodes (graph st) !! n); done. }
  exists conv, (mv_out0 v), (mv_o v), u, bn, bnBlock, blk, l1, l2.
  split; [|split; [done|]].
  2:{ rewrite HB6 in Hblk_b6. destruct (decide (b = bnBlock)) as [->|Hbb].
      - rewrite lookup_insert_eq in Hblk_b6. injection Hblk_b6 as <-.
        exists blk. by split.
      - rewrite lookup_insert_ne, HB5, Hblocks, lookup_insert_ne in Hblk_b6
          by done.
        exists blk_b6. by split. }
  unfold FusionFrameAt.
  split; [done|]. split; [done|]. split; [done|]. split; [done|].
  split; [done|]. split; [done|].
  split. { rewrite HN7. apply lookup_delete_eq. }
  split. { rewrite HN7, lookup_delete_ne, HN6 by done. apply lookup_delete_eq. }
  split.
  { intros n Hn1 Hn2 Hn3. unfold same_node_but_io. rewrite HN7, HN6.
    rewrite !lookup_delete_ne by done.
    transitivity (set_inputs [] ∘ set_outputs [] <$> g_nodes (graph st3) !! n).
    { apply same_but_io_of_inputs. apply HN5. }
    destruct (g_nodes (graph st) !! n) as [nd|] eqn:Hnd.
    - destruct (Hkept _ _ Hnd) as (nd' & -> & Hk1 & Hk2 & _ & Hk4 & Hk5 & Hk6).
      simpl. destruct nd, nd'. unfold set_inputs, set_outputs. simpl in *.
      by subst.
    - by rewrite (proj2 (Hdom n Hn3) Hnd). }
  split.
  { intros n nd nd' Hn1 Hn2 Hnd Hnd'.
    rewrite HN7, HN6, !lookup_delete_ne in Hnd' by done.
    destruct (Hkept _ _ Hnd) as (nd3 & Hnd3 & _ & _ & Hp & _).
    destruct (nodes_but_inputs_lookup _ _ _ _ HN5 Hnd3)
      as (nd5 & Hnd5 & _ & Ho5 & _).
    rewrite Hnd' in Hnd5. injection Hnd5 as <-. by rewrite Ho5. }
  split; [done|]. split; [done|]. split; [done|].
  split.
  { destruct (n_owning_block conv) as [k|] eqn:Hoc.
    - destruct HB7 as (blk6 & Hblk6 & ->).
      destruct (decide (k = bnBlock)) as [->|Hk].
      + rewrite decide_True by done. rewrite lookup_insert_eq. simpl.
        rewrite HB6, lookup_insert_eq in Hblk6. by injection Hblk6 as <-.
      + rewrite decide_False by congruence.
        rewrite lookup_insert_ne by done. by rewrite HB6, lookup_insert_eq.
    - rewrite decide_False by done. by rewrite HB7, HB6, lookup_insert_eq. }
  split.
  { intros k blk_k Hk Hblk_k.
    assert (g_blocks (graph st6) !! k = Some blk_k) as Hk6.
    { by rewrite HB6, lookup_insert_ne, HB5, Hblocks, lookup_insert_ne. }
    destruct (n_owning_block conv) as [k'|] eqn:Hoc.
    - destruct HB7 as (blk6 & Hblk6 & ->).
      destruct (decide (k' = k)) as [->|Hkk].
      + rewrite decide_True by done. rewrite lookup_insert_eq. simpl.
        rewrite Hk6 in Hblk6. by injection Hblk6 as <-.
      + rewrite decide_False by congruence.
        by rewrite lookup_insert_ne, Hk6.
    - rewrite decide_False by done. by rewrite HB7, Hk6. }
  intros k.
  assert (set_b_nodes [] <$> g_blocks (graph st6) !! k
          = set_b_nodes [] <$> g_blocks (graph st) !! k) as Hk6.
  { rewrite HB6, HB5, Hblocks, insert_insert_eq.
    destruct (decide (bnBlock = k)) as [<-|Hk].
    - by rewrite lookup_insert_eq, Hblk.
    - by rewrite lookup_insert_ne. }
  destruct (n_owning_block conv) as [k'|] eqn:Hoc.
  - destruct HB7 as (blk6 & Hblk6 & ->). rewrite <- Hk6.
    destruct (decide (k' = k)) as [->|Hkk].
    + by rewrite lookup_insert_eq, Hblk6.
    + by rewrite lookup_insert_ne.
  - by rewrite HB7.
Qed.

(** X12.  A successful fusion on a well-formed graph removes exactly the
    old Conv and the normalization from the node store and adds exactly the
    new Conv; every other node keeps its kind, attributes, nested blocks and
    owning block, and its outputs as a prefix; in the node list of the
    normalization's block the new Conv stands where the normalization
    stood, the old Conv is erased from the list of its own block, and no
    other list, input node or return node of a block changes. *)
Theorem fusion_frame b it st st' newConv newConvW newConvB it' :
  graph_closed (graph st) →
  fuseConv b it st = (st', Ok (Fused newConv newConvW newConvB it')) →
  FusionFrame st st' it newConv.
Proof.
  intros Hcl Hr.
  destruct (fuseConv_trace _ _ _ _ _ _ _ _ Hcl Hr)
    as (conv & out0 & o & u & bn & bnBlock & blk & la & lb & HF & _).
  by exists conv, out0, o, u, bn, bnBlock, blk, la, lb.
Qed.




End FusionFrames.

(** ** The entry point and the caller's dictionary *)

(** The decimal of a number is made of digits. *)
Section Digits.




End Digits.

Section Dictionary.
Context `{TensorBackend}.






End Dictionary.

(** Whatever the pass adds to the map is named by the decimal of its key:
    the two values a fusion registers are fresh and carry no given name. *)
Section Names.
Context `{TensorBackend}.
Variable m0 : gmap nat (string * IValue).

Let Q (st : State) : Prop := named_from m0 (valsToParamsMap st).










End Names.

Section Entry.
Context `{TensorBackend}.



End Entry.

(** ** The scenarios, run

    Witnesses of the theorems and runs of the pass on the concrete
    scenarios. *)

Section Runs.
#[local] Existing Instance toy_backend.

Example match_single :
  matchConvBatchNorm 2 st_single = (st_single_matched, Ok (Some c_single)).
Proof. vm_compute. reflexivity. Qed.

Lemma fold_formulas_witness :
  FoldResult c_single st_single_matched
    (mkTensorImpl kFloat [2] [4; 6]%Z) (mkTensorImpl kFloat [2] [1; 1]%Z)
    (mkTensorImpl kFloat [2] [1; 2]%Z) (mkTensorImpl kFloat [2] [3; 8]%Z)
    (mkTensorImpl kFloat [2; 1; 1] [3; 5]%Z) None.
Proof.
  apply (fold_formulas c_single st_single_matched
           (mkNode onnx_Conv [0; 1] [6] [("group"%string, attr_other "i")] []
                   (Some 0)));
    try reflexivity; simpl; lia.
Defined.

Lemma newConv_built_witness :
  NewConvBuilt c_single st_single_folded st_single_built 4 9 10
    (mkNode onnx_Conv [0; 1] [6] [("group"%string, attr_other "i")] [] (Some 0))
    (mkNode onnx_BatchNormalization [6; 2; 3; 4; 5] [7]
            [("epsilon"%string, attr_f 1%Z)] [] (Some 0))
    (mkValue 3 [mkUse 1 0] (TensorTypeOf kFloat [1; 2; 4; 4]) None).
Proof.
  apply (newConv_built 0 c_single 9 14 st_single_folded st_single_built 4 9 10 _ _ 7).
  - apply (bool_decide_unpack _). vm_compute. exact I.
  - reflexivity.
  - reflexivity.
  - reflexivity.
  - reflexivity.
  - vm_compute. reflexivity.
Defined.

Lemma fusion_keeps_use_lists_exact_witness :
  FusionCommitted st_single st_single_fused 2 4.
Proof.
  apply (fusion_keeps_use_lists_exact 0 2 st_single st_single_fused 4 9 10 1).
  - apply (bool_decide_unpack _). vm_compute. exact I.
  - apply (bool_decide_unpack _). vm_compute. exact I.
  - vm_compute. reflexivity.
Defined.

Lemma mismatch_is_skipped_witness :
  (fuseConv 0 2 st_unresolved).2 = Ok Skipped
  ∧ graph (fuseConv 0 2 st_unresolved).1 = graph st_unresolved
  ∧ valsToParamsMap (fuseConv 0 2 st_unresolved).1
    = valsToParamsMap st_unresolved.
Proof.
  apply (mismatch_is_skipped 0 2 st_unresolved conv_single).
  - apply (bool_decide_unpack _). vm_compute. exact I.
  - apply (bool_decide_unpack _). vm_compute. exact I.
  - reflexivity.
  - reflexivity.
  - vm_compute. reflexivity.
Defined.

(** C6, as stated, fails on [st_noeps]: the Conv fails the resolved-inputs
    step of the matcher, and yet the candidate ends in an error, because
    [epsilon] is read (line 64) before the resolved inputs are counted
    (line 66). *)
Lemma mismatch_may_throw :
  spec_matches st_noeps 2 = false
  ∧ fuseConv 0 2 st_noeps = (st_noeps, Err AttributeError).
Proof. split; vm_compute; reflexivity. Qed.

Lemma traversal_continues_after_mismatch_witness :
  ∃ st1, graph st1 = graph st_long
    ∧ valsToParamsMap st1 = valsToParamsMap st_long
    ∧ fuseConvBatchNorm_from 3 0 2 st_long
      = (let* it2 := next_in_block 0 2 in fuseConvBatchNorm_from 2 0 it2) st1.
Proof.
  apply (traversal_continues_after_mismatch 2 0 2 st_long
           (mkBlock 0 1 [2; 3] None) conv_single).
  - apply (bool_decide_unpack _). vm_compute. exact I.
  - apply (bool_decide_unpack _). vm_compute. exact I.
  - reflexivity.
  - simpl. lia.
  - reflexivity.
  - reflexivity.
  - reflexivity.
  - vm_compute. reflexivity.
Defined.

(** C7, as stated, fails on [st_two]: the pass stops with an error at the
    first Conv, whose weight is bound to a value that is not a tensor
    ([toTensor], line 29); the second pair, which matches, is never
    reached. *)
Lemma traversal_may_abort :
  peephole 10 0 true st_two = (st_two, Err NotATensor)
  ∧ spec_matches st_two 4 = true.
Proof. split; vm_compute; reflexivity. Qed.

(** C4 on [st_nested].  The pass fuses the pair of block 1.  The new weight
    (value 11) becomes an input of the graph, but the new bias (value 12)
    becomes an input of block 1 and not of the graph; both are bound in
    the table. *)
Theorem nested_bias_is_block_input :
  let r := peephole 10 0 true st_nested in
  r.2 = Ok tt
  ∧ n_inputs <$> g_nodes (graph r.1) !! 7 = Some [6; 11; 12]
  ∧ g_block (graph r.1) = 0
  ∧ block_inputs (graph r.1) 0 = Some [0; 1; 2; 3; 4; 5; 11]
  ∧ block_inputs (graph r.1) 1 = Some [6; 12]
  ∧ is_Some (valsToParamsMap r.1 !! 11)
  ∧ is_Some (valsToParamsMap r.1 !! 12).
Proof.
  vm_compute. repeat split; eauto.
Qed.

(** C9 on [st_chain].  The first run creates Conv 7 from the pair (2, 3)
    and leaves it feeding the normalization 4 alone, all preconditions
    satisfied; the second run fuses that pair. *)
Theorem second_run_fuses_again :
  (peephole 20 0 true st_chain).2 = Ok tt
  ∧ g_nodes (graph st_chain) !! 7 = None
  ∧ n_kind <$> g_nodes (graph st_chain_once) !! 7 = Some onnx_Conv
  ∧ spec_matches st_chain_once 7 = true
  ∧ (peephole 20 0 true st_chain_once).2 = Ok tt
  ∧ g_nodes (graph st_chain_twice) !! 7 = None
  ∧ g_nodes (graph st_chain_twice) !! 4 = None.
Proof. vm_compute. repeat split. Qed.


(** The fusion of Conv 2 of [st_static], whose data and weight inputs are
    both bound: the new weight is the data tensor [7; 9] scaled per channel
    by scale / sqrt (var + epsilon), that is by 4 / 2 and 6 / 3, and the new
    bias is computed from the weight tensor [3; 5]:
    ([3; 5] - mean) * [2; 2] + bias, broadcast to shape [2; 1; 2]. *)
Example static_data_and_weight_folded :
  (fuseConv 0 2 st_static).2 = Ok (Fused 4 10 11 1)
  ∧ valsToParamsMap st_static_fused !! 10 = Some ("10"%string, IVTensor 10)
  ∧ valsToParamsMap st_static_fused !! 11 = Some ("11"%string, IVTensor 17)
  ∧ heap st_static_fused !! 10
    = Some (mkTensorImpl kFloat [2; 1; 1] [14; 18]%Z)
  ∧ heap st_static_fused !! 17
    = Some (mkTensorImpl kFloat [2; 1; 2] [5; 3; 9; 7]%Z).
Proof. vm_compute. repeat split. Qed.

(** The fusion of Conv 5 of [st_chain] binds, as the new weight, the data
    tensor [7; 9] scaled per channel by scale / sqrt (var + epsilon), that
    is by 4 / 2 and 6 / 3. *)
Example data_folded_as_weight :
  (fuseConv 0 5 st_chain).2 = Ok (Fused 7 13 14 4)
  ∧ valsToParamsMap (fuseConv 0 5 st_chain).1 !! 13
    = Some ("13"%string, IVTensor 10)
  ∧ heap (fuseConv 0 5 st_chain).1 !! 10
    = Some (mkTensorImpl kFloat [2; 1; 1] [14; 18]%Z).
Proof. vm_compute. repeat split. Qed.

(** *** Runs for the further properties *)

Lemma getValues_compacts_witness :
  st_single = st_single
  ∧ ∃ nd, g_nodes (graph st_single) !! 2 = Some nd
      ∧ [0] = omap (resolve st_single) (n_inputs nd)
      ∧ length [0] ≤ length (n_inputs nd)
      ∧ (length [0] = length (n_inputs nd) →
         Forall (λ val, is_Some (resolve st_single val)) (n_inputs nd)).
Proof.
  apply (getValues_compacts 2 st_single st_single [0]).
  vm_compute. reflexivity.
Defined.

(** On [st_two] the accessor throws on the Conv 2, at the weight. *)
Lemma getValues_throws_witness :
  getValues 2 st_two = (st_two, Err NotATensor).
Proof.
  apply (getValues_throws 2 (mkNode onnx_Conv [0; 1] [7] [] [] (Some 0)) st_two
           [0] 1 [] (mkValue 0 [mkUse 2 1] TensorTypeAny None)
           (mkNode prim_Param [] [0; 1; 2; 3; 4; 5; 6] [] [] None)).
  - reflexivity.
  - reflexivity.
  - constructor; [|constructor].
    exists (mkValue 0 [mkUse 2 0] TensorTypeAny None),
      (mkNode prim_Param [] [0; 1; 2; 3; 4; 5; 6] [] [] None).
    split; [reflexivity|]. split; [reflexivity|]. split.
    + intros _ e He. vm_compute in He. discriminate.
    + intros Hk. simpl in Hk. discriminate.
  - reflexivity.
  - reflexivity.
  - left. split; [reflexivity|]. split; [reflexivity|].
    exists "w"%string, "packed"%string. reflexivity.
Defined.

(** On [st_fanout] the Conv is skipped although its normalization has no
    [epsilon] and its weight is not a tensor. *)
Lemma early_rejection_is_unconditional_witness :
  fuseConv 0 2 st_fanout = (st_fanout, Ok Skipped).
Proof.
  apply (early_rejection_is_unconditional 0 2 st_fanout
           (mkNode onnx_Conv [0; 1] [6] [] [] (Some 0)) 6
           (mkValue 2 [mkUse 3 0; mkUse 1 1] TensorTypeAny None)).
  - reflexivity.
  - reflexivity.
  - reflexivity.
  - left. simpl. lia.
Defined.

Lemma missing_epsilon_throws_witness :
  fuseConv 0 2 st_noeps = (st_noeps, Err AttributeError).
Proof.
  apply (missing_epsilon_throws 0 2 st_noeps conv_single 6
           (mkValue 2 [mkUse 3 0] TensorTypeAny None) (mkUse 3 0)
           (mkNode onnx_BatchNormalization [6; 2; 3; 4; 5] [7] [] [] (Some 0))).
  - reflexivity.
  - reflexivity.
  - reflexivity.
  - reflexivity.
  - reflexivity.
  - reflexivity.
  - reflexivity.
  - intros x. simpl. discriminate.
Defined.

Lemma no_match_no_change_witness :
  graph (peephole 10 0 true st_unresolved).1 = graph st_unresolved
  ∧ valsToParamsMap (peephole 10 0 true st_unresolved).1
    = valsToParamsMap st_unresolved
  ∧ completes_or_out_of_fuel (peephole 10 0 true st_unresolved).2.
Proof.
  apply (no_match_no_change 10 0 st_unresolved).
  - apply (bool_decide_unpack _). vm_compute. exact I.
  - apply (bool_decide_unpack _). vm_compute. exact I.
  - apply (bool_decide_unpack _). vm_compute. exact I.
  - simpl. eexists. reflexivity.
Defined.

Lemma no_match_terminates_witness :
  (peephole 4 0 true st_long).2 = Ok tt.
Proof.
  apply (no_match_terminates 4 0 (mkBlock 0 1 [2; 3] None) st_long).
  - apply (bool_decide_unpack _). vm_compute. exact I.
  - apply (bool_decide_unpack _). vm_compute. exact I.
  - apply (bool_decide_unpack _). vm_compute. exact I.
  - reflexivity.
  - apply (bool_decide_unpack _). vm_compute. exact I.
  - simpl. lia.
Defined.

Lemma fusion_only_on_match_witness : spec_matches st_single 2 = true.
Proof.
  apply (fusion_only_on_match 0 2 st_single st_single_fused 4 9 10 1).
  - apply (bool_decide_unpack _). vm_compute. exact I.
  - vm_compute. reflexivity.
Defined.

Lemma new_inputs_registered_witness :
  NewInputsRegistered 0 9 14 st_single_folded st_single_built 9 10.
Proof.
  eapply (new_inputs_registered 0 c_single 9 14 st_single_folded
            st_single_built 4 9 10 _ _ 7).
  - apply (bool_decide_unpack _). vm_compute. exact I.
  - reflexivity.
  - reflexivity.
  - reflexivity.
  - reflexivity.
  - vm_compute. reflexivity.
Defined.

Lemma fusion_adds_two_bindings_witness :
  ∃ c st1 st2 convW convB,
    matchConvBatchNorm 2 st_single = (st1, Ok (Some c))
    ∧ foldBatchNorm c st1 = (st2, Ok (convW, convB))
    ∧ convW = c_convW c
    ∧ heap st_single_fused = heap st2
    ∧ 9 ≠ 10
    ∧ valsToParamsMap st_single !! 9 = None
    ∧ valsToParamsMap st_single !! 10 = None
    ∧ valsToParamsMap st_single_fused
      = <[10 := (pretty 10, IVTensor convB)]>
          (<[9 := (pretty 9, IVTensor convW)]> (valsToParamsMap st_single))
    ∧ length (heap st_single) ≤ convW
    ∧ is_Some (heap st_single_fused !! convW)
    ∧ is_Some (heap st_single_fused !! convB).
Proof.
  apply (fusion_adds_two_bindings 0 2 st_single st_single_fused 4 9 10 1).
  - apply (bool_decide_unpack _). vm_compute. exact I.
  - apply (bool_decide_unpack _). vm_compute. exact I.
  - vm_compute. reflexivity.
Defined.

Lemma fusion_frame_witness : FusionFrame st_single st_single_fused 2 4.
Proof.
  apply (fusion_frame 0 2 st_single st_single_fused 4 9 10 1).
  - apply (bool_decide_unpack _). vm_compute. exact I.
  - vm_compute. reflexivity.
Defined.


(** *** The entry point on [g_single] *)



(** With the flag set the pass fuses Conv 2 of [g_single]: the dictionary
    handed back holds the five bound parameters and the two folded ones. *)
Example dictionary_after_fusion :
  (EvalPeepholeONNX 20 0 dict_single true g_single h_single).1.2
  = list_to_map [
      ("w"%string, IVTensor 0); ("2"%string, IVTensor 1);
      ("3"%string, IVTensor 2); ("4"%string, IVTensor 3);
      ("5"%string, IVTensor 4); ("9"%string, IVTensor 9);
      ("10"%string, IVTensor 14)].
Proof. vm_compute. reflexivity. Qed.

(** An input that was given a name made of digits: on [g_digits] the weight
    input is named [9] and bound to tensor 0; the fusion registers the folded
    weight under the same name, and the dictionary handed back binds [9] to
    the folded weight (tensor 9). *)
Example digit_name_is_rebound :
  given_names_ok g_digits 0 = false
  ∧ "9"%string ∈ input_names g_digits 0
  ∧ dict_digits !! "9"%string = Some (IVTensor 0)
  ∧ (EvalPeepholeONNX 20 0 dict_digits true g_digits h_single).2 = Ok tt
  ∧ (EvalPeepholeONNX 20 0 dict_digits true g_digits h_single).1.2
      !! "9"%string = Some (IVTensor 9).
Proof.
  split; [vm_compute; reflexivity|]. split.
  - apply (bool_decide_unpack _). vm_compute. exact I.
  - vm_compute. repeat split.
Qed.

End Runs.
